(** * The needle index of the bfs store (store/index.go)

    A shallow embedding of the index file codec, the [Indexer] front door
    ([Add], [Write], [Flush]), the background [write] loop with its [merge]
    pass, and [Scan] / [Recovery].

    Go integers are [Z] with their ranges written out, bytes are
    [Byte.byte], the runtime the code talks to (the index file, its
    descriptors, the clock, the glog sink) is an explicit [World] that every
    operation threads, and [error] values are an inductive type with
    [option error] playing the role of Go's nilable [error]. *)

From Stdlib Require Import ZArith Lia Bool.
From Stdlib.Strings Require Import Byte String.
From stdpp Require Import base list.

Local Open Scope Z_scope.

(** ** Errors *)

Inductive error : Type :=
| ErrRingFull                 (* ring: no free slot *)
| ErrRingEmpty                (* ring: nothing buffered *)
| ErrIndexSize                (* index record with a size out of bounds *)
| EOF                         (* io.EOF *)
| ErrShortWrite               (* io.ErrShortWrite *)
| ErrBufferFull               (* bufio.ErrBufferFull *)
| ErrInvalid                  (* os.ErrInvalid: nil *os.File *)
| ErrClosed                   (* os.ErrClosed: use of a closed file *)
| ErrIO (errno : nat).        (* a failing system call *)

(** ** Machine integers *)

Definition in_int64 (z : Z) : Prop := - 2 ^ 63 <= z < 2 ^ 63.
Definition in_uint32 (z : Z) : Prop := 0 <= z < 2 ^ 32.
Definition in_int32 (z : Z) : Prop := - 2 ^ 31 <= z < 2 ^ 31.

(** Reinterpretation of an unsigned [w]-bit pattern as a signed integer. *)
Definition to_signed (w : Z) (u : Z) : Z :=
  if u <? 2 ^ (w - 1) then u else u - 2 ^ w.

(** Go's [byte(z)]: the low eight bits of [z]. *)
Definition byte_of_Z (z : Z) : byte :=
  match Byte.of_N (Z.to_N (z mod 256)) with
  | Some b => b
  | None => x00
  end.

Definition Z_of_byte (b : byte) : Z := Z.of_N (Byte.to_N b).

(** ** Constants of index.go *)

Definition signalNum : nat := 1.
Definition indexReady : Z := 1.
Definition indexKeySize : nat := 8.
Definition indexOffsetSize : nat := 4.
Definition indexSizeSize : nat := 4.
Definition indexSize : nat := indexKeySize + indexOffsetSize + indexSizeSize.
Definition indexKeyOffset : nat := 0.
Definition indexOffsetOffset : nat := indexKeyOffset + indexKeySize.
Definition indexSizeOffset : nat := indexOffsetOffset + indexOffsetSize.
Definition indexMaxSize : Z := 100 * 1024 * 1024.
(** [time.Second * 30], in nanoseconds as [time.Duration] counts them. *)
Definition indexSignalDuration : Z := 1000000000 * 30.

(** ** Big-endian primitives *)

Module BigEndian.

(** Modelled from the spec: the [BigEndian] reader of the repository is
    not part of the sources at hand; section 6 describes it as "big-endian
    read/write primitives for signed/unsigned 64- and 32-bit integers".
    [Uint n buf] is the unsigned value of the first [n] bytes of [buf],
    most significant byte first. *)
Definition Uint (n : nat) (buf : list byte) : Z :=
  fold_left (fun acc b => acc * 256 + Z_of_byte b) (take n buf) 0.

(** Modelled from the spec: signed 64-bit big-endian read. *)
Definition Int64 (buf : list byte) : Z := to_signed 64 (Uint 8 buf).
(** Modelled from the spec: unsigned 32-bit big-endian read. *)
Definition Uint32 (buf : list byte) : Z := Uint 4 buf.
(** Modelled from the spec: signed 32-bit big-endian read. *)
Definition Int32 (buf : list byte) : Z := to_signed 32 (Uint 4 buf).

(** Modelled from the spec: the [n] bytes of the two's complement pattern
    of [v], most significant byte first; this is what the write
    primitives hand to their sink. *)
Fixpoint bytes (n : nat) (v : Z) : list byte :=
  match n with
  | O => []
  | S k => bytes k (v / 256) ++ [byte_of_Z v]
  end.

End BigEndian.

(** ** Index records *)

Record Index : Type := mkIndex { Key : Z; Offset : Z; Size : Z }.

Definition zeroIndex : Index := mkIndex 0 0 0.

(** [func (i *Index) parse(buf []byte)] *)
Definition parse (buf : list byte) : Index :=
  {| Key := BigEndian.Int64 buf;
     Offset := BigEndian.Uint32 (drop indexOffsetOffset buf);
     Size := BigEndian.Int32 (drop indexSizeOffset buf) |}.

(** The sixteen bytes that [Indexer.Write] hands to its buffered writer, in
    the order of its three calls. *)
Definition index_bytes (key offset size : Z) : list byte :=
  BigEndian.bytes 8 key ++ BigEndian.bytes 4 offset ++ BigEndian.bytes 4 size.

(** ** The world outside the program

    One index file (its bytes live in [disk]), the descriptors opened on it,
    the wall clock, the fault plan of the device, the glog sink and the
    history of the calls that reached the operating system. *)

Record Handle : Type := mkHandle { h_pos : nat; h_closed : bool }.

Record Faults : Type := mkFaults {
  fail_open : option error;
  fail_stat : option error;
  fail_falloc : option error;
  fail_seek : option error;
  fail_read : option error;
  (* a failing write still transfers the first [n] bytes *)
  fail_write : option (nat * error);
  fail_sync : option error;
  fail_close : option error }.

Definition no_faults : Faults :=
  mkFaults None None None None None None None None.

(** The [log.Errorf] / [log.Infof] lines of index.go, by call site. *)
Inductive logmsg : Type :=
| LogOpenFile (e : error)
| LogStat (e : error)
| LogFallocate (e : error)
| LogFlush (e : error)
| LogWrite (e : error)
| LogSync (e : error)
| LogClose (e : error)
| LogSeek (e : error)
| LogScan
| LogParseSize (size : Z)
| LogScanFailed (e : error)
| LogScanOk.

(** What the program was seen doing, oldest first: the system calls on a
    descriptor and the entries into [merge] and [Flush]. *)
Inductive event : Type :=
| SysOpen (fd : nat)
| SysSeek (fd : nat) (off : Z)
| SysRead (fd : nat) (n : Z)
| SysWrite (fd : nat) (bs : list byte)
| SysSync (fd : nat)
| SysClose (fd : nat)
| CallMerge
| CallFlush.

Record World : Type := mkWorld {
  disk : list byte;        (* logical content of the index file *)
  durable : list byte;     (* content as of the last successful Sync *)
  fds : list Handle;       (* every *os.File opened so far, by number *)
  clock : Z;               (* time.Now(), in nanoseconds *)
  faults : Faults;
  loops : nat;             (* live [write] goroutines *)
  glog : list logmsg;
  trace : list event }.

Definition set_disk (w : World) (d : list byte) : World :=
  mkWorld d (durable w) (fds w) (clock w) (faults w) (loops w) (glog w) (trace w).
Definition set_durable (w : World) (d : list byte) : World :=
  mkWorld (disk w) d (fds w) (clock w) (faults w) (loops w) (glog w) (trace w).
Definition set_fds (w : World) (l : list Handle) : World :=
  mkWorld (disk w) (durable w) l (clock w) (faults w) (loops w) (glog w) (trace w).
Definition set_clock (w : World) (t : Z) : World :=
  mkWorld (disk w) (durable w) (fds w) t (faults w) (loops w) (glog w) (trace w).
Definition set_faults (w : World) (x : Faults) : World :=
  mkWorld (disk w) (durable w) (fds w) (clock w) x (loops w) (glog w) (trace w).
Definition set_loops (w : World) (n : nat) : World :=
  mkWorld (disk w) (durable w) (fds w) (clock w) (faults w) n (glog w) (trace w).
Definition log (w : World) (m : logmsg) : World :=
  mkWorld (disk w) (durable w) (fds w) (clock w) (faults w) (loops w)
    (glog w ++ [m]) (trace w).
Definition emit (w : World) (e : event) : World :=
  mkWorld (disk w) (durable w) (fds w) (clock w) (faults w) (loops w)
    (glog w) (trace w ++ [e]).

(** [log.Errorf] guarded by [err != nil]. *)
Definition log_if (w : World) (mk : error -> logmsg) (err : option error) : World :=
  match err with Some e => log w (mk e) | None => w end.

(** *** *os.File

    A file pointer is [Some fd] or [None] for nil.  [on_file] finds the live
    descriptor or answers with the error every method of os.File gives on a
    nil or closed receiver. *)
Definition on_file {A : Type} (w : World) (fp : option nat)
    (bad : error -> A) (k : nat -> Handle -> A) : A :=
  match fp with
  | None => bad ErrInvalid
  | Some fd =>
      match fds w !! fd with
      | None => bad ErrInvalid
      | Some h => if h_closed h then bad ErrClosed else k fd h
      end
  end.

(** [os.OpenFile(file, os.O_RDWR|os.O_CREATE, 0664)]: a fresh descriptor at
    offset 0; an absent file is created empty. *)
Definition os_OpenFile (w : World) : World * option nat * option error :=
  match fail_open (faults w) with
  | Some e => (w, None, Some e)
  | None =>
      let fd := length (fds w) in
      (emit (set_fds w (fds w ++ [mkHandle 0 false])) (SysOpen fd), Some fd, None)
  end.

(** [f.Stat()], of which the code reads [Size()]. *)
Definition file_Stat (w : World) (fp : option nat) : Z * option error :=
  on_file w fp (fun e => (0, Some e)) (fun _ _ =>
    match fail_stat (faults w) with
    | Some e => (0, Some e)
    | None => (Z.of_nat (length (disk w)), None)
    end).

(** [Fallocate(fd, mode, offset, size)] with [mode = 1], that is
    FALLOC_FL_KEEP_SIZE: space is reserved, the logical length does not
    move. *)
Definition Fallocate (w : World) (fp : option nat) (mode offset size : Z)
    : option error :=
  on_file w fp (fun e => Some e) (fun _ _ => fail_falloc (faults w)).

(** [f.Seek(off, os.SEEK_SET)] *)
Definition file_Seek (w : World) (fp : option nat) (off : Z) : World * option error :=
  on_file w fp (fun e => (w, Some e)) (fun fd h =>
    let w := emit w (SysSeek fd off) in
    match fail_seek (faults w) with
    | Some e => (w, Some e)
    | None =>
        if off <? 0 then (w, Some ErrInvalid)
        else (set_fds w (<[fd := mkHandle (Z.to_nat off) (h_closed h)]> (fds w)), None)
    end).

(** The bytes of [d] after [p] was written at offset [pos]; a hole is read
    back as zeroes. *)
Definition pwrite (d : list byte) (pos : nat) (p : list byte) : list byte :=
  take pos d ++ replicate (pos - length d) x00 ++ p ++ drop (pos + length p) d.

(** [f.Write(p)]: at the descriptor's offset, which advances. *)
Definition file_Write (w : World) (fp : option nat) (p : list byte)
    : World * nat * option error :=
  on_file w fp (fun e => (w, 0%nat, Some e)) (fun fd h =>
    let q := match fail_write (faults w) with
             | Some (n, _) => take n p
             | None => p
             end in
    let err := match fail_write (faults w) with
               | Some (_, e) => Some e
               | None => None
               end in
    let w := emit w (SysWrite fd q) in
    let w := set_disk w (pwrite (disk w) (h_pos h) q) in
    let w := set_fds w (<[fd := mkHandle (h_pos h + length q) (h_closed h)]> (fds w)) in
    (w, length q, err)).

(** [f.Read(p)] with [len(p) = n]: what is left of the file, [n] bytes at
    most; at the end of the file, [io.EOF]. *)
Definition file_Read (w : World) (fp : option nat) (n : Z)
    : World * list byte * option error :=
  on_file w fp (fun e => (w, [], Some e)) (fun fd h =>
    let w := emit w (SysRead fd n) in
    match fail_read (faults w) with
    | Some e => (w, [], Some e)
    | None =>
        let rest := drop (h_pos h) (disk w) in
        let k := Z.min n (Z.of_nat (length rest)) in
        if n <=? 0 then (w, [], None)
        else if k <=? 0 then (w, [], Some EOF)
        else
          let bs := take (Z.to_nat k) rest in
          (set_fds w (<[fd := mkHandle (h_pos h + length bs) (h_closed h)]> (fds w)),
           bs, None)
    end).

(** [f.Sync()] *)
Definition file_Sync (w : World) (fp : option nat) : World * option error :=
  on_file w fp (fun e => (w, Some e)) (fun fd h =>
    let w := emit w (SysSync fd) in
    match fail_sync (faults w) with
    | Some e => (w, Some e)
    | None => (set_durable w (disk w), None)
    end).

(** [f.Close()]: the descriptor is gone even when close(2) reports an error. *)
Definition file_Close (w : World) (fp : option nat) : World * option error :=
  on_file w fp (fun e => (w, Some e)) (fun fd h =>
    let w := emit w (SysClose fd) in
    (set_fds w (<[fd := mkHandle (h_pos h) true]> (fds w)), fail_close (faults w))).

(** ** bufio

    The two buffered wrappers of Go's standard library, as far as index.go
    drives them.  Their loops run on fuel; the lemmas of the second half
    show that the fuel handed to them is never used up. *)

Definition is_nil (err : option error) : bool :=
  match err with None => true | Some _ => false end.

Record Writer : Type := mkWriter {
  wr : option nat;        (* the *os.File underneath *)
  wbuf : list byte;       (* buf[0:n] *)
  wsize : Z;              (* len(buf) *)
  werr : option error }.

(** [bufio.NewWriterSize(w, size)] *)
Definition NewWriterSize (fp : option nat) (size : Z) : Writer :=
  mkWriter fp [] (if size <=? 0 then 4096 else size) None.

(** [b.Reset(w)] *)
Definition Writer_Reset (b : Writer) (fp : option nat) : Writer :=
  mkWriter fp [] (wsize b) None.

(** [b.Available()] *)
Definition Available (b : Writer) : Z := wsize b - Z.of_nat (length (wbuf b)).

(** [b.Flush()] of bufio.Writer *)
Definition Writer_Flush (w : World) (b : Writer) : World * Writer * option error :=
  match werr b with
  | Some e => (w, b, Some e)
  | None =>
      if (length (wbuf b) =? 0)%nat then (w, b, None)
      else
        let '(w, n, err) := file_Write w (wr b) (wbuf b) in
        let err := if (n <? length (wbuf b))%nat && is_nil err
                   then Some ErrShortWrite else err in
        match err with
        | Some e => (w, mkWriter (wr b) (drop n (wbuf b)) (wsize b) (Some e), Some e)
        | None => (w, mkWriter (wr b) [] (wsize b) None, None)
        end
  end.

(** The [for len(p) > b.Available() && b.err == nil] loop of
    [bufio.Writer.Write]; it returns what is left of [p]. *)
Fixpoint Writer_Write_loop (fuel : nat) (w : World) (b : Writer) (p : list byte)
    : World * Writer * list byte :=
  match fuel with
  | O => (w, b, p)
  | S fuel' =>
      if (Available b <? Z.of_nat (length p)) && is_nil (werr b) then
        if (length (wbuf b) =? 0)%nat then
          (* large write, empty buffer: straight to the file *)
          let '(w, n, err) := file_Write w (wr b) p in
          Writer_Write_loop fuel' w (mkWriter (wr b) (wbuf b) (wsize b) err) (drop n p)
        else
          let n := Z.to_nat (Z.min (Available b) (Z.of_nat (length p))) in
          let b := mkWriter (wr b) (wbuf b ++ take n p) (wsize b) (werr b) in
          let '(w, b, _) := Writer_Flush w b in
          Writer_Write_loop fuel' w b (drop n p)
      else (w, b, p)
  end.

(** [b.Write(p)] of bufio.Writer *)
Definition Writer_Write (w : World) (b : Writer) (p : list byte)
    : World * Writer * option error :=
  let '(w, b, p) := Writer_Write_loop 3 w b p in
  match werr b with
  | Some e => (w, b, Some e)
  | None => (w, mkWriter (wr b) (wbuf b ++ p) (wsize b) None, None)
  end.

Record Reader : Type := mkReader {
  rd : option nat;        (* the *os.File underneath *)
  rbuf : list byte;       (* buf[r:w], read and not yet consumed *)
  rsize : Z;              (* len(buf) *)
  rerr : option error }.

(** [bufio.NewReaderSize(rd, size)]: no buffer is shorter than 16 bytes. *)
Definition NewReaderSize (fp : option nat) (size : Z) : Reader :=
  mkReader fp [] (Z.max size 16) None.

(** [b.fill()]: one Read into the free tail of the buffer. *)
Definition Reader_fill (w : World) (b : Reader) : World * Reader :=
  let '(w, bs, err) := file_Read w (rd b) (rsize b - Z.of_nat (length (rbuf b))) in
  (w, mkReader (rd b) (rbuf b ++ bs) (rsize b) err).

(** The filling loop of [Peek]. *)
Fixpoint Reader_Peek_loop (fuel : nat) (w : World) (b : Reader) (n : nat)
    : World * Reader :=
  match fuel with
  | O => (w, b)
  | S fuel' =>
      if (length (rbuf b) <? n)%nat && (Z.of_nat (length (rbuf b)) <? rsize b)
         && is_nil (rerr b)
      then let '(w, b) := Reader_fill w b in Reader_Peek_loop fuel' w b n
      else (w, b)
  end.

(** [b.Peek(n)] *)
Definition Reader_Peek (w : World) (b : Reader) (n : nat)
    : World * Reader * list byte * option error :=
  let '(w, b) := Reader_Peek_loop (S n) w b n in
  if rsize b <? Z.of_nat n then (w, b, rbuf b, Some ErrBufferFull)
  else if (length (rbuf b) <? n)%nat then
    (* not enough data in the buffer: readErr() *)
    let err := match rerr b with Some e => e | None => ErrBufferFull end in
    (w, mkReader (rd b) (rbuf b) (rsize b) None, rbuf b, Some err)
  else (w, b, take n (rbuf b), None).

(** The skipping loop of [Discard]. *)
Fixpoint Reader_Discard_loop (fuel : nat) (w : World) (b : Reader) (remain : nat)
    : World * Reader * option error :=
  match fuel with
  | O => (w, b, None)
  | S fuel' =>
      let '(w, b) := if (length (rbuf b) =? 0)%nat then Reader_fill w b else (w, b) in
      let skip := Nat.min (length (rbuf b)) remain in
      let b := mkReader (rd b) (drop skip (rbuf b)) (rsize b) (rerr b) in
      let remain := (remain - skip)%nat in
      if (remain =? 0)%nat then (w, b, None)
      else match rerr b with
           | Some e => (w, mkReader (rd b) (rbuf b) (rsize b) None, Some e)
           | None => Reader_Discard_loop fuel' w b remain
           end
  end.

(** [b.Discard(n)] *)
Definition Reader_Discard (w : World) (b : Reader) (n : nat)
    : World * Reader * option error :=
  if (n =? 0)%nat then (w, b, None) else Reader_Discard_loop (S n) w b n.

(** ** The wake channel *)

Record Chan : Type := mkChan {
  cbuf : list Z;          (* values sent and not yet received *)
  ccap : nat;
  cclosed : bool }.

(** [make(chan int, n)] *)
Definition make_chan (n : nat) : Chan := mkChan [] n false.

Inductive send_result : Type :=
| Sent (c : Chan)         (* the [case c <- v] branch ran *)
| NotSent                 (* the [default] branch ran *)
| SendPanics.             (* send on closed channel *)

(** [select { case c <- v: ...; default: }] *)
Definition chan_try_send (c : Chan) (v : Z) : send_result :=
  if cclosed c then SendPanics
  else if (length (cbuf c) <? ccap c)%nat
       then Sent (mkChan (cbuf c ++ [v]) (ccap c) (cclosed c))
       else NotSent.

Inductive recv_result : Type :=
| Received (v : Z) (c : Chan)
| RecvBlocks.

(** [<-c]: a buffered value, else the zero value of a closed channel, else
    the receiver sleeps. *)
Definition chan_recv (c : Chan) : recv_result :=
  match cbuf c with
  | v :: rest => Received v (mkChan rest (ccap c) (cclosed c))
  | [] => if cclosed c then Received 0 c else RecvBlocks
  end.

(** [close(c)]; closing twice panics. *)
Definition chan_close (c : Chan) : option Chan :=
  if cclosed c then None else Some (mkChan (cbuf c) (ccap c) true).

(** ** The ring *)

(** Modelled from the spec: ring.go is not part of the sources at hand.
    Section 3: "fixed capacity C (caller-supplied), two monotonic cursors
    (write cursor, read cursor) taken modulo C ... occupancy = write cursor -
    read cursor"; the backing store is created once, with capacity C. *)
Record Ring : Type := mkRing {
  data : list Index;      (* the C slots *)
  num : nat;              (* C *)
  rn : nat;               (* read cursor *)
  wn : nat }.             (* write cursor *)

(** Modelled from the spec: construction with capacity [n], both cursors at
    their start. *)
Definition NewRing (n : nat) : Ring := mkRing (replicate n zeroIndex) n 0 0.

(** Modelled from the spec: "occupancy() -> integer: current count of
    committed, undrained slots". *)
Definition Buffered (r : Ring) : Z := Z.of_nat (wn r) - Z.of_nat (rn r).

(** Modelled from the spec: "reserveWrite() -> SlotRef | Error(Full): claims
    the next write slot without advancing the write cursor", failing "when
    occupancy = C".  A slot reference is the slot's position in [data]. *)
Definition Ring_Set (r : Ring) : nat + error :=
  if Buffered r =? Z.of_nat (num r) then inr ErrRingFull
  else inl (wn r mod num r)%nat.

(** Modelled from the spec: "commitWrite(): advances the write cursor by
    one". *)
Definition Ring_SetAdv (r : Ring) : Ring :=
  mkRing (data r) (num r) (rn r) (S (wn r)).

(** Modelled from the spec: "reserveRead() -> SlotRef | Error(Empty)",
    failing "when occupancy = 0". *)
Definition Ring_Get (r : Ring) : nat + error :=
  if Buffered r =? 0 then inr ErrRingEmpty
  else inl (rn r mod num r)%nat.

(** Modelled from the spec: "commitRead(): advances the read cursor by
    one". *)
Definition Ring_GetAdv (r : Ring) : Ring :=
  mkRing (data r) (num r) (S (rn r)) (wn r).

(** Reading and writing through a slot reference. *)
Definition slot_load (r : Ring) (slot : nat) : Index :=
  default zeroIndex (data r !! slot).
Definition slot_store (r : Ring) (slot : nat) (ix : Index) : Ring :=
  mkRing (<[slot := ix]> (data r)) (num r) (rn r) (wn r).

(** Modelled from the spec: the write primitives of [BigEndian] ("writes the
    three fields in the same order/width, big-endian, to an output sink"):
    one [Write] of the [n] big-endian bytes on the buffered writer, whose
    error is the primitive's error. *)
Definition BigEndian_Write (n : nat) (w : World) (b : Writer) (v : Z)
    : World * Writer * option error :=
  Writer_Write w b (BigEndian.bytes n v).

Definition BigEndian_WriteInt64 := BigEndian_Write 8.
Definition BigEndian_WriteUint32 := BigEndian_Write 4.
Definition BigEndian_WriteInt32 := BigEndian_Write 4.

(** ** The indexer *)

Record Indexer : Type := mkIndexer {
  f : option nat;          (* *os.File *)
  bw : Writer;
  sigNum : Z;
  signal : Chan;
  ring : Ring;
  File : string;
  LastErr : option error;
  signalTime : Z }.

Definition set_f (i : Indexer) (x : option nat) : Indexer :=
  mkIndexer x (bw i) (sigNum i) (signal i) (ring i) (File i) (LastErr i) (signalTime i).
Definition set_bw (i : Indexer) (x : Writer) : Indexer :=
  mkIndexer (f i) x (sigNum i) (signal i) (ring i) (File i) (LastErr i) (signalTime i).
Definition set_signal (i : Indexer) (x : Chan) : Indexer :=
  mkIndexer (f i) (bw i) (sigNum i) x (ring i) (File i) (LastErr i) (signalTime i).
Definition set_ring (i : Indexer) (x : Ring) : Indexer :=
  mkIndexer (f i) (bw i) (sigNum i) (signal i) x (File i) (LastErr i) (signalTime i).
Definition set_LastErr (i : Indexer) (x : option error) : Indexer :=
  mkIndexer (f i) (bw i) (sigNum i) (signal i) (ring i) (File i) x (signalTime i).
Definition set_signalTime (i : Indexer) (x : Z) : Indexer :=
  mkIndexer (f i) (bw i) (sigNum i) (signal i) (ring i) (File i) (LastErr i) x.

(** A call that may panic instead of returning. *)
Inductive outcome (A : Type) : Type :=
| Returns (a : A)
| Panics.
Arguments Returns {A} a.
Arguments Panics {A}.

(** [go i.write()] and the return of that goroutine. *)
Definition spawn (w : World) : World := set_loops w (S (loops w)).
Definition retire (w : World) : World := set_loops w (pred (loops w)).

(** [func (i *Indexer) Add(key int64, offset uint32, size int32) (err error)] *)
Definition Add (w : World) (i : Indexer) (key offset size : Z)
    : outcome (Indexer * option error) :=
  match LastErr i with
  | Some e => Returns (i, Some e)
  | None =>
      let now := clock w in
      let woken :=
        if (Buffered (ring i) >? sigNum i)
           || (now - signalTime i >? indexSignalDuration)
        then match chan_try_send (signal i) indexReady with
             | Sent c => Returns (set_signalTime (set_signal i c) now)
             | NotSent => Returns i
             | SendPanics => Panics
             end
        else Returns i in
      match woken with
      | Panics => Panics
      | Returns i =>
          match Ring_Set (ring i) with
          | inr e => Returns (set_LastErr i (Some e), Some e)
          | inl index =>
              let r := slot_store (ring i) index (mkIndex key offset size) in
              Returns (set_ring i (Ring_SetAdv r), None)
          end
      end
  end.

(** [func (i *Indexer) Write(key int64, offset uint32, size int32) (err error)] *)
Definition Write (w : World) (i : Indexer) (key offset size : Z)
    : World * Indexer * option error :=
  match LastErr i with
  | Some e => (w, i, Some e)
  | None =>
      let '(w, b, err) := BigEndian_WriteInt64 w (bw i) key in
      let i := set_bw i b in
      match err with
      | Some e => (w, set_LastErr i (Some e), Some e)
      | None =>
          let '(w, b, err) := BigEndian_WriteUint32 w (bw i) offset in
          let i := set_bw i b in
          match err with
          | Some e => (w, set_LastErr i (Some e), Some e)
          | None =>
              let '(w, b, err) := BigEndian_WriteInt32 w (bw i) size in
              let i := set_bw i b in
              match err with
              | Some e => (w, set_LastErr i (Some e), Some e)
              | None => (w, i, None)
              end
          end
      end
  end.

(** [func (i *Indexer) Flush() (err error)] *)
Definition Flush (w : World) (i : Indexer) : World * Indexer * option error :=
  let w := emit w CallFlush in
  match LastErr i with
  | Some e => (w, i, Some e)
  | None =>
      let '(w, b, err) := Writer_Flush w (bw i) in
      let i := set_bw i b in
      match err with
      | Some e => (log w (LogFlush e), set_LastErr i (Some e), Some e)
      | None => (w, i, None)
      end
  end.

(** The [for] of [merge]. *)
Fixpoint merge_loop (fuel : nat) (w : World) (i : Indexer)
    : World * Indexer * option error :=
  match fuel with
  | O => (w, i, None)
  | S fuel' =>
      match Ring_Get (ring i) with
      | inr _ => (w, i, None)
      | inl index =>
          let ix := slot_load (ring i) index in
          let '(w, i, err) := Write w i (Key ix) (Offset ix) (Size ix) in
          match err with
          | Some e => (log w (LogWrite e), i, Some e)
          | None => merge_loop fuel' w (set_ring i (Ring_GetAdv (ring i)))
          end
      end
  end.

(** [func (i *Indexer) merge() (err error)] *)
Definition merge (w : World) (i : Indexer) : World * Indexer * option error :=
  merge_loop (S (wn (ring i) - rn (ring i))) (emit w CallMerge) i.

(** One turn of the [for] in [write]: the goroutine sleeps on the channel,
    goes round again, or leaves the loop. *)
Inductive turn : Type :=
| Sleeps
| Again (w : World) (i : Indexer)
| Leaves (w : World) (i : Indexer).

Definition write_turn (w : World) (i : Indexer) : turn :=
  match chan_recv (signal i) with
  | RecvBlocks => Sleeps
  | Received v c =>
      let i := set_signal i c in
      if negb (v =? indexReady) then Leaves w i
      else
        let '(w, i, err) := merge w i in
        match err with
        | Some _ => Leaves w i
        | None =>
            let '(w, i, err) := Flush w i in
            match err with
            | Some _ => Leaves w i
            | None => Again w i
            end
        end
  end.

(** What [write] runs once it is out of its [for]. *)
Definition write_exit (w : World) (i : Indexer) : World * Indexer :=
  let '(w, i, _) := merge w i in
  let '(w, i, _) := Flush w i in
  let '(w, err) := file_Sync w (f i) in
  let w := log_if w LogSync err in
  let '(w, err) := file_Close w (f i) in
  let w := log_if w LogClose err in
  (retire w, i).

(** Where a run of [write] stands when nobody else moves: asleep on the
    channel, or returned. *)
Inductive standing : Type :=
| Asleep (w : World) (i : Indexer)
| Returned (w : World) (i : Indexer).

Fixpoint write_loop (fuel : nat) (w : World) (i : Indexer) : standing :=
  match fuel with
  | O => Asleep w i
  | S fuel' =>
      match write_turn w i with
      | Sleeps => Asleep w i
      | Again w i => write_loop fuel' w i
      | Leaves w i => let '(w, i) := write_exit w i in Returned w i
      end
  end.

(** [func (i *Indexer) write()], run until it sleeps or returns. *)
Definition write (w : World) (i : Indexer) : standing :=
  write_loop (S (S (length (cbuf (signal i))))) w i.

(** [func (i *Indexer) Close()] *)
Definition Close (i : Indexer) : outcome Indexer :=
  match chan_close (signal i) with
  | Some c => Returns (set_signal i c)
  | None => Panics
  end.

(** [func (i *Indexer) Open() (err error)] *)
Definition Open (w : World) (i : Indexer) : World * Indexer * option error :=
  let i := set_signal i (make_chan signalNum) in
  let '(w, fp, err) := os_OpenFile w in
  let i := set_f i fp in
  match err with
  | Some e => (log w (LogOpenFile e), i, Some e)
  | None =>
      let i := set_bw i (Writer_Reset (bw i) (f i)) in
      (spawn w, i, None)
  end.

Section Index.

(** [NeedleMaxSize], a constant of the needle code, outside of index.go. *)
Variable NeedleMaxSize : Z.

(** [func NewIndexer(file string, ring int) (i *Indexer, err error)].  The
    capacity is a natural number: [make] panics on a negative one.  On an
    error the source hands back the half-built instance next to it, without
    a writer or a loop; the model returns the error alone. *)
Definition NewIndexer (w : World) (file : string) (cap : nat)
    : World * (Indexer + error) :=
  let i := mkIndexer None (mkWriter None [] 0 None)
             (Z.quot (Z.of_nat cap) 2) (make_chan signalNum) (NewRing cap)
             file None (clock w) in
  let '(w, fp, err) := os_OpenFile w in
  let i := set_f i fp in
  match err with
  | Some e => (log w (LogOpenFile e), inr e)
  | None =>
      let '(size, err) := file_Stat w (f i) in
      match err with
      | Some e => (log w (LogStat e), inr e)
      | None =>
          let err := if size =? 0 then Fallocate w (f i) 1 0 indexMaxSize else None in
          match err with
          | Some e => (log w (LogFallocate e), inr e)
          | None =>
              let i := set_bw i (NewWriterSize (f i) NeedleMaxSize) in
              (spawn w, inl i)
          end
      end
  end.

Section Callback.

(** The callback of a scan, [fn func(ix *Index) error], with whatever it
    keeps between calls as an explicit state. *)
Context {S : Type}.
Variable fn : S -> Index -> S * option error.

(** The [for] of [Scan]; it is left with a non-nil [err] only.  The dump of
    the record under [log.V(1)] is left out. *)
Fixpoint Scan_loop (fuel : nat) (w : World) (rd : Reader) (st : S)
    : World * Reader * S * option error :=
  match fuel with
  | O => (w, rd, st, None)
  | Datatypes.S fuel' =>
      let '(w, rd, data, err) := Reader_Peek w rd indexSize in
      match err with
      | Some e => (w, rd, st, Some e)
      | None =>
          let ix := parse data in
          if (Size ix >? NeedleMaxSize) || (Size ix <? 1)
          then (log w (LogParseSize (Size ix)), rd, st, Some ErrIndexSize)
          else
            let '(w, rd, err) := Reader_Discard w rd indexSize in
            match err with
            | Some e => (w, rd, st, Some e)
            | None =>
                let '(st, err) := fn st ix in
                match err with
                | Some e => (w, rd, st, Some e)
                | None => Scan_loop fuel' w rd st
                end
            end
      end
  end.

(** [func (i *Indexer) Scan(r *os.File, fn func(ix *Index) error) (err error)] *)
Definition Scan (w : World) (i : Indexer) (r : option nat) (st : S)
    : World * Indexer * S * option error :=
  let rd := NewReaderSize r NeedleMaxSize in
  let w := log w LogScan in
  let '(w, err) := file_Seek w r 0 in
  match err with
  | Some e => (log w (LogSeek e), i, st, Some e)
  | None =>
      let '(w, _, st, err) := Scan_loop (Datatypes.S (length (disk w))) w rd st in
      match err with
      | Some EOF => (log w LogScanOk, i, st, None)
      | Some e => (log w (LogScanFailed e), i, st, Some e)
      | None => (w, i, st, None)
      end
  end.

End Callback.

(** The closure [Recovery] hands to [Scan]: it keeps [offset] next to the
    state of [fn], adds a record's width and then calls [fn]. *)
Definition Recovery_fn {S : Type} (fn : S -> Index -> S * option error)
    : Z * S -> Index -> (Z * S) * option error :=
  fun '(offset, st) ix =>
    let offset := offset + Z.of_nat indexSize in
    let '(st, err1) := fn st ix in
    ((offset, st), err1).

(** [func (i *Indexer) Recovery(fn func(ix *Index) error) (err error)].  In
    [if i.Scan(...); err != nil] the call is the simple statement of the
    [if] and its result is dropped; [err] is the named result, still nil
    when it is tested. *)
Definition Recovery {S : Type} (fn : S -> Index -> S * option error)
    (w : World) (i : Indexer) (st : S) : World * Indexer * S * option error :=
  let err : option error := None in
  let '(w, i, (offset, st), _) := Scan (Recovery_fn fn) w i (f i) (0, st) in
  match err with
  | Some e => (w, i, st, Some e)
  | None =>
      let '(w, err) := file_Seek w (f i) offset in
      (log_if w LogSeek err, i, st, err)
  end.

End Index.

(** ** Producer and loop, interleaved

    The caller of [Add] and the [write] goroutine take turns; a schedule
    says who moves next and how the clock advances in between.  [run]
    follows a schedule as long as every [Add] returns nil and the loop stays
    in its [for]. *)
Inductive action : Type :=
| DoAdd (key offset size : Z)
| DoTurn
| DoTick (d : Z).

Fixpoint run (acts : list action) (w : World) (i : Indexer)
    : option (World * Indexer) :=
  match acts with
  | [] => Some (w, i)
  | DoAdd key offset size :: acts =>
      match Add w i key offset size with
      | Returns (i, None) => run acts w i
      | _ => None
      end
  | DoTurn :: acts =>
      match write_turn w i with
      | Sleeps => run acts w i
      | Again w i => run acts w i
      | Leaves _ _ => None
      end
  | DoTick d :: acts => run acts (set_clock w (clock w + d)) i
  end.

(** The records a schedule submits, in submission order. *)
Fixpoint submitted (acts : list action) : list Index :=
  match acts with
  | [] => []
  | DoAdd key offset size :: acts => mkIndex key offset size :: submitted acts
  | _ :: acts => submitted acts
  end.

(** A callback that keeps every record it is handed, oldest first. *)
Definition collect (st : list Index) (ix : Index) : list Index * option error :=
  (st ++ [ix], None).

(** The callback state after the records [ixs] were delivered one by one. *)
Definition deliver {S : Type} (fn : S -> Index -> S * option error)
    (st : S) (ixs : list Index) : S :=
  fold_left (fun st ix => fst (fn st ix)) ixs st.

(** ** Vocabulary of the statements *)

(** A value of Go type [Index]. *)
Definition typed (ix : Index) : Prop :=
  in_int64 (Key ix) /\ in_uint32 (Offset ix) /\ in_int32 (Size ix).

(** Section 3: "a record is valid iff 1 <= size <= MaxRecordSize". *)
Definition valid_size (NeedleMaxSize : Z) (ix : Index) : Prop :=
  1 <= Size ix <= NeedleMaxSize.

(** A complete record on disk: sixteen bytes that decode to a valid size. *)
Definition valid_chunk (NeedleMaxSize : Z) (c : list byte) : Prop :=
  length c = indexSize /\ valid_size NeedleMaxSize (parse c).

(** [fp] is a live descriptor of [w]. *)
Definition live (w : World) (fp : option nat) : Prop :=
  exists fd h, fp = Some fd /\ fds w !! fd = Some h /\ h_closed h = false.

(** The offset of a live descriptor. *)
Definition position (w : World) (fp : option nat) : option nat :=
  match fp with
  | Some fd => h_pos <$> (fds w !! fd)
  | None => None
  end.

(** Is the descriptor closed? *)
Definition closed (w : World) (fp : option nat) : option bool :=
  match fp with
  | Some fd => h_closed <$> (fds w !! fd)
  | None => None
  end.

(** The first entry of the log [l] that is not in its prefix [l0]. *)
Definition since {A : Type} (l0 l : list A) : list A := drop (length l0) l.

(** What the constructor establishes and every operation keeps. *)
Definition ring_wf (r : Ring) : Prop :=
  length (data r) = num r /\ (rn r <= wn r)%nat /\ (wn r - rn r <= num r)%nat.

(** The committed, undrained records of the ring, oldest first. *)
Definition pending (r : Ring) : list Index :=
  map (fun k => slot_load r (k mod num r)%nat) (seq (rn r) (wn r - rn r)).

(** The bytes of a list of records on disk. *)
Definition encode_all (ixs : list Index) : list byte :=
  concat (map (fun ix => index_bytes (Key ix) (Offset ix) (Size ix)) ixs).

(** A sequence of front-door calls on one instance. *)
Inductive call : Type :=
| CallAdd (key offset size : Z)
| CallWrite (key offset size : Z)
| CallFlushNow.

Definition do_call (w : World) (i : Indexer) (c : call)
    : outcome (World * Indexer * option error) :=
  match c with
  | CallAdd key offset size =>
      match Add w i key offset size with
      | Returns (i, err) => Returns (w, i, err)
      | Panics => Panics
      end
  | CallWrite key offset size => Returns (Write w i key offset size)
  | CallFlushNow => Returns (Flush w i)
  end.

(** The errors a sequence of calls returns, in call order. *)
Fixpoint do_calls (w : World) (i : Indexer) (cs : list call)
    : outcome (World * Indexer * list (option error)) :=
  match cs with
  | [] => Returns (w, i, [])
  | c :: cs =>
      match do_call w i c with
      | Panics => Panics
      | Returns (w, i, err) =>
          match do_calls w i cs with
          | Panics => Panics
          | Returns (w, i, errs) => Returns (w, i, err :: errs)
          end
      end
  end.

(** ** The scenario of section 8

    "MaxRecordSize = 1 MiB, buffer capacity C = 4", on a new file. *)
Definition MiB : Z := 1024 * 1024.

Definition world0 : World := mkWorld [] [] [] 0 no_faults 0 [] [].

Definition indexer0 : Indexer :=
  match snd (NewIndexer MiB world0 "index" 4) with
  | inl i => i
  | inr _ => mkIndexer None (mkWriter None [] 0 None) 0 (make_chan 0) (NewRing 0)
               "index" None 0
  end.

Definition world1 : World := fst (NewIndexer MiB world0 "index" 4).

Definition set_trace (w : World) (t : list event) : World :=
  mkWorld (disk w) (durable w) (fds w) (clock w) (faults w) (loops w) (glog w) t.

(** Four inserts into the ring of capacity four: it is full. *)
Definition indexer4 : Indexer :=
  match run [DoAdd 1 0 100; DoAdd 2 128 200; DoAdd 3 256 300; DoAdd 4 384 400]
            world1 indexer0 with
  | Some (_, i) => i
  | None => indexer0
  end.

(** The fifth insert finds the ring full and leaves its error behind. *)
Definition indexer_err : Indexer :=
  match Add world1 indexer4 5 512 500 with
  | Returns (i, _) => i
  | Panics => indexer4
  end.

(** Two inserts, as in the scenario: occupancy 2 of 4. *)
Definition indexer2 : Indexer :=
  match run [DoAdd 1 0 100; DoAdd 2 128 200] world1 indexer0 with
  | Some (_, i) => i
  | None => indexer0
  end.

(** Events by kind. *)
Definition is_write (ev : event) : Prop :=
  match ev with SysWrite _ _ => True | _ => False end.
Definition no_teardown (ev : event) : Prop :=
  match ev with SysSync _ | SysClose _ => False | _ => True end.

(** [w'] comes after [w] by steps that open, close and sync nothing: the
    fault plan, the clock, the goroutines and the durable bytes are those of
    [w], every descriptor is as open or closed as it was, the log has only
    grown, and the trace has grown by events that satisfy [P]. *)
Definition evolves (P : event -> Prop) (w w' : World) : Prop :=
  faults w' = faults w /\ clock w' = clock w /\ loops w' = loops w /\
  durable w' = durable w /\
  (exists l, glog w' = glog w ++ l) /\
  (forall fd, h_closed <$> (fds w' !! fd) = h_closed <$> (fds w !! fd)) /\
  (exists t, trace w' = trace w ++ t /\ Forall P t).

(** The scenario once [Close] was called. *)
Definition indexer2_closed : Indexer :=
  match Close indexer2 with
  | Returns i => i
  | Panics => indexer2
  end.

(** A small instance for the failure path: a sixteen-byte writer, two
    records in the ring, a token in the channel (the second insert came more
    than thirty seconds after the first), and a device that now refuses
    every write. *)
Definition refuse_writes (w : World) (e : error) : World :=
  set_faults w (mkFaults None None None None None (Some (0%nat, e)) None None).

Definition small_indexer : Indexer :=
  match snd (NewIndexer 16 world0 "index" 4) with
  | inl i =>
      match run [DoAdd 1 0 100; DoTick 31000000000; DoAdd 2 128 200]
                (fst (NewIndexer 16 world0 "index" 4)) i with
      | Some (_, i) => i
      | None => i
      end
  | inr _ => indexer0
  end.

Definition small_world : World :=
  refuse_writes (set_clock (fst (NewIndexer 16 world0 "index" 4)) 31000000000)
    (ErrIO 5).

(** Events of a scan. *)
Definition is_scan_io (ev : event) : Prop :=
  match ev with SysSeek _ _ | SysRead _ _ => True | _ => False end.

(** [w'] comes after [w] by seeks and reads only. *)
Definition scan_frame (w w' : World) : Prop :=
  disk w' = disk w /\ evolves is_scan_io w w'.

(** The reader [b] sits on the live descriptor [fd] of a readable file, and
    what it holds followed by what the file has left is the stream [s]. *)
Definition reading (w : World) (b : Reader) (fd : nat) (s : list byte) : Prop :=
  rd b = Some fd /\ rerr b = None /\ 16 <= rsize b /\
  fail_read (faults w) = None /\
  exists h, fds w !! fd = Some h /\ h_closed h = false /\
            rbuf b ++ drop (h_pos h) (disk w) = s.

(** The callback returns nil on each of [ixs], delivered in order. *)
Fixpoint accepted {S : Type} (fn : S -> Index -> S * option error)
    (st : S) (ixs : list Index) : Prop :=
  match ixs with
  | [] => True
  | ix :: ixs => snd (fn st ix) = None /\ accepted fn (fst (fn st ix)) ixs
  end.

(** An index file left by a crash: two records and five bytes of a third. *)
Definition world_tail : World :=
  set_disk world1
    (index_bytes 1 0 100 ++ index_bytes 2 128 200 ++ [x00; x00; x00; x00; x03]).

(** An index file whose second record has size 0. *)
Definition world_zero : World :=
  set_disk world1
    (index_bytes 1 0 100 ++ index_bytes 2 128 0 ++ index_bytes 3 256 300).

(** The buffered writer [b] sits on the live descriptor [fd], whose offset
    is the end of the file, on a device that accepts writes; the file
    followed by the buffer is [out]. *)
Definition buffering (w : World) (b : Writer) (fd : nat) (out : list byte) : Prop :=
  wr b = Some fd /\ werr b = None /\ 0 < wsize b /\
  Z.of_nat (length (wbuf b)) <= wsize b /\
  fail_write (faults w) = None /\
  exists h, fds w !! fd = Some h /\ h_closed h = false /\
            h_pos h = length (disk w) /\ disk w ++ wbuf b = out.

(** The instance appends to [fd] through its writer and has no fault. *)
Definition appending (w : World) (i : Indexer) (fd : nat) (out : list byte) : Prop :=
  f i = Some fd /\ LastErr i = None /\ buffering w (bw i) fd out.

(** What is true between the moves of a schedule on a new file: the bytes
    written so far, then the buffer, then the ring hold the submitted
    records in submission order. *)
Definition in_flight (w : World) (i : Indexer) (fd : nat) (sent : list Index) : Prop :=
  exists out,
    appending w i fd out /\ ring_wf (ring i) /\
    out ++ encode_all (pending (ring i)) = encode_all sent /\
    fail_seek (faults w) = None /\ fail_read (faults w) = None.

(** The scenario as a schedule: two inserts, the second one more than thirty
    seconds after the first, then a turn of the loop. *)
Definition scenario : list action :=
  [DoAdd 1 0 100; DoTick 31000000000; DoAdd 2 128 200; DoTurn].

(** The bytes a reader can still deliver: its buffer and what the file has
    beyond the descriptor's offset. *)
Definition unread (w : World) (b : Reader) : nat :=
  length (rbuf b) +
  match rd b with
  | Some fd =>
      match fds w !! fd with
      | Some h => length (disk w) - h_pos h
      | None => 0
      end
  | None => 0
  end.

(** The events of [Add], [Write] and [Flush]. *)
Definition front_door_event (ev : event) : Prop :=
  match ev with SysWrite _ _ | CallFlush => True | _ => False end.

(** The scenario with its token sent, on a device that now refuses every
    write: the records fit the writer's buffer, so the refusal shows at the
    [Flush] of the turn. *)
Definition indexer2_token : Indexer :=
  match run [DoAdd 1 0 100; DoTick 31000000000; DoAdd 2 128 200] world1 indexer0 with
  | Some (_, i) => i
  | None => indexer0
  end.

Definition world1_refusing : World :=
  refuse_writes (set_clock world1 31000000000) (ErrIO 5).

(** A callback that keeps records like [collect] but answers the record of
    key [k] with the error [e]. *)
Definition reject_key (k : Z) (e : error) (st : list Index) (ix : Index)
    : list Index * option error :=
  if Key ix =? k then (st, Some e) else (st ++ [ix], None).

(** A new file on a device where preallocation fails. *)
Definition world0_no_falloc : World :=
  set_faults world0 (mkFaults None None (Some (ErrIO 28)) None None None None None).

(** An index file of three valid records. *)
Definition world_three : World :=
  set_disk world1
    (index_bytes 1 0 100 ++ index_bytes 2 128 200 ++ index_bytes 3 384 300).

(** The scenario after [Close] and the return of the loop. *)
Definition world_shut : World :=
  match write world1 indexer2_closed with
  | Returned w _ | Asleep w _ => w
  end.
Definition indexer_shut : Indexer :=
  match write world1 indexer2_closed with
  | Returned _ i | Asleep _ i => i
  end.

(** The buffered writer [b] sits on the live descriptor [fd] of a file that
    held [d0] when the descriptor stood at offset [p0], within the file;
    since then the bytes [written] went to the file at that offset, and
    [out] is [written] followed by the buffer. *)
Definition patching (w : World) (b : Writer) (fd : nat) (d0 : list byte) (p0 : nat)
    (out : list byte) : Prop :=
  wr b = Some fd /\ werr b = None /\ 0 < wsize b /\
  Z.of_nat (length (wbuf b)) <= wsize b /\
  fail_write (faults w) = None /\ (p0 <= length d0)%nat /\
  exists h written,
    fds w !! fd = Some h /\ h_closed h = false /\
    h_pos h = (p0 + length written)%nat /\
    disk w = pwrite d0 p0 written /\ written ++ wbuf b = out.

(** Moves of the producer: everything but a turn of the loop. *)
Definition no_turn (a : action) : Prop :=
  match a with DoTurn => False | _ => True end.

(** A device that holds an index file of three records and has no descriptor
    open on it. *)
Definition world_old : World :=
  mkWorld (index_bytes 1 0 100 ++ index_bytes 2 128 200 ++ index_bytes 3 384 300)
    [] [] 0 no_faults 0 [] [].

(** The writer [b] sits on the live descriptor [fd], whose offset is the end
    of the file - on any device, failing or not. *)
Definition at_end (w : World) (b : Writer) (fd : nat) : Prop :=
  wr b = Some fd /\
  exists h, fds w !! fd = Some h /\ h_closed h = false /\
            h_pos h = length (disk w).

(** The file holds a prefix of the bytes [T]; as long as no fault is
    recorded, the file, then the buffer, then the ring hold all of [T]. *)
Definition holding (w : World) (i : Indexer) (fd : nat) (T : list byte) : Prop :=
  f i = Some fd /\ at_end w (bw i) fd /\ ring_wf (ring i) /\
  disk w `prefix_of` T /\
  (LastErr i = None ->
   werr (bw i) = None /\
   disk w ++ wbuf (bw i) ++ encode_all (pending (ring i)) = T).

(** A device on which writes, syncs and closes fail as given, and nothing
    else does. *)
Definition failing_device (fw : option (nat * error)) (fs fc : option error)
    : Faults :=
  mkFaults None None None None None fw fs fc.
(** The small instance after one [Write]: its sixteen-byte buffer is full. *)
Definition small_indexer_full : Indexer :=
  match Write small_world small_indexer 1 0 100 with
  | (_, i, _) => i
  end.

(** The [Write]s that [merge] issues for the records [ixs], oldest first:
    they stop at the first one that fails, which is logged, and the records
    not written, the failed one first, are handed back. *)
Fixpoint write_each (w : World) (i : Indexer) (ixs : list Index)
    : World * Indexer * list Index * option error :=
  match ixs with
  | [] => (w, i, [], None)
  | ix :: rest =>
      let '(w1, i1, err) := Write w i (Key ix) (Offset ix) (Size ix) in
      match err with
      | Some e => (log w1 (LogWrite e), i1, ix :: rest, Some e)
      | None => write_each w1 i1 rest
      end
  end.

(** * Codec lemmas *)

Lemma Z_of_byte_range b : 0 <= Z_of_byte b < 256.
Proof.
  unfold Z_of_byte. pose proof (Byte.to_N_bounded b) as H.
  split; [apply N2Z.is_nonneg|]. apply N2Z.inj_le in H. simpl in H. lia.
Qed.

Lemma Z_of_byte_of_Z z : Z_of_byte (byte_of_Z z) = z mod 256.
Proof.
  unfold Z_of_byte, byte_of_Z.
  assert (Hr : 0 <= z mod 256 < 256) by (apply Z.mod_pos_bound; lia).
  destruct (Byte.of_N (Z.to_N (z mod 256))) as [b|] eqn:E.
  - apply Byte.to_of_N in E. rewrite E. rewrite Z2N.id; lia.
  - apply Byte.of_N_None_iff in E. lia.
Qed.

Lemma length_bytes n v : length (BigEndian.bytes n v) = n.
Proof.
  revert v. induction n as [|n IH]; intros v; simpl; [done|].
  rewrite length_app, IH. simpl. lia.
Qed.

Lemma fold_be_app (l1 l2 : list byte) a :
  fold_left (fun acc b => acc * 256 + Z_of_byte b) (l1 ++ l2) a =
  fold_left (fun acc b => acc * 256 + Z_of_byte b) l2
    (fold_left (fun acc b => acc * 256 + Z_of_byte b) l1 a).
Proof. apply fold_left_app. Qed.

Lemma Uint_exact n (l rest : list byte) :
  length l = n -> BigEndian.Uint n (l ++ rest) = BigEndian.Uint n l.
Proof.
  intros H. unfold BigEndian.Uint.
  rewrite take_app_length' by done. rewrite firstn_all2 by lia. done.
Qed.

Lemma Uint_bytes n v : BigEndian.Uint n (BigEndian.bytes n v) = v mod 256 ^ Z.of_nat n.
Proof.
  unfold BigEndian.Uint. rewrite firstn_all2 by (rewrite length_bytes; lia).
  revert v. induction n as [|n IH]; intros v.
  - simpl. rewrite Z.mod_1_r. done.
  - cbn [BigEndian.bytes]. rewrite fold_be_app, IH. cbn [fold_left].
    rewrite Z_of_byte_of_Z.
    rewrite Nat2Z.inj_succ, Z.pow_succ_r by lia.
    assert (0 < 256 ^ Z.of_nat n) by (apply Z.pow_pos_nonneg; lia).
    rewrite Z.rem_mul_r by lia. lia.
Qed.

Lemma to_signed_wrap w v :
  0 < w -> - 2 ^ (w - 1) <= v < 2 ^ (w - 1) -> to_signed w (v mod 2 ^ w) = v.
Proof.
  intros Hw Hv. unfold to_signed.
  assert (E : 2 ^ w = 2 * 2 ^ (w - 1)).
  { replace w with (Z.succ (w - 1)) at 1 by lia. rewrite Z.pow_succ_r; lia. }
  destruct (Z.ltb_spec v 0) as [Hn|Hn].
  - replace (v mod 2 ^ w) with (v + 2 ^ w).
    + destruct (Z.ltb_spec (v + 2 ^ w) (2 ^ (w - 1))); lia.
    + apply Z.mod_unique with (q := -1); lia.
  - rewrite Z.mod_small by lia.
    destruct (Z.ltb_spec v (2 ^ (w - 1))); lia.
Qed.

Lemma parse_index_bytes key offset size rest :
  in_int64 key -> in_uint32 offset -> in_int32 size ->
  parse (index_bytes key offset size ++ rest) = mkIndex key offset size.
Proof.
  unfold in_int64, in_uint32, in_int32. intros Hk Ho Hs.
  unfold parse, index_bytes, BigEndian.Int64, BigEndian.Uint32, BigEndian.Int32.
  rewrite <- !app_assoc.
  f_equal.
  - rewrite Uint_exact by apply length_bytes. rewrite Uint_bytes.
    change (256 ^ Z.of_nat 8) with (2 ^ 64). apply to_signed_wrap; lia.
  - change indexOffsetOffset with 8%nat.
    rewrite drop_app_length' by (by rewrite length_bytes).
    rewrite Uint_exact by apply length_bytes. rewrite Uint_bytes.
    change (256 ^ Z.of_nat 4) with (2 ^ 32). apply Z.mod_small. lia.
  - change indexSizeOffset with (8 + 4)%nat.
    rewrite <- drop_drop.
    rewrite drop_app_length' by (by rewrite length_bytes).
    rewrite drop_app_length' by (by rewrite length_bytes).
    rewrite Uint_exact by apply length_bytes. rewrite Uint_bytes.
    change (256 ^ Z.of_nat 4) with (2 ^ 32). apply to_signed_wrap; lia.
Qed.

Lemma length_index_bytes key offset size :
  length (index_bytes key offset size) = indexSize.
Proof. unfold index_bytes. rewrite !length_app, !length_bytes. done. Qed.

(** The codec on the records of the scenario and at the edges of the
    integer ranges. *)
Example index_bytes_scenario :
  index_bytes 2 128 200 =
  [x00; x00; x00; x00; x00; x00; x00; x02; x00; x00; x00; x80; x00; x00; x00; xc8].
Proof. reflexivity. Qed.

Example parse_extremes :
  parse (index_bytes (- 2 ^ 63) (2 ^ 32 - 1) (2 ^ 31 - 1)) =
  mkIndex (- 2 ^ 63) (2 ^ 32 - 1) (2 ^ 31 - 1) /\
  parse (index_bytes (-1) 0 (-1)) = mkIndex (-1) 0 (-1).
Proof. split; reflexivity. Qed.

(** * The buffered writer *)

Lemma Writer_Write_fits w b p :
  werr b = None -> Z.of_nat (length (wbuf b) + length p) <= wsize b ->
  Writer_Write w b p = (w, mkWriter (wr b) (wbuf b ++ p) (wsize b) None, None).
Proof.
  intros He Hl. unfold Writer_Write. cbn [Writer_Write_loop].
  unfold Available.
  destruct (Z.ltb_spec (wsize b - Z.of_nat (length (wbuf b))) (Z.of_nat (length p))); [lia|].
  cbn. rewrite He. done.
Qed.

Lemma Write_fits w i key offset size :
  LastErr i = None -> werr (bw i) = None ->
  Z.of_nat (length (wbuf (bw i)) + indexSize) <= wsize (bw i) ->
  Write w i key offset size =
  (w, set_bw i (mkWriter (wr (bw i)) (wbuf (bw i) ++ index_bytes key offset size)
                  (wsize (bw i)) None), None).
Proof.
  intros HL He Hl. unfold Write. rewrite HL.
  unfold BigEndian_WriteInt64, BigEndian_WriteUint32, BigEndian_WriteInt32,
    BigEndian_Write, indexSize, indexKeySize, indexOffsetSize, indexSizeSize in *.
  rewrite Writer_Write_fits by (rewrite ?length_bytes; done || lia).
  cbn [set_bw bw wbuf wsize werr wr].
  rewrite Writer_Write_fits
    by (cbn [wbuf wsize werr]; rewrite ?length_app, ?length_bytes; done || lia).
  cbn [set_bw bw wbuf wsize werr wr].
  rewrite Writer_Write_fits
    by (cbn [wbuf wsize werr]; rewrite ?length_app, ?length_bytes; done || lia).
  cbn [set_bw bw wbuf wsize werr wr f sigNum signal ring File LastErr signalTime].
  unfold index_bytes. rewrite <- !app_assoc. done.
Qed.

(** C6. Codec round trip: for any key (signed 64-bit), offset (unsigned
    32-bit) and size in [1, NeedleMaxSize], [Write] hands sixteen bytes to
    its writer, the key big-endian in bytes 0-7, the offset in bytes 8-11,
    the size in bytes 12-15, and [parse] of those bytes is the record. *)
Theorem codec_round_trip (NeedleMaxSize : Z) w i key offset size :
  in_int64 key -> in_uint32 offset -> in_int32 size ->
  valid_size NeedleMaxSize (mkIndex key offset size) ->
  LastErr i = None -> werr (bw i) = None ->
  Z.of_nat (length (wbuf (bw i)) + indexSize) <= wsize (bw i) ->
  exists bs : list byte,
    Write w i key offset size =
      (w, set_bw i (mkWriter (wr (bw i)) (wbuf (bw i) ++ bs) (wsize (bw i)) None),
       None) /\
    length bs = 16%nat /\
    take 8 bs = BigEndian.bytes 8 key /\
    take 4 (drop 8 bs) = BigEndian.bytes 4 offset /\
    drop 12 bs = BigEndian.bytes 4 size /\
    parse bs = mkIndex key offset size.
Proof.
  intros Hk Ho Hs _ HL He Hroom.
  exists (index_bytes key offset size). split; [by apply Write_fits|].
  split; [apply length_index_bytes|].
  split; [|split; [|split]].
  - unfold index_bytes. by rewrite take_app_length' by (by rewrite length_bytes).
  - unfold index_bytes. rewrite drop_app_length' by (by rewrite length_bytes).
    by rewrite take_app_length' by (by rewrite length_bytes).
  - unfold index_bytes. change 12%nat with (8 + 4)%nat. rewrite <- drop_drop.
    rewrite drop_app_length' by (by rewrite length_bytes).
    by rewrite drop_app_length' by (by rewrite length_bytes).
  - rewrite <- (app_nil_r (index_bytes key offset size)).
    by apply parse_index_bytes.
Qed.

Lemma codec_round_trip_witness :
  exists bs : list byte,
    Write world1 indexer0 1 0 100 =
      (world1,
       set_bw indexer0 (mkWriter (wr (bw indexer0)) (wbuf (bw indexer0) ++ bs)
                          (wsize (bw indexer0)) None), None) /\
    length bs = 16%nat /\
    take 8 bs = BigEndian.bytes 8 1 /\
    take 4 (drop 8 bs) = BigEndian.bytes 4 0 /\
    drop 12 bs = BigEndian.bytes 4 100 /\
    parse bs = mkIndex 1 0 100.
Proof.
  apply (codec_round_trip MiB world1 indexer0 1 0 100).
  - unfold in_int64. lia.
  - unfold in_uint32. lia.
  - unfold in_int32. lia.
  - unfold valid_size, MiB. simpl. lia.
  - reflexivity.
  - reflexivity.
  - vm_compute. discriminate.
Defined.

(** * The sticky fault *)

Lemma Add_sticky w i e key offset size :
  LastErr i = Some e -> Add w i key offset size = Returns (i, Some e).
Proof. intros H. unfold Add. by rewrite H. Qed.

Lemma Write_sticky w i e key offset size :
  LastErr i = Some e -> Write w i key offset size = (w, i, Some e).
Proof. intros H. unfold Write. by rewrite H. Qed.

Lemma Flush_sticky w i e :
  LastErr i = Some e -> Flush w i = (emit w CallFlush, i, Some e).
Proof. intros H. unfold Flush. by rewrite H. Qed.

Lemma Add_error_recorded w i key offset size i' e :
  Add w i key offset size = Returns (i', Some e) -> LastErr i' = Some e.
Proof.
  unfold Add. destruct (LastErr i) as [e0|] eqn:HL.
  - intros [= <- <-]. done.
  - destruct (_ || _).
    + destruct (chan_try_send _ _); [| |done].
      * destruct (Ring_Set _); intros [= <- <-] || intros [=]. done.
      * destruct (Ring_Set _); intros [= <- <-] || intros [=]. done.
    + destruct (Ring_Set _); intros [= <- <-] || intros [=]. done.
Qed.

Lemma Write_error_recorded w i key offset size w' i' e :
  Write w i key offset size = (w', i', Some e) -> LastErr i' = Some e.
Proof.
  unfold Write. destruct (LastErr i) as [e0|] eqn:HL.
  - intros [= <- <- <-]. done.
  - destruct (BigEndian_WriteInt64 _ _ _) as [[w1 b1] [e1|]];
      [intros [= <- <- <-]; done|].
    destruct (BigEndian_WriteUint32 _ _ _) as [[w2 b2] [e2|]];
      [intros [= <- <- <-]; done|].
    destruct (BigEndian_WriteInt32 _ _ _) as [[w3 b3] [e3|]];
      [intros [= <- <- <-]; done|]. intros [=].
Qed.

Lemma Flush_error_recorded w i w' i' e :
  Flush w i = (w', i', Some e) -> LastErr i' = Some e.
Proof.
  unfold Flush. destruct (LastErr i) as [e0|] eqn:HL.
  - intros [= <- <- <-]. done.
  - destruct (Writer_Flush _ _) as [[w1 b1] [e1|]];
      [intros [= <- <- <-]; done|]. intros [=].
Qed.

Lemma do_calls_sticky w i e cs :
  LastErr i = Some e ->
  exists n : nat,
    do_calls w i cs =
    Returns (set_trace w (trace w ++ replicate n CallFlush), i,
             map (fun _ => Some e) cs).
Proof.
  intros HL. revert w. induction cs as [|c cs IH]; intros w.
  - exists 0%nat. cbn. rewrite app_nil_r. by destruct w.
  - cbn [do_calls map]. destruct c as [k o s|k o s|]; cbn [do_call].
    + rewrite (Add_sticky _ _ e) by done.
      destruct (IH w) as [n ->]. by exists n.
    + rewrite (Write_sticky _ _ e) by done.
      destruct (IH w) as [n ->]. by exists n.
    + rewrite (Flush_sticky _ _ e) by done.
      destruct (IH (emit w CallFlush)) as [n ->]. exists (S n).
      unfold emit, set_trace. cbn. by rewrite <- app_assoc.
Qed.

Lemma Write_loop_S fuel w b p :
  Writer_Write_loop (S fuel) w b p =
  if (Available b <? Z.of_nat (length p)) && is_nil (werr b) then
    if (length (wbuf b) =? 0)%nat then
      let '(w, n, err) := file_Write w (wr b) p in
      Writer_Write_loop fuel w (mkWriter (wr b) (wbuf b) (wsize b) err) (drop n p)
    else
      let n := Z.to_nat (Z.min (Available b) (Z.of_nat (length p))) in
      let b := mkWriter (wr b) (wbuf b ++ take n p) (wsize b) (werr b) in
      let '(w, b, _) := Writer_Flush w b in
      Writer_Write_loop fuel w b (drop n p)
  else (w, b, p).
Proof. done. Qed.

(** On a device that refuses writes, the steps of [Flush] and [Write] that
    reach the file fail with the device's error. *)
Lemma file_Write_refused w fd h p n e :
  fds w !! fd = Some h -> h_closed h = false ->
  fail_write (faults w) = Some (n, e) ->
  exists w',
    file_Write w (Some fd) p = (w', length (take n p), Some e) /\
    faults w' = faults w.
Proof.
  intros Hfd Hc Hfw. unfold file_Write, on_file. rewrite Hfd, Hc, Hfw.
  eexists. split; [reflexivity|done].
Qed.

Lemma Writer_Flush_refused w b fd h n e :
  wr b = Some fd -> werr b = None -> wbuf b <> [] ->
  fds w !! fd = Some h -> h_closed h = false ->
  fail_write (faults w) = Some (n, e) ->
  exists w' b', Writer_Flush w b = (w', b', Some e) /\ werr b' = Some e.
Proof.
  intros Hwr He Hbuf Hfd Hc Hfw. unfold Writer_Flush. rewrite He.
  destruct (Nat.eqb_spec (length (wbuf b)) 0) as [H0|_].
  { by apply length_zero_iff_nil in H0. }
  rewrite Hwr.
  destruct (file_Write_refused w fd h (wbuf b) n e Hfd Hc Hfw) as (w' & -> & _).
  cbn [is_nil]. rewrite andb_false_r. by eexists _, _.
Qed.

Lemma Writer_Write_refused w b fd h n e p :
  wr b = Some fd -> werr b = None ->
  fds w !! fd = Some h -> h_closed h = false ->
  fail_write (faults w) = Some (n, e) ->
  Available b < Z.of_nat (length p) ->
  exists w' b', Writer_Write w b p = (w', b', Some e) /\ werr b' = Some e.
Proof.
  intros Hwr He Hfd Hc Hfw Hav. unfold Writer_Write. rewrite Write_loop_S.
  apply Z.ltb_lt in Hav. rewrite Hav, He. cbn [is_nil andb].
  destruct (Nat.eqb_spec (length (wbuf b)) 0) as [H0|H0].
  - rewrite Hwr.
    destruct (file_Write_refused w fd h p n e Hfd Hc Hfw) as (w' & -> & _).
    rewrite Write_loop_S. cbn [werr is_nil]. rewrite andb_false_r.
    by eexists _, _.
  - cbv zeta.
    match goal with
    | |- context [Writer_Flush w ?b1] =>
        destruct (Writer_Flush_refused w b1 fd h n e) as (w' & b' & -> & He');
          try done
    end.
    { cbn [wbuf]. intros E. apply app_eq_nil in E. destruct E as [E _].
      rewrite E in H0. done. }
    rewrite Write_loop_S, He'. cbn [is_nil]. rewrite andb_false_r, He'.
    by eexists _, _.
Qed.

Lemma Write_refused w i fd h n e key offset size :
  LastErr i = None -> wr (bw i) = Some fd -> werr (bw i) = None ->
  fds w !! fd = Some h -> h_closed h = false ->
  fail_write (faults w) = Some (n, e) ->
  Available (bw i) < Z.of_nat indexSize ->
  exists w' i', Write w i key offset size = (w', i', Some e) /\ LastErr i' = Some e.
Proof.
  intros HL Hwr He Hfd Hc Hfw Hav. unfold Write. rewrite HL.
  unfold BigEndian_WriteInt64, BigEndian_WriteUint32, BigEndian_WriteInt32,
    BigEndian_Write.
  change (Z.of_nat indexSize) with 16 in Hav. unfold Available in Hav.
  destruct (Z.ltb_spec (Available (bw i)) 8) as [H8|H8]; unfold Available in H8.
  { assert (Ha : Available (bw i) < Z.of_nat (length (BigEndian.bytes 8 key)))
      by (unfold Available; rewrite length_bytes; lia).
    destruct (Writer_Write_refused w (bw i) fd h n e _ Hwr He Hfd Hc Hfw Ha)
      as (w1 & b1 & -> & _).
    by eexists _, _. }
  rewrite Writer_Write_fits by (rewrite ?length_bytes; done || lia).
  cbn [set_bw bw].
  set (b1 := mkWriter (wr (bw i)) (wbuf (bw i) ++ BigEndian.bytes 8 key)
               (wsize (bw i)) None).
  assert (Hl1 : length (wbuf b1) = (length (wbuf (bw i)) + 8)%nat)
    by (unfold b1; cbn [wbuf]; by rewrite length_app, length_bytes).
  destruct (Z.ltb_spec (Available b1) 4) as [H4|H4]; unfold Available in H4.
  { assert (Ha : Available b1 < Z.of_nat (length (BigEndian.bytes 4 offset)))
      by (unfold Available; rewrite length_bytes; lia).
    destruct (Writer_Write_refused w b1 fd h n e _ Hwr eq_refl Hfd Hc Hfw Ha)
      as (w2 & b2 & -> & _).
    by eexists _, _. }
  rewrite Writer_Write_fits by (rewrite ?length_bytes; done || lia).
  cbn [set_bw bw].
  set (b2 := mkWriter (wr b1) (wbuf b1 ++ BigEndian.bytes 4 offset) (wsize b1) None).
  assert (Hl2 : length (wbuf b2) = (length (wbuf b1) + 4)%nat)
    by (unfold b2; cbn [wbuf]; by rewrite length_app, length_bytes).
  assert (Ha : Available b2 < Z.of_nat (length (BigEndian.bytes 4 size))).
  { unfold Available. rewrite length_bytes, Hl2, Hl1. cbn [b2 b1 wsize]. lia. }
  destruct (Writer_Write_refused w b2 fd h n e _ Hwr eq_refl Hfd Hc Hfw Ha)
    as (w3 & b3 & -> & _).
  by eexists _, _.
Qed.

(** C5. Sticky fault.  An error returned by [Add] (the ring's Full
    included), [Write] or [Flush] is the instance's [LastErr] afterwards.
    A failing step sets it: with the ring full [Add] returns Full; when the
    writer's [Flush], or one of the three big-endian writes of [Write],
    returns an error, then [Flush], or [Write], returns that error and
    leaves it in [LastErr]; and on a device that refuses writes, the [Flush]
    of a buffer that holds bytes and the [Write] of a record that the
    buffer has no room for fail with the device's error.  Once [LastErr] is
    set, every later [Add], [Write] and [Flush] returns that same error at
    once: the instance (ring, writer, channel) is as it was, the file, its
    descriptors and the log too, and nothing but the entries into [Flush]
    shows in the trace. *)
Theorem sticky_fault w i :
  (forall key offset size i' e,
      Add w i key offset size = Returns (i', Some e) -> LastErr i' = Some e) /\
  (forall key offset size i' err,
      LastErr i = None -> Ring_Set (ring i) = inr ErrRingFull ->
      Add w i key offset size = Returns (i', err) ->
      err = Some ErrRingFull /\ LastErr i' = Some ErrRingFull /\ ring i' = ring i) /\
  (forall key offset size w' i' e,
      Write w i key offset size = (w', i', Some e) -> LastErr i' = Some e) /\
  (forall w' i' e, Flush w i = (w', i', Some e) -> LastErr i' = Some e) /\
  (forall e cs, LastErr i = Some e ->
      exists w',
        do_calls w i cs = Returns (w', i, map (fun _ => Some e) cs) /\
        disk w' = disk w /\ durable w' = durable w /\ fds w' = fds w /\
        glog w' = glog w /\
        Forall (fun ev => ev = CallFlush) (since (trace w) (trace w'))) /\
  (forall w1 b1 e,
      LastErr i = None ->
      Writer_Flush (emit w CallFlush) (bw i) = (w1, b1, Some e) ->
      exists w' i',
        Flush w i = (w', i', Some e) /\ LastErr i' = Some e /\ bw i' = b1) /\
  (forall key offset size w1 b1 e,
      LastErr i = None ->
      BigEndian_WriteInt64 w (bw i) key = (w1, b1, Some e) ->
      exists i',
        Write w i key offset size = (w1, i', Some e) /\ LastErr i' = Some e) /\
  (forall key offset size w1 b1 w2 b2 e,
      LastErr i = None ->
      BigEndian_WriteInt64 w (bw i) key = (w1, b1, None) ->
      BigEndian_WriteUint32 w1 b1 offset = (w2, b2, Some e) ->
      exists i',
        Write w i key offset size = (w2, i', Some e) /\ LastErr i' = Some e) /\
  (forall key offset size w1 b1 w2 b2 w3 b3 e,
      LastErr i = None ->
      BigEndian_WriteInt64 w (bw i) key = (w1, b1, None) ->
      BigEndian_WriteUint32 w1 b1 offset = (w2, b2, None) ->
      BigEndian_WriteInt32 w2 b2 size = (w3, b3, Some e) ->
      exists i',
        Write w i key offset size = (w3, i', Some e) /\ LastErr i' = Some e) /\
  (forall fd h n e,
      LastErr i = None -> wr (bw i) = Some fd -> werr (bw i) = None ->
      fds w !! fd = Some h -> h_closed h = false ->
      fail_write (faults w) = Some (n, e) ->
      (wbuf (bw i) <> [] ->
       exists w' i', Flush w i = (w', i', Some e) /\ LastErr i' = Some e) /\
      (forall key offset size,
         Available (bw i) < Z.of_nat indexSize ->
         exists w' i',
           Write w i key offset size = (w', i', Some e) /\ LastErr i' = Some e)).
Proof.
  split; [intros *; apply Add_error_recorded|].
  split.
  { intros key offset size i' err HL HF. unfold Add. rewrite HL.
    destruct (_ || _).
    - destruct (chan_try_send _ _); [| |done]; cbn [ring set_signalTime set_signal];
        rewrite HF; by intros [= <- <-].
    - rewrite HF. by intros [= <- <-]. }
  split; [intros *; apply Write_error_recorded|].
  split; [intros *; apply Flush_error_recorded|].
  split.
  { intros e cs HL. destruct (do_calls_sticky w i e cs HL) as [n ->].
    eexists. split; [done|]. repeat split.
    unfold since. cbn. rewrite drop_app_length. by apply Forall_replicate. }
  split.
  { intros w1 b1 e HL HF. unfold Flush. rewrite HL, HF. by eexists _, _. }
  split.
  { intros key offset size w1 b1 e HL H1. unfold Write. rewrite HL, H1.
    by eexists. }
  split.
  { intros key offset size w1 b1 w2 b2 e HL H1 H2. unfold Write.
    rewrite HL, H1. cbn [bw set_bw]. rewrite H2. by eexists. }
  split.
  { intros key offset size w1 b1 w2 b2 w3 b3 e HL H1 H2 H3. unfold Write.
    rewrite HL, H1. cbn [bw set_bw]. rewrite H2. cbn [bw set_bw]. rewrite H3.
    by eexists. }
  intros fd h n e HL Hwr He Hfd Hc Hfw. split.
  - intros Hbuf. unfold Flush. rewrite HL.
    destruct (Writer_Flush_refused (emit w CallFlush) (bw i) fd h n e)
      as (w1 & b1 & -> & _); try done.
    by eexists _, _.
  - intros key offset size Hav. by eapply Write_refused.
Qed.

Lemma sticky_fault_witness :
  (exists i' w',
     Add world1 indexer4 5 512 500 = Returns (i', Some ErrRingFull) /\
     LastErr i' = Some ErrRingFull /\
     do_calls world1 i' [CallAdd 6 640 600; CallWrite 6 640 600; CallFlushNow] =
       Returns (w', i', [Some ErrRingFull; Some ErrRingFull; Some ErrRingFull]) /\
     disk w' = disk world1 /\ fds w' = fds world1) /\
  (exists w1 i1 w',
     Flush small_world small_indexer_full = (w1, i1, Some (ErrIO 5)) /\
     LastErr i1 = Some (ErrIO 5) /\
     do_calls w1 i1 [CallAdd 6 640 600; CallWrite 6 640 600; CallFlushNow] =
       Returns (w', i1, [Some (ErrIO 5); Some (ErrIO 5); Some (ErrIO 5)]) /\
     disk w' = disk w1 /\ fds w' = fds w1) /\
  (exists w1 i1,
     Write small_world small_indexer_full 2 128 200 = (w1, i1, Some (ErrIO 5)) /\
     LastErr i1 = Some (ErrIO 5)).
Proof.
  split; [|split].
  - destruct (Add world1 indexer4 5 512 500) as [[i' err]|] eqn:E;
      [|vm_compute in E; discriminate].
    destruct (sticky_fault world1 indexer4) as (_ & Hfull & _).
    destruct (Hfull 5 512 500 i' err eq_refl eq_refl E) as (-> & HL & _).
    destruct (sticky_fault world1 i') as (_ & _ & _ & _ & Hs & _).
    destruct (Hs ErrRingFull [CallAdd 6 640 600; CallWrite 6 640 600; CallFlushNow] HL)
      as (w' & Hc & Hd & _ & Hf & _).
    exists i', w'. done.
  - destruct (sticky_fault small_world small_indexer_full)
      as (_ & _ & _ & _ & _ & _ & _ & _ & _ & Hdev).
    destruct (Hdev 0%nat (mkHandle 0 false) 0%nat (ErrIO 5)
                eq_refl eq_refl eq_refl eq_refl eq_refl eq_refl) as [HF _].
    destruct HF as (w1 & i1 & HF & HL); [vm_compute; discriminate|].
    destruct (sticky_fault w1 i1) as (_ & _ & _ & _ & Hs & _).
    destruct (Hs (ErrIO 5) [CallAdd 6 640 600; CallWrite 6 640 600; CallFlushNow] HL)
      as (w' & Hc & Hd & _ & Hf & _).
    exists w1, i1, w'. done.
  - destruct (sticky_fault small_world small_indexer_full)
      as (_ & _ & _ & _ & _ & _ & _ & _ & _ & Hdev).
    destruct (Hdev 0%nat (mkHandle 0 false) 0%nat (ErrIO 5)
                eq_refl eq_refl eq_refl eq_refl eq_refl eq_refl) as [_ HW].
    destruct (HW 2 128 200) as (w1 & i1 & HW1 & HL); [vm_compute; reflexivity|].
    by exists w1, i1.
Defined.

Lemma merge_sticky w i e :
  LastErr i = Some e -> exists w' err, merge w i = (w', i, err).
Proof.
  intros HL. unfold merge. cbn [merge_loop].
  destruct (Ring_Get (ring i)); [|by eauto].
  rewrite (Write_sticky _ _ e) by done. by eauto.
Qed.

Lemma write_exit_sticky w i e :
  LastErr i = Some e -> exists w', write_exit w i = (w', i).
Proof.
  intros HL. unfold write_exit.
  destruct (merge_sticky w i e HL) as (w1 & err1 & ->).
  rewrite (Flush_sticky _ _ e) by done.
  destruct (file_Sync _ _) as [w2 e2]. destruct (file_Close _ _) as [w3 e3].
  by eauto.
Qed.

Lemma write_turn_sticky w i e :
  LastErr i = Some e ->
  match write_turn w i with
  | Sleeps => True
  | Again _ i' | Leaves _ i' => exists c, i' = set_signal i c
  end.
Proof.
  intros HL. unfold write_turn.
  destruct (chan_recv (signal i)) as [v c|]; [|done].
  destruct (negb _); [by eauto|].
  destruct (merge_sticky w (set_signal i c) e HL) as (w1 & err1 & ->).
  destruct err1; [by eauto|].
  rewrite (Flush_sticky _ _ e) by done. by eauto.
Qed.

Lemma write_loop_sticky fuel w i e :
  LastErr i = Some e ->
  match write_loop fuel w i with
  | Asleep _ i' | Returned _ i' => LastErr i' = Some e
  end.
Proof.
  revert w i. induction fuel as [|fuel IH]; intros w i HL; cbn [write_loop]; [done|].
  pose proof (write_turn_sticky w i e HL) as Ht.
  destruct (write_turn w i) as [|w1 i1|w1 i1]; [done| |].
  - destruct Ht as [c ->]. by apply IH.
  - destruct Ht as [c ->].
    destruct (write_exit_sticky w1 (set_signal i c) e HL) as [w2 ->]. done.
Qed.

Lemma Open_LastErr w i :
  LastErr (snd (fst (Open w i))) = LastErr i.
Proof.
  unfold Open. destruct (os_OpenFile w) as [[w1 fp] [e1|]]; done.
Qed.

Lemma Close_LastErr i i' : Close i = Returns i' -> LastErr i' = LastErr i.
Proof.
  unfold Close. destruct (chan_close _); [|done]. by intros [= <-].
Qed.

(** C10. Reopening does not clear the sticky fault: when [LastErr] was set
    before [Close], it is still set once the old loop has returned and [Open]
    has run (whether [Open] itself fails or not), and every [Add], [Write]
    and [Flush] on the reopened instance returns the old fault at once. *)
Theorem reopen_keeps_fault w i e i1 w2 i2 w3 i3 err :
  LastErr i = Some e ->
  Close i = Returns i1 ->
  write w i1 = Returned w2 i2 ->
  Open w2 i2 = (w3, i3, err) ->
  LastErr i3 = Some e /\
  forall key offset size,
    Add w3 i3 key offset size = Returns (i3, Some e) /\
    Write w3 i3 key offset size = (w3, i3, Some e) /\
    Flush w3 i3 = (emit w3 CallFlush, i3, Some e).
Proof.
  intros HL HC HW HO.
  assert (H1 : LastErr i1 = Some e) by (by rewrite (Close_LastErr _ _ HC)).
  assert (H2 : LastErr i2 = Some e).
  { pose proof (write_loop_sticky (S (S (length (cbuf (signal i1))))) w i1 e H1) as H.
    unfold write in HW. by rewrite HW in H. }
  assert (H3 : LastErr i3 = Some e).
  { pose proof (Open_LastErr w2 i2) as H. rewrite HO in H. cbn in H. congruence. }
  split; [done|]. intros key offset size.
  by rewrite (Add_sticky _ _ e), (Write_sticky _ _ e), (Flush_sticky _ _ e).
Qed.

Lemma reopen_keeps_fault_witness :
  exists w3 i3,
    LastErr i3 = Some ErrRingFull /\
    forall key offset size,
      Add w3 i3 key offset size = Returns (i3, Some ErrRingFull) /\
      Write w3 i3 key offset size = (w3, i3, Some ErrRingFull) /\
      Flush w3 i3 = (emit w3 CallFlush, i3, Some ErrRingFull).
Proof.
  eexists _, _.
  eapply (reopen_keeps_fault world1 indexer_err ErrRingFull).
  - vm_compute. reflexivity.
  - vm_compute. reflexivity.
  - vm_compute. reflexivity.
  - vm_compute. reflexivity.
Defined.

(** * Waking the loop *)

Lemma NewIndexer_established NeedleMaxSize w file cap w' i :
  NewIndexer NeedleMaxSize w file cap = (w', inl i) ->
  sigNum i = Z.quot (Z.of_nat cap) 2 /\ ring i = NewRing cap /\
  signal i = make_chan signalNum /\ LastErr i = None /\
  signalTime i = clock w /\ wr (bw i) = f i /\ wbuf (bw i) = [] /\
  werr (bw i) = None /\
  wsize (bw i) = (if NeedleMaxSize <=? 0 then 4096 else NeedleMaxSize).
Proof.
  unfold NewIndexer.
  destruct (os_OpenFile w) as [[w1 fp] [e1|]]; [done|].
  destruct (file_Stat _ _) as [size [e2|]]; [done|].
  destruct (if size =? 0 then _ else _); [done|].
  intros [= <- <-]. done.
Qed.

Ltac wake_cases Hd :=
  repeat match goal with
         | |- _ /\ _ => split
         | |- _ -> _ => intro
         end;
  first [ done
        | cbn; lia
        | exfalso; apply Hd; lia
        | exfalso; apply Hd; split; [|lia];
          match goal with
          | Hn : num _ = 4%nat, Hb : Buffered _ = 2 |- _ => rewrite Hn, Hb
          end; by vm_compute ].

(** C8. Wake triggering: on an [Add] with no sticky fault (and the wake
    channel, of capacity one, open), a token is sent exactly when the
    occupancy is above half the capacity (integer division) or more than 30
    seconds passed since [signalTime].  The send does not block: into the
    empty channel it succeeds and [signalTime] becomes now; with a token
    pending it is dropped and [signalTime] stays.  Never more than one token
    is outstanding.  At capacity 4 and occupancy 2, within the 30 seconds,
    nothing is sent. *)
Theorem wake_trigger w i key offset size :
  LastErr i = None ->
  cclosed (signal i) = false ->
  ccap (signal i) = 1%nat ->
  (length (cbuf (signal i)) <= 1)%nat ->
  sigNum i = Z.quot (Z.of_nat (num (ring i))) 2 ->
  exists i' err,
    Add w i key offset size = Returns (i', err) /\
    (length (cbuf (signal i')) <= 1)%nat /\
    ccap (signal i') = 1%nat /\ cclosed (signal i') = false /\
    sigNum i' = sigNum i /\
    (Buffered (ring i) > Z.quot (Z.of_nat (num (ring i))) 2 \/
     clock w - signalTime i > 30 * 1000000000 ->
       (cbuf (signal i) = [] ->
          cbuf (signal i') = [indexReady] /\ signalTime i' = clock w) /\
       (cbuf (signal i) <> [] ->
          signal i' = signal i /\ signalTime i' = signalTime i)) /\
    (Buffered (ring i) <= Z.quot (Z.of_nat (num (ring i))) 2 ->
     clock w - signalTime i <= 30 * 1000000000 ->
       signal i' = signal i /\ signalTime i' = signalTime i) /\
    (num (ring i) = 4%nat -> Buffered (ring i) = 2 ->
     clock w - signalTime i <= 30 * 1000000000 ->
       signal i' = signal i /\ signalTime i' = signalTime i).
Proof.
  intros HL Hopen Hcap Hlen Hsig.
  assert (Hno : Buffered (ring i) <= Z.quot (Z.of_nat (num (ring i))) 2 ->
                clock w - signalTime i <= 30 * 1000000000 ->
                (Buffered (ring i) >? sigNum i)
                || (clock w - signalTime i >? indexSignalDuration) = false).
  { intros H1 H2. rewrite Hsig. unfold indexSignalDuration.
    rewrite !Z.gtb_ltb. apply orb_false_iff. split; apply Z.ltb_ge; lia. }
  assert (Hyes : Buffered (ring i) > Z.quot (Z.of_nat (num (ring i))) 2 \/
                 clock w - signalTime i > 30 * 1000000000 ->
                (Buffered (ring i) >? sigNum i)
                || (clock w - signalTime i >? indexSignalDuration) = true).
  { intros H. rewrite Hsig. unfold indexSignalDuration.
    apply orb_true_iff. rewrite !Z.gtb_ltb, !Z.ltb_lt. lia. }
  unfold Add. rewrite HL.
  destruct ((Buffered (ring i) >? sigNum i)
            || (clock w - signalTime i >? indexSignalDuration)) eqn:Hdue.
  - assert (Hd : ~ (Buffered (ring i) <= Z.quot (Z.of_nat (num (ring i))) 2 /\
                  clock w - signalTime i <= 30 * 1000000000)).
    { intros [H1 H2]. specialize (Hno H1 H2). congruence. }
    unfold chan_try_send. rewrite Hopen, Hcap.
    destruct (cbuf (signal i)) as [|v rest] eqn:Hb; cbn [length Nat.ltb Nat.leb].
    + destruct (Ring_Set _) as [slot|e]; eexists _, _; (split; [reflexivity|]);
        cbn; wake_cases Hd.
    + destruct rest; [|cbn in Hlen; lia]. cbn.
      destruct (Ring_Set _) as [slot|e]; eexists _, _; (split; [reflexivity|]);
        cbn; rewrite ?Hb; wake_cases Hd.
  - assert (Hd : ~ (Buffered (ring i) > Z.quot (Z.of_nat (num (ring i))) 2 \/
                  clock w - signalTime i > 30 * 1000000000)).
    { intros H. specialize (Hyes H). congruence. }
    destruct (Ring_Set _) as [slot|e]; eexists _, _; (split; [reflexivity|]);
      cbn; wake_cases Hd.
Qed.

Lemma wake_trigger_witness :
  exists i' err,
    Add world1 indexer2 3 256 300 = Returns (i', err) /\
    Buffered (ring indexer2) = 2 /\ num (ring indexer2) = 4%nat /\
    signal i' = signal indexer2 /\ signalTime i' = signalTime indexer2.
Proof.
  destruct (wake_trigger world1 indexer2 3 256 300)
    as (i' & err & HA & _ & _ & _ & _ & _ & _ & H4).
  - reflexivity.
  - reflexivity.
  - reflexivity.
  - vm_compute. lia.
  - reflexivity.
  - exists i', err. split; [exact HA|]. split; [reflexivity|]. split; [reflexivity|].
    apply H4; [reflexivity|reflexivity|]. vm_compute. discriminate.
Defined.

(** * Frames of the write path *)

Ltac evolves_split :=
  unfold evolves; split; [|split; [|split; [|split; [|split; [|split]]]]].

Lemma evolves_refl P w : evolves P w w.
Proof.
  evolves_split; try done.
  - exists []. by rewrite app_nil_r.
  - exists []. by rewrite app_nil_r.
Qed.

Lemma evolves_trans P w1 w2 w3 :
  evolves P w1 w2 -> evolves P w2 w3 -> evolves P w1 w3.
Proof.
  intros (F1 & C1 & L1 & D1 & [l1 G1] & H1 & [t1 [T1 A1]])
         (F2 & C2 & L2 & D2 & [l2 G2] & H2 & [t2 [T2 A2]]).
  evolves_split; [congruence|congruence|congruence|congruence| | |].
  - exists (l1 ++ l2). rewrite G2, G1. by rewrite app_assoc.
  - intros fd. by rewrite H2, H1.
  - exists (t1 ++ t2). split; [rewrite T2, T1; by rewrite app_assoc|].
    by apply Forall_app.
Qed.

Lemma evolves_weaken (P Q : event -> Prop) w w' :
  (forall ev, P ev -> Q ev) -> evolves P w w' -> evolves Q w w'.
Proof.
  intros HPQ (F1 & C1 & L1 & D1 & G1 & H1 & [t1 [T1 A1]]).
  evolves_split; try done. exists t1. split; [done|].
  eapply Forall_impl; eauto.
Qed.

Lemma evolves_log P w m : evolves P w (log w m).
Proof.
  evolves_split; try done.
  - by exists [m].
  - exists []. by rewrite app_nil_r.
Qed.


Lemma evolves_emit (P : event -> Prop) w ev : P ev -> evolves P w (emit w ev).
Proof.
  intros HP. evolves_split; try done.
  - exists []. by rewrite app_nil_r.
  - exists [ev]. split; [done|]. by constructor.
Qed.

Lemma closed_insert (l : list Handle) fd h p fd' :
  l !! fd = Some h ->
  h_closed <$> (<[fd := mkHandle p (h_closed h)]> l !! fd') = h_closed <$> (l !! fd').
Proof.
  intros Hl. destruct (decide (fd = fd')) as [<-|Hne].
  - rewrite list_lookup_insert_eq by (by eapply lookup_lt_Some). by rewrite Hl.
  - by rewrite list_lookup_insert_ne.
Qed.

Ltac on_file_cases w fp :=
  unfold on_file;
  let fd := fresh "fd" in
  let h := fresh "h" in
  let Hfd := fresh "Hfd" in
  let Hc := fresh "Hc" in
  destruct fp as [fd|]; [destruct (fds w !! fd) as [h|] eqn:Hfd;
    [destruct (h_closed h) eqn:Hc|]|].

Lemma file_Write_evolves w fp p w' n err :
  file_Write w fp p = (w', n, err) -> evolves is_write w w'.
Proof.
  unfold file_Write. on_file_cases w fp; intros [= <- <- <-];
    try apply evolves_refl.
  evolves_split; try done.
  - exists []. by rewrite app_nil_r.
  - intros fd'. cbn. rewrite <- Hc. by apply closed_insert.
  - eexists. split; [reflexivity|]. by repeat constructor.
Qed.

Lemma Writer_Flush_evolves w b w' b' err :
  Writer_Flush w b = (w', b', err) -> evolves is_write w w'.
Proof.
  unfold Writer_Flush. destruct (werr b); [intros [= <- <- <-]; apply evolves_refl|].
  destruct (_ =? _)%nat; [intros [= <- <- <-]; apply evolves_refl|].
  destruct (file_Write w (wr b) (wbuf b)) as [[w1 n1] e1] eqn:E.
  apply file_Write_evolves in E.
  destruct (_ && _); [by intros [= <- <- <-]|].
  destruct e1; by intros [= <- <- <-].
Qed.

Lemma Writer_Write_loop_evolves fuel w b p w' b' p' :
  Writer_Write_loop fuel w b p = (w', b', p') -> evolves is_write w w'.
Proof.
  revert w b p. induction fuel as [|fuel IH]; intros w b p; cbn [Writer_Write_loop].
  - intros [= <- <- <-]. apply evolves_refl.
  - destruct (_ && _); [|intros [= <- <- <-]; apply evolves_refl].
    destruct (_ =? _)%nat.
    + destruct (file_Write w (wr b) p) as [[w1 n1] e1] eqn:E.
      apply file_Write_evolves in E. intros H. apply IH in H.
      by eapply evolves_trans.
    + destruct (Writer_Flush _ _) as [[w1 b1] e1] eqn:E.
      apply Writer_Flush_evolves in E. intros H. apply IH in H.
      by eapply evolves_trans.
Qed.

Lemma Writer_Write_evolves w b p w' b' err :
  Writer_Write w b p = (w', b', err) -> evolves is_write w w'.
Proof.
  unfold Writer_Write.
  destruct (Writer_Write_loop 3 w b p) as [[w1 b1] p1] eqn:E.
  apply Writer_Write_loop_evolves in E.
  destruct (werr b1); by intros [= <- <- <-].
Qed.

Lemma Write_evolves w i key offset size w' i' err :
  Write w i key offset size = (w', i', err) ->
  evolves is_write w w' /\ f i' = f i /\ signal i' = signal i /\ ring i' = ring i.
Proof.
  unfold Write, BigEndian_WriteInt64, BigEndian_WriteUint32, BigEndian_WriteInt32,
    BigEndian_Write.
  destruct (LastErr i); [intros [= <- <- <-]; split; [apply evolves_refl|done]|].
  destruct (Writer_Write w _ _) as [[w1 b1] e1] eqn:E1.
  apply Writer_Write_evolves in E1.
  destruct e1; [intros [= <- <- <-]; done|].
  destruct (Writer_Write w1 _ _) as [[w2 b2] e2] eqn:E2.
  apply Writer_Write_evolves in E2.
  pose proof (evolves_trans _ _ _ _ E1 E2) as E12.
  destruct e2; [intros [= <- <- <-]; done|].
  destruct (Writer_Write w2 _ _) as [[w3 b3] e3] eqn:E3.
  apply Writer_Write_evolves in E3.
  pose proof (evolves_trans _ _ _ _ E12 E3) as E123.
  destruct e3; intros [= <- <- <-]; done.
Qed.

Lemma Flush_evolves w i w' i' err :
  Flush w i = (w', i', err) ->
  evolves is_write (emit w CallFlush) w' /\
  f i' = f i /\ signal i' = signal i /\ ring i' = ring i.
Proof.
  unfold Flush. destruct (LastErr i).
  { intros [= <- <- <-]. split; [apply evolves_refl|done]. }
  destruct (Writer_Flush _ _) as [[w1 b1] e1] eqn:E.
  apply Writer_Flush_evolves in E.
  destruct e1; intros [= <- <- <-]; (split; [|done]); [|done].
  eapply evolves_trans; [exact E|apply evolves_log].
Qed.

Lemma merge_loop_evolves fuel w i w' i' err :
  merge_loop fuel w i = (w', i', err) ->
  evolves is_write w w' /\ f i' = f i /\ signal i' = signal i.
Proof.
  revert w i. induction fuel as [|fuel IH]; intros w i; cbn [merge_loop].
  { intros [= <- <- <-]. split; [apply evolves_refl|done]. }
  destruct (Ring_Get _) as [index|e0].
  2:{ intros [= <- <- <-]. split; [apply evolves_refl|done]. }
  destruct (Write w i _ _ _) as [[w1 i1] e1] eqn:E.
  apply Write_evolves in E. destruct E as (E & Hf & Hs & Hr).
  destruct e1.
  - intros [= <- <- <-]. split; [|done].
    eapply evolves_trans; [exact E|apply evolves_log].
  - intros H. apply IH in H. destruct H as (E' & Hf' & Hs').
    split; [by eapply evolves_trans|]. cbn in *. split; congruence.
Qed.

Lemma merge_evolves w i w' i' err :
  merge w i = (w', i', err) ->
  evolves is_write (emit w CallMerge) w' /\ f i' = f i /\ signal i' = signal i.
Proof. unfold merge. apply merge_loop_evolves. Qed.

Lemma is_write_no_teardown ev : is_write ev -> no_teardown ev.
Proof. by destruct ev. Qed.

Lemma evolves_emit_then (P : event -> Prop) w ev w' :
  P ev -> evolves P (emit w ev) w' -> evolves P w w'.
Proof. intros HP H. eapply evolves_trans; [by apply evolves_emit|done]. Qed.

(** One turn of the loop syncs and closes nothing, and eats one token. *)
Lemma write_turn_evolves w i :
  match write_turn w i with
  | Sleeps => cbuf (signal i) = [] /\ cclosed (signal i) = false
  | Again w' i' =>
      evolves no_teardown w w' /\ f i' = f i /\
      cclosed (signal i') = cclosed (signal i) /\
      exists v, cbuf (signal i) = v :: cbuf (signal i')
  | Leaves w' i' =>
      evolves no_teardown w w' /\ f i' = f i
  end.
Proof.
  unfold write_turn, chan_recv.
  destruct (cbuf (signal i)) as [|v rest] eqn:Hb.
  - destruct (cclosed (signal i)); [|done]. cbn.
    split; [apply evolves_refl|done].
  - destruct (negb _); [split; [apply evolves_refl|done]|].
    destruct (merge w _) as [[w1 i1] e1] eqn:E1.
    apply merge_evolves in E1. destruct E1 as (E1 & Hf1 & Hs1).
    apply (evolves_weaken _ no_teardown) in E1; [|apply is_write_no_teardown].
    apply evolves_emit_then in E1; [|done].
    destruct e1; [done|].
    destruct (Flush w1 i1) as [[w2 i2] e2] eqn:E2.
    apply Flush_evolves in E2. destruct E2 as (E2 & Hf2 & Hs2 & _).
    apply (evolves_weaken _ no_teardown) in E2; [|apply is_write_no_teardown].
    apply evolves_emit_then in E2; [|done].
    assert (E : evolves no_teardown w w2) by (by eapply evolves_trans).
    destruct e2.
    + split; [done|]. cbn in *. congruence.
    + split; [done|]. cbn in *. split; [congruence|].
      rewrite Hs2, Hs1. cbn. split; [done|]. by exists v.
Qed.

(** With the channel closed the loop is left for good, whatever the fuel
    beyond the tokens still buffered. *)
Lemma write_loop_closed fuel w i :
  cclosed (signal i) = true -> (length (cbuf (signal i)) < fuel)%nat ->
  exists w0 i0 w' i',
    write_loop fuel w i = Returned w' i' /\
    evolves no_teardown w w0 /\ f i0 = f i /\
    write_exit w0 i0 = (w', i').
Proof.
  revert w i. induction fuel as [|fuel IH]; intros w i Hc Hl; [lia|].
  cbn [write_loop]. pose proof (write_turn_evolves w i) as Ht.
  destruct (write_turn w i) as [|w1 i1|w1 i1].
  - destruct Ht. congruence.
  - destruct Ht as (E & Hf & Hcl & v & Hb).
    destruct (IH w1 i1) as (w0 & i0 & w' & i' & HR & E' & Hf' & HX).
    { congruence. } { rewrite Hb in Hl. cbn in Hl. lia. }
    exists w0, i0, w', i'. split; [done|]. split; [by eapply evolves_trans|].
    split; [congruence|done].
  - destruct Ht as (E & Hf).
    destruct (write_exit w1 i1) as [w' i'] eqn:HX.
    by exists w1, i1, w', i'.
Qed.

Lemma file_Sync_live w fd h :
  fds w !! fd = Some h -> h_closed h = false ->
  file_Sync w (Some fd) =
  (match fail_sync (faults w) with
   | Some _ => emit w (SysSync fd)
   | None => set_durable (emit w (SysSync fd)) (disk w)
   end, fail_sync (faults w)).
Proof.
  intros Hfd Hc. unfold file_Sync, on_file. rewrite Hfd, Hc. cbn.
  by destruct (fail_sync (faults w)).
Qed.

Lemma file_Close_live w fd h :
  fds w !! fd = Some h -> h_closed h = false ->
  file_Close w (Some fd) =
  (set_fds (emit w (SysClose fd)) (<[fd := mkHandle (h_pos h) true]> (fds w)),
   fail_close (faults w)).
Proof. intros Hfd Hc. unfold file_Close, on_file. by rewrite Hfd, Hc. Qed.

Lemma evolves_live P w w' fd h :
  evolves P w w' -> fds w !! fd = Some h -> h_closed h = false ->
  exists h', fds w' !! fd = Some h' /\ h_closed h' = false.
Proof.
  intros (_ & _ & _ & _ & _ & H & _) Hfd Hc. specialize (H fd).
  rewrite Hfd in H. cbn in H. destruct (fds w' !! fd) as [h'|]; [|done].
  exists h'. split; [done|]. cbn in H. congruence.
Qed.

Lemma In_log_if w mk e : In (mk e) (glog (log_if w mk (Some e))).
Proof. cbn. apply in_or_app. right. by left. Qed.


(** ** Faults of the loop are logged *)




Lemma Flush_LastErr w i w' i' err e :
  Flush w i = (w', i', err) -> LastErr i' = Some e ->
  LastErr i = Some e \/ In (LogFlush e) (glog w').
Proof.
  unfold Flush. destruct (LastErr i) as [e0|] eqn:HL.
  { intros [= <- <- <-] H. left. congruence. }
  destruct (Writer_Flush _ _) as [[w1 b1] [e1|]].
  - intros [= <- <- <-] [= <-]. right. cbn. apply in_or_app. right. by left.
  - intros [= <- <- <-]. cbn. congruence.
Qed.







(** * The failure path of the loop *)

Lemma merge_loop_error_recorded fuel w i w' i' e :
  merge_loop fuel w i = (w', i', Some e) ->
  LastErr i' = Some e /\ In (LogWrite e) (glog w').
Proof.
  revert w i. induction fuel as [|fuel IH]; intros w i; cbn [merge_loop]; [done|].
  destruct (Ring_Get _) as [index|e0]; [|done].
  destruct (Write w i _ _ _) as [[w1 i1] e1] eqn:E.
  destruct e1 as [e1|].
  - intros [= <- <- <-]. split; [by eapply Write_error_recorded|].
    cbn. apply in_or_app. right. by left.
  - apply IH.
Qed.

Lemma merge_sticky_trace w i e :
  LastErr i = Some e ->
  exists w' err,
    merge w i = (w', i, err) /\ trace w' = trace w ++ [CallMerge] /\
    fds w' = fds w /\ faults w' = faults w /\ loops w' = loops w /\
    disk w' = disk w /\ exists l, glog w' = glog w ++ l.
Proof.
  intros HL. unfold merge. cbn [merge_loop].
  destruct (Ring_Get (ring i)).
  - rewrite (Write_sticky _ _ e) by done. eexists _, _. split; [reflexivity|].
    split_and!; try done. by eexists.
  - eexists _, _. split; [reflexivity|]. split_and!; try done.
    exists []. by rewrite app_nil_r.
Qed.

(** With the sticky fault set, the exit of [write] has nothing to drain and
    nothing to flush: it syncs and closes. *)
Lemma write_exit_sticky_trace w i e fd h :
  LastErr i = Some e ->
  f i = Some fd -> fds w !! fd = Some h -> h_closed h = false ->
  exists w',
    write_exit w i = (w', i) /\
    trace w' = trace w ++ [CallMerge; CallFlush; SysSync fd; SysClose fd] /\
    closed w' (Some fd) = Some true /\ disk w' = disk w /\
    loops w' = pred (loops w) /\ exists l, glog w' = glog w ++ l.
Proof.
  intros HL Hf Hfd Hc. unfold write_exit.
  destruct (merge_sticky_trace w i e HL)
    as (w1 & err1 & -> & T1 & Hfds1 & F1 & L1 & D1 & [l1 G1]).
  rewrite (Flush_sticky _ _ e) by done. rewrite Hf.
  rewrite (file_Sync_live _ fd h) by (cbn; congruence).
  cbn [faults emit].
  set (w3 := log_if _ LogSync (fail_sync (faults w1))).
  assert (H3 : fds w3 = fds w /\ faults w3 = faults w1 /\
               trace w3 = trace w ++ [CallMerge; CallFlush; SysSync fd] /\
               disk w3 = disk w /\ loops w3 = loops w /\
               exists l, glog w3 = glog w ++ l).
  { unfold w3. destruct (fail_sync (faults w1)); cbn; rewrite T1, G1, <- !app_assoc;
      split_and!; try done; by eexists. }
  clearbody w3. destruct H3 as (Hfds3 & F3 & T3 & D3 & L3 & [l3 G3]).
  rewrite (file_Close_live w3 fd h) by congruence.
  eexists. split; [reflexivity|].
  destruct (fail_close (faults w3)); cbn; rewrite T3, Hfds3, G3, <- !app_assoc;
    (split_and!; try done;
     [ by rewrite list_lookup_insert_eq by (by eapply lookup_lt_Some)
     | try congruence
     | by eexists ]).
Qed.

(** C2, as the code has it.  When an encode step fails in a turn of the
    loop, [merge] logs the error and [write] leaves its [for] by the same
    [break] as on shutdown, so the same exit runs: a [merge] and a [Flush]
    that both return the now sticky error at once, without a byte written,
    then [Sync] and [Close].  The file is closed on this path too. *)
Theorem encode_failure_exit w i fd h c w1 i1 e :
  f i = Some fd -> fds w !! fd = Some h -> h_closed h = false ->
  chan_recv (signal i) = Received indexReady c ->
  merge w (set_signal i c) = (w1, i1, Some e) ->
  exists w',
    write w i = Returned w' i1 /\
    LastErr i1 = Some e /\ In (LogWrite e) (glog w') /\
    trace w' = trace w1 ++ [CallMerge; CallFlush; SysSync fd; SysClose fd] /\
    closed w' (Some fd) = Some true /\
    disk w' = disk w1 /\ loops w' = pred (loops w).
Proof.
  intros Hf Hfd Hc Hrecv Hm.
  assert (HL : LastErr i1 = Some e /\ In (LogWrite e) (glog w1))
    by (eapply merge_loop_error_recorded; exact Hm).
  destruct HL as [HL Hlog].
  pose proof (merge_evolves _ _ _ _ _ Hm) as (E & Hf1 & _).
  destruct (evolves_live _ (emit w CallMerge) w1 fd h E Hfd Hc) as (h1 & Hfd1 & Hc1).
  destruct (write_exit_sticky_trace w1 i1 e fd h1 HL) as
    (w' & HX & HT & Hcl & Hd & Hl & [l G]); [by rewrite Hf1|done|done|].
  exists w'. unfold write. cbn [write_loop]. unfold write_turn.
  rewrite Hrecv. cbn [negb Z.eqb indexReady Pos.eqb]. rewrite Hm, HX.
  split_and!; try done.
  - rewrite G. apply in_or_app. by left.
  - destruct E as (_ & _ & L & _). cbn in L. congruence.
Qed.

Lemma encode_failure_exit_witness :
  exists w1 i1 w',
    merge small_world (set_signal small_indexer (mkChan [] 1 false)) =
      (w1, i1, Some (ErrIO 5)) /\
    write small_world small_indexer = Returned w' i1 /\
    LastErr i1 = Some (ErrIO 5) /\ In (LogWrite (ErrIO 5)) (glog w') /\
    trace w' = trace w1 ++ [CallMerge; CallFlush; SysSync 0%nat; SysClose 0%nat] /\
    closed w' (Some 0%nat) = Some true /\
    disk w' = disk w1 /\ loops w' = pred (loops small_world).
Proof.
  eassert (Hm : merge small_world (set_signal small_indexer (mkChan [] 1 false)) =
                (_, _, Some (ErrIO 5))) by (vm_compute; reflexivity).
  destruct (encode_failure_exit small_world small_indexer 0%nat (mkHandle 0 false)
              (mkChan [] 1 false) _ _ (ErrIO 5) eq_refl eq_refl eq_refl eq_refl Hm)
    as (w' & H).
  eexists _, _, w'. split; [exact Hm|exact H].
Defined.

(** C2, refuted as stated: an encode failure in the loop (channel open, no
    shutdown requested) ends with the file closed. *)
Lemma encode_failure_closes_file :
  exists w' i',
    write small_world small_indexer = Returned w' i' /\
    cclosed (signal small_indexer) = false /\
    LastErr small_indexer = None /\
    LastErr i' = Some (ErrIO 5) /\
    glog w' = [LogWrite (ErrIO 5); LogWrite (ErrIO 5)] /\
    closed small_world (Some 0%nat) = Some false /\
    closed w' (Some 0%nat) = Some true /\
    trace w' = [SysOpen 0; CallMerge; SysWrite 0 []; CallMerge; CallFlush;
                SysSync 0; SysClose 0]%nat.
Proof.
  eexists _, _. split; [vm_compute; reflexivity|].
  split_and!; reflexivity.
Qed.

(** * The buffered reader *)

Lemma scan_frame_refl w : scan_frame w w.
Proof. split; [done|apply evolves_refl]. Qed.

Lemma scan_frame_trans w1 w2 w3 :
  scan_frame w1 w2 -> scan_frame w2 w3 -> scan_frame w1 w3.
Proof.
  intros [D1 E1] [D2 E2]. split; [congruence|by eapply evolves_trans].
Qed.

Lemma scan_frame_log w m : scan_frame w (log w m).
Proof. split; [done|apply evolves_log]. Qed.

Lemma scan_frame_move w fd h p ev :
  fds w !! fd = Some h -> is_scan_io ev ->
  scan_frame w (set_fds (emit w ev) (<[fd := mkHandle p (h_closed h)]> (fds w))).
Proof.
  intros Hfd Hev. split; [done|]. evolves_split; try done.
  - exists []. by rewrite app_nil_r.
  - intros fd'. cbn. by apply closed_insert.
  - eexists. split; [reflexivity|]. by repeat constructor.
Qed.

Lemma file_Read_some w fd h n :
  fds w !! fd = Some h -> h_closed h = false -> fail_read (faults w) = None ->
  0 < n -> (0 < length (drop (h_pos h) (disk w)))%nat ->
  file_Read w (Some fd) n =
  (set_fds (emit w (SysRead fd n))
     (<[fd := mkHandle
                (h_pos h + length (take (Z.to_nat (Z.min n
                   (Z.of_nat (length (drop (h_pos h) (disk w))))))
                   (drop (h_pos h) (disk w))))
                (h_closed h)]> (fds w)),
   take (Z.to_nat (Z.min n (Z.of_nat (length (drop (h_pos h) (disk w))))))
     (drop (h_pos h) (disk w)), None).
Proof.
  intros Hfd Hc Hfr Hn Hrest. unfold file_Read, on_file. rewrite Hfd, Hc.
  cbn [faults emit disk fds]. rewrite Hfr.
  destruct (Z.leb_spec n 0); [lia|].
  destruct (Z.leb_spec (Z.min n (Z.of_nat (length (drop (h_pos h) (disk w))))) 0);
    [lia|]. done.
Qed.

Lemma file_Read_eof w fd h n :
  fds w !! fd = Some h -> h_closed h = false -> fail_read (faults w) = None ->
  0 < n -> length (drop (h_pos h) (disk w)) = 0%nat ->
  file_Read w (Some fd) n = (emit w (SysRead fd n), [], Some EOF).
Proof.
  intros Hfd Hc Hfr Hn Hrest. unfold file_Read, on_file. rewrite Hfd, Hc.
  cbn [faults emit disk fds]. rewrite Hfr.
  destruct (Z.leb_spec n 0); [lia|].
  destruct (Z.leb_spec (Z.min n (Z.of_nat (length (drop (h_pos h) (disk w))))) 0);
    [done|lia].
Qed.

Lemma Reader_fill_reading w b fd s :
  reading w b fd s ->
  Z.of_nat (length (rbuf b)) < rsize b -> (length (rbuf b) < length s)%nat ->
  exists w' b',
    Reader_fill w b = (w', b') /\ reading w' b' fd s /\
    Z.of_nat (length (rbuf b')) = Z.min (rsize b) (Z.of_nat (length s)) /\
    rsize b' = rsize b /\ scan_frame w w'.
Proof.
  intros (Hrd & He & Hsz & Hfr & h & Hfd & Hc & Hs) Hroom Hmore.
  assert (Hlen : length s = (length (rbuf b) + length (drop (h_pos h) (disk w)))%nat)
    by (by rewrite <- Hs, length_app).
  unfold Reader_fill. rewrite Hrd.
  rewrite (file_Read_some w fd h) by (done || lia).
  set (rest := drop (h_pos h) (disk w)) in *.
  set (k := Z.to_nat (Z.min (rsize b - Z.of_nat (length (rbuf b)))
                        (Z.of_nat (length rest)))).
  assert (Hk : length (take k rest) = k) by (rewrite length_take; lia).
  eexists _, _. split; [reflexivity|].
  split.
  { split; [done|]. split; [done|]. split; [done|]. split; [done|].
    eexists. cbn [fds set_fds emit disk].
    split; [apply list_lookup_insert_eq; by eapply lookup_lt_Some|].
    split; [done|]. cbn [h_pos rbuf].
    rewrite Hk. rewrite <- Hs, <- app_assoc. f_equal.
    unfold rest. rewrite <- drop_drop. fold rest. apply take_drop. }
  split; [cbn [rbuf]; rewrite length_app, Hk; lia|].
  split; [done|].
  by apply scan_frame_move.
Qed.

Lemma Reader_fill_eof w b fd s :
  reading w b fd s ->
  Z.of_nat (length (rbuf b)) < rsize b -> length (rbuf b) = length s ->
  exists w',
    Reader_fill w b = (w', mkReader (rd b) (rbuf b) (rsize b) (Some EOF)) /\
    scan_frame w w' /\ fds w' = fds w /\ faults w' = faults w.
Proof.
  intros (Hrd & He & Hsz & Hfr & h & Hfd & Hc & Hs) Hroom Hall.
  assert (Hlen : length s = (length (rbuf b) + length (drop (h_pos h) (disk w)))%nat)
    by (by rewrite <- Hs, length_app).
  unfold Reader_fill. rewrite Hrd.
  rewrite (file_Read_eof w fd h) by (done || lia).
  eexists. rewrite app_nil_r. split; [reflexivity|].
  split; [|done]. split; [done|]. apply evolves_emit. done.
Qed.

Lemma Peek_loop_S fuel w b n :
  Reader_Peek_loop (S fuel) w b n =
  if (length (rbuf b) <? n)%nat && (Z.of_nat (length (rbuf b)) <? rsize b)
     && is_nil (rerr b)
  then let '(w, b) := Reader_fill w b in Reader_Peek_loop fuel w b n
  else (w, b).
Proof. done. Qed.

Lemma Peek_loop_enough fuel w b n :
  (n <= length (rbuf b))%nat -> Reader_Peek_loop fuel w b n = (w, b).
Proof.
  intros H. destruct fuel; cbn [Reader_Peek_loop]; [done|].
  destruct (Nat.ltb_spec (length (rbuf b)) n); [lia|done].
Qed.

Lemma Peek_loop_failed fuel w b n e :
  rerr b = Some e -> Reader_Peek_loop fuel w b n = (w, b).
Proof.
  intros H. destruct fuel; cbn [Reader_Peek_loop]; [done|].
  rewrite H. cbn. by rewrite andb_false_r.
Qed.

Lemma reading_live w b fd s :
  reading w b fd s -> live w (Some fd).
Proof. intros (_ & _ & _ & _ & h & Hfd & Hc & _). by exists fd, h. Qed.

Lemma Reader_Peek_ok w b fd s :
  reading w b fd s -> (indexSize <= length s)%nat ->
  exists w' b',
    Reader_Peek w b indexSize = (w', b', take indexSize s, None) /\
    reading w' b' fd s /\ (indexSize <= length (rbuf b'))%nat /\
    rsize b' = rsize b /\ scan_frame w w'.
Proof.
  change indexSize with 16%nat. intros Hr Hs.
  pose proof Hr as (Hrd & He & Hsz & Hfr & h & Hfd & Hc & Hstream).
  assert (Hfinish : forall w' (b' : Reader),
    reading w' b' fd s -> (16 <= length (rbuf b'))%nat ->
    (if rsize b' <? Z.of_nat 16 then (w', b', rbuf b', Some ErrBufferFull)
     else if (length (rbuf b') <? 16)%nat
          then (w', mkReader (rd b') (rbuf b') (rsize b') None, rbuf b',
                Some match rerr b' with Some e => e | None => ErrBufferFull end)
          else (w', b', take 16 (rbuf b'), None)) =
    (w', b', take 16 s, None)).
  { intros w' b' (_ & _ & Hsz' & _ & h' & _ & _ & Hs') Hl.
    destruct (Z.ltb_spec (rsize b') (Z.of_nat 16)); [lia|].
    destruct (Nat.ltb_spec (length (rbuf b')) 16); [lia|].
    by rewrite <- Hs', take_app_le. }
  unfold Reader_Peek. rewrite Peek_loop_S.
  destruct (Nat.ltb_spec (length (rbuf b)) 16) as [Hlt|Hge].
  - destruct (Z.ltb_spec (Z.of_nat (length (rbuf b))) (rsize b)); [|lia].
    rewrite He. cbn [is_nil andb].
    destruct (Reader_fill_reading w b fd s Hr) as (w' & b' & -> & Hr' & Hl & Hsz' & Hfrm);
      [lia|lia|].
    cbv beta iota zeta. rewrite Peek_loop_enough by lia.
    exists w', b'. rewrite Hfinish by (done || lia).
    split_and!; try done. lia.
  - cbn [andb]. exists w, b. rewrite Hfinish by done.
    split_and!; try done. apply scan_frame_refl.
Qed.

Lemma Reader_Peek_short w b fd s :
  reading w b fd s -> (length s < indexSize)%nat ->
  exists w' b' data,
    Reader_Peek w b indexSize = (w', b', data, Some EOF) /\ scan_frame w w'.
Proof.
  change indexSize with 16%nat. intros Hr Hs.
  pose proof Hr as (Hrd & He & Hsz & Hfr & h & Hfd & Hc & Hstream).
  assert (Hle : (length (rbuf b) <= length s)%nat)
    by (rewrite <- Hstream, length_app; lia).
  assert (Hfinish : forall (w' : World) (b' : Reader),
    (length (rbuf b') < 16)%nat -> 16 <= rsize b' -> rerr b' = Some EOF ->
    exists (b'' : Reader) (data : list byte),
      (if rsize b' <? Z.of_nat 16 then (w', b', rbuf b', Some ErrBufferFull)
       else if (length (rbuf b') <? 16)%nat
            then (w', mkReader (rd b') (rbuf b') (rsize b') None, rbuf b',
                  Some match rerr b' with Some e => e | None => ErrBufferFull end)
            else (w', b', take 16 (rbuf b'), None)) =
      (w', b'', data, Some EOF)).
  { intros w' b' Hl Hsz' He'.
    destruct (Z.ltb_spec (rsize b') (Z.of_nat 16)); [lia|].
    destruct (Nat.ltb_spec (length (rbuf b')) 16); [|lia].
    rewrite He'. by eexists _, _. }
  unfold Reader_Peek. rewrite Peek_loop_S.
  destruct (Nat.ltb_spec (length (rbuf b)) 16) as [Hlt|Hge]; [|lia].
  destruct (Z.ltb_spec (Z.of_nat (length (rbuf b))) (rsize b)); [|lia].
  rewrite He. cbn [is_nil andb].
  destruct (decide (length (rbuf b) = length s)) as [Hall|Hmore].
  - destruct (Reader_fill_eof w b fd s Hr) as (w' & -> & Hfrm & _); [lia|done|].
    cbv beta iota zeta. rewrite (Peek_loop_failed _ _ _ _ EOF) by done.
    destruct (Hfinish w' (mkReader (rd b) (rbuf b) (rsize b) (Some EOF)))
      as (b'' & data & ->); [done|done|done|].
    by exists w', b'', data.
  - destruct (Reader_fill_reading w b fd s Hr) as (w1 & b1 & -> & Hr1 & Hl1 & Hsz1 & Hfrm1);
      [lia|lia|].
    pose proof Hr1 as (Hrd1 & He1 & _).
    cbv beta iota zeta. rewrite Peek_loop_S.
    destruct (Nat.ltb_spec (length (rbuf b1)) 16); [|lia].
    destruct (Z.ltb_spec (Z.of_nat (length (rbuf b1))) (rsize b1)); [|lia].
    rewrite He1. cbn [is_nil andb].
    destruct (Reader_fill_eof w1 b1 fd s Hr1) as (w' & -> & Hfrm & _); [lia|lia|].
    cbv beta iota zeta. rewrite (Peek_loop_failed _ _ _ _ EOF) by done.
    destruct (Hfinish w' (mkReader (rd b1) (rbuf b1) (rsize b1) (Some EOF)))
      as (b'' & data & ->); [done|cbn; lia|done|].
    exists w', b'', data. split; [done|]. by eapply scan_frame_trans.
Qed.

Lemma Discard_loop_S fuel w b remain :
  Reader_Discard_loop (S fuel) w b remain =
  let '(w, b) := if (length (rbuf b) =? 0)%nat then Reader_fill w b else (w, b) in
  let skip := Nat.min (length (rbuf b)) remain in
  let b := mkReader (rd b) (drop skip (rbuf b)) (rsize b) (rerr b) in
  let remain := (remain - skip)%nat in
  if (remain =? 0)%nat then (w, b, None)
  else match rerr b with
       | Some e => (w, mkReader (rd b) (rbuf b) (rsize b) None, Some e)
       | None => Reader_Discard_loop fuel w b remain
       end.
Proof. done. Qed.

Lemma Reader_Discard_ok w b fd s :
  reading w b fd s -> (indexSize <= length (rbuf b))%nat ->
  exists b',
    Reader_Discard w b indexSize = (w, b', None) /\
    reading w b' fd (drop indexSize s) /\ rsize b' = rsize b.
Proof.
  change indexSize with 16%nat. intros (Hrd & He & Hsz & Hfr & h & Hfd & Hc & Hs) Hl.
  unfold Reader_Discard. cbn [Nat.eqb]. rewrite Discard_loop_S.
  destruct (Nat.eqb_spec (length (rbuf b)) 0); [lia|].
  cbv zeta. rewrite Nat.min_r by lia. rewrite Nat.sub_diag.
  cbn [Nat.eqb rd rbuf rsize rerr].
  eexists. split; [reflexivity|]. split; [|done].
  split; [done|]. split; [done|]. split; [done|]. split; [done|].
  exists h. split; [done|]. split; [done|]. cbn [rbuf].
  rewrite <- Hs. by rewrite drop_app_le.
Qed.

(** * Scan *)

Section ScanLemmas.

Variable NeedleMaxSize : Z.
Context {S : Type}.
Variable fn : S -> Index -> S * option error.

Lemma Scan_loop_S fuel w b st :
  Scan_loop NeedleMaxSize fn (Datatypes.S fuel) w b st =
  let '(w, b, data, err) := Reader_Peek w b indexSize in
  match err with
  | Some e => (w, b, st, Some e)
  | None =>
      let ix := parse data in
      if (Size ix >? NeedleMaxSize) || (Size ix <? 1)
      then (log w (LogParseSize (Size ix)), b, st, Some ErrIndexSize)
      else
        let '(w, b, err) := Reader_Discard w b indexSize in
        match err with
        | Some e => (w, b, st, Some e)
        | None =>
            let '(st, err) := fn st ix in
            match err with
            | Some e => (w, b, st, Some e)
            | None => Scan_loop NeedleMaxSize fn fuel w b st
            end
        end
  end.
Proof. done. Qed.

Lemma valid_size_check ix :
  valid_size NeedleMaxSize ix ->
  (Size ix >? NeedleMaxSize) || (Size ix <? 1) = false.
Proof.
  unfold valid_size. intros H. rewrite Z.gtb_ltb.
  apply orb_false_iff. split; apply Z.ltb_ge; lia.
Qed.

Lemma invalid_size_check ix :
  Size ix < 1 \/ Size ix > NeedleMaxSize ->
  (Size ix >? NeedleMaxSize) || (Size ix <? 1) = true.
Proof.
  intros H. rewrite Z.gtb_ltb. apply orb_true_iff. rewrite !Z.ltb_lt. lia.
Qed.

(** The loop takes the complete valid records one by one. *)
Lemma Scan_loop_chunks chunks : forall fuel w b st fd rest,
  reading w b fd (concat chunks ++ rest) ->
  Forall (valid_chunk NeedleMaxSize) chunks ->
  accepted fn st (map parse chunks) ->
  exists w' b',
    Scan_loop NeedleMaxSize fn (length chunks + fuel) w b st =
    Scan_loop NeedleMaxSize fn fuel w' b' (deliver fn st (map parse chunks)) /\
    reading w' b' fd rest /\ scan_frame w w'.
Proof.
  induction chunks as [|c chunks IH]; intros fuel w b st fd rest Hr Hv Ha.
  { exists w, b. split; [done|]. split; [done|apply scan_frame_refl]. }
  apply Forall_cons in Hv. destruct Hv as [[Hlen Hsize] Hv].
  cbn [map accepted] in Ha. destruct Ha as [Hacc Ha].
  cbn [concat] in Hr. rewrite <- app_assoc in Hr.
  cbn [length Nat.add]. rewrite Scan_loop_S.
  destruct (Reader_Peek_ok w b fd _ Hr) as (w1 & b1 & -> & Hr1 & Hl1 & Hsz1 & Hf1).
  { rewrite length_app. lia. }
  rewrite take_app_length' by done. cbv beta iota zeta.
  rewrite valid_size_check by done.
  destruct (Reader_Discard_ok w1 b1 fd _ Hr1 Hl1) as (b2 & -> & Hr2 & Hsz2).
  rewrite drop_app_length' in Hr2 by done.
  cbv beta iota zeta.
  destruct (fn st (parse c)) as [st1 e1] eqn:Hfn. cbn in Hacc, Ha. subst e1.
  destruct (IH fuel w1 b2 st1 fd rest Hr2 Hv Ha) as (w' & b' & -> & Hr' & Hf').
  exists w', b'. split.
  { unfold deliver. cbn [map fold_left]. by rewrite Hfn. }
  split; [done|]. by eapply scan_frame_trans.
Qed.

(** It stops on a short tail with [io.EOF] ... *)
Lemma Scan_loop_tail fuel w b st fd rest :
  reading w b fd rest -> (length rest < indexSize)%nat ->
  exists w' b',
    Scan_loop NeedleMaxSize fn (Datatypes.S fuel) w b st = (w', b', st, Some EOF) /\
    scan_frame w w'.
Proof.
  intros Hr Hl. rewrite Scan_loop_S.
  destruct (Reader_Peek_short w b fd rest Hr Hl) as (w' & b' & data & -> & Hf).
  by exists w', b'.
Qed.

(** ... and on a record whose size is out of bounds with [ErrIndexSize],
    before the callback sees it. *)
Lemma Scan_loop_bad fuel w b st fd bad rest :
  reading w b fd (bad ++ rest) -> length bad = indexSize ->
  Size (parse bad) < 1 \/ Size (parse bad) > NeedleMaxSize ->
  exists w' b',
    Scan_loop NeedleMaxSize fn (Datatypes.S fuel) w b st =
    (log w' (LogParseSize (Size (parse bad))), b', st, Some ErrIndexSize) /\
    scan_frame w w'.
Proof.
  intros Hr Hl Hbad. rewrite Scan_loop_S.
  destruct (Reader_Peek_ok w b fd _ Hr) as (w1 & b1 & -> & Hr1 & Hl1 & Hsz1 & Hf1).
  { rewrite length_app. lia. }
  rewrite take_app_length' by done. cbv beta iota zeta.
  rewrite invalid_size_check by done. by exists w1, b1.
Qed.

End ScanLemmas.

Lemma file_Seek_live w fd h off :
  fds w !! fd = Some h -> h_closed h = false -> fail_seek (faults w) = None ->
  0 <= off ->
  file_Seek w (Some fd) off =
  (set_fds (emit w (SysSeek fd off))
     (<[fd := mkHandle (Z.to_nat off) (h_closed h)]> (fds w)), None).
Proof.
  intros Hfd Hc Hfs Hoff. unfold file_Seek, on_file. rewrite Hfd, Hc.
  cbn [faults emit]. rewrite Hfs.
  destruct (Z.ltb_spec off 0); [lia|done].
Qed.

Lemma length_concat_chunks NeedleMaxSize chunks :
  Forall (valid_chunk NeedleMaxSize) chunks ->
  length (concat chunks) = (indexSize * length chunks)%nat.
Proof.
  induction 1 as [|c chunks [Hl _] _ IH]; [done|].
  cbn [concat length]. rewrite length_app, IH, Hl. lia.
Qed.

Section ScanTheorems.

Variable NeedleMaxSize : Z.
Context {S : Type}.
Variable fn : S -> Index -> S * option error.

(** After the seek to 0 of [Scan], a fresh reader sees the whole file. *)
Lemma Scan_start w r h :
  fds w !! r = Some h -> h_closed h = false ->
  fail_seek (faults w) = None -> fail_read (faults w) = None ->
  exists w1,
    file_Seek (log w LogScan) (Some r) 0 = (w1, None) /\
    reading w1 (NewReaderSize (Some r) NeedleMaxSize) r (disk w) /\
    scan_frame w w1.
Proof.
  intros Hfd Hc Hfs Hfr.
  rewrite (file_Seek_live (log w LogScan) r h) by done.
  eexists. split; [reflexivity|]. split.
  - split; [done|]. split; [done|]. split; [cbn; lia|]. split; [done|].
    eexists. cbn [fds set_fds emit log].
    split; [apply list_lookup_insert_eq; by eapply lookup_lt_Some|].
    split; [done|]. done.
  - eapply scan_frame_trans; [apply scan_frame_log|].
    by apply scan_frame_move.
Qed.

(** A file of complete valid records and a short tail: every record is
    delivered, in file order, and the scan ends without an error. *)
Lemma Scan_records w i r h st chunks tail :
  fds w !! r = Some h -> h_closed h = false ->
  fail_seek (faults w) = None -> fail_read (faults w) = None ->
  disk w = concat chunks ++ tail ->
  Forall (valid_chunk NeedleMaxSize) chunks ->
  (length tail < indexSize)%nat ->
  accepted fn st (map parse chunks) ->
  exists w',
    Scan NeedleMaxSize fn w i (Some r) st =
      (w', i, deliver fn st (map parse chunks), None) /\
    scan_frame w w'.
Proof.
  intros Hfd Hc Hfs Hfr Hdisk Hv Htail Hacc. unfold Scan.
  destruct (Scan_start w r h Hfd Hc Hfs Hfr) as (w1 & -> & Hr & Hf1).
  assert (Hd1 : disk w1 = disk w) by apply Hf1.
  assert (Hn : (length chunks <= length (disk w1))%nat).
  { rewrite Hd1, Hdisk, length_app, (length_concat_chunks NeedleMaxSize) by done.
    unfold indexSize. cbn. lia. }
  replace (Datatypes.S (length (disk w1))) with
    (length chunks + Datatypes.S (length (disk w1) - length chunks))%nat by lia.
  rewrite Hdisk in Hr.
  destruct (Scan_loop_chunks NeedleMaxSize fn chunks
              (Datatypes.S (length (disk w1) - length chunks)) w1 _ st r tail Hr Hv Hacc)
    as (w2 & b2 & -> & Hr2 & Hf2).
  destruct (Scan_loop_tail NeedleMaxSize fn (length (disk w1) - length chunks)
              w2 b2 (deliver fn st (map parse chunks)) r tail Hr2 Htail)
    as (w3 & b3 & -> & Hf3).
  eexists. split; [reflexivity|].
  eapply scan_frame_trans; [exact Hf1|]. eapply scan_frame_trans; [exact Hf2|].
  eapply scan_frame_trans; [exact Hf3|]. apply scan_frame_log.
Qed.

(** A record with a size out of bounds after [chunks]: the scan returns
    [ErrIndexSize] and the callback has seen [chunks] only. *)
Lemma Scan_rejects w i r h st chunks bad rest :
  fds w !! r = Some h -> h_closed h = false ->
  fail_seek (faults w) = None -> fail_read (faults w) = None ->
  disk w = concat chunks ++ bad ++ rest ->
  Forall (valid_chunk NeedleMaxSize) chunks ->
  length bad = indexSize ->
  Size (parse bad) < 1 \/ Size (parse bad) > NeedleMaxSize ->
  accepted fn st (map parse chunks) ->
  exists w',
    Scan NeedleMaxSize fn w i (Some r) st =
      (w', i, deliver fn st (map parse chunks), Some ErrIndexSize) /\
    scan_frame w w' /\
    In (LogParseSize (Size (parse bad))) (glog w') /\
    In (LogScanFailed ErrIndexSize) (glog w').
Proof.
  intros Hfd Hc Hfs Hfr Hdisk Hv Hlen Hbad Hacc. unfold Scan.
  destruct (Scan_start w r h Hfd Hc Hfs Hfr) as (w1 & -> & Hr & Hf1).
  assert (Hd1 : disk w1 = disk w) by apply Hf1.
  assert (Hn : (length chunks <= length (disk w1))%nat).
  { rewrite Hd1, Hdisk, length_app, (length_concat_chunks NeedleMaxSize) by done.
    unfold indexSize. cbn. lia. }
  replace (Datatypes.S (length (disk w1))) with
    (length chunks + Datatypes.S (length (disk w1) - length chunks))%nat by lia.
  rewrite Hdisk in Hr.
  destruct (Scan_loop_chunks NeedleMaxSize fn chunks
              (Datatypes.S (length (disk w1) - length chunks)) w1 _ st r (bad ++ rest)
              Hr Hv Hacc) as (w2 & b2 & -> & Hr2 & Hf2).
  destruct (Scan_loop_bad NeedleMaxSize fn (length (disk w1) - length chunks)
              w2 b2 (deliver fn st (map parse chunks)) r bad rest Hr2 Hlen Hbad)
    as (w3 & b3 & -> & Hf3).
  eexists. split; [reflexivity|]. split.
  { eapply scan_frame_trans; [exact Hf1|]. eapply scan_frame_trans; [exact Hf2|].
    eapply scan_frame_trans; [exact Hf3|].
    eapply scan_frame_trans; apply scan_frame_log. }
  cbn [glog log]. split.
  - apply in_or_app. left. apply in_or_app. right. by left.
  - apply in_or_app. right. by left.
Qed.

End ScanTheorems.

(** * Recovery *)

Lemma deliver_collect st ixs : deliver collect st ixs = st ++ ixs.
Proof.
  revert st. induction ixs as [|ix ixs IH]; intros st; cbn.
  - by rewrite app_nil_r.
  - unfold deliver in IH. rewrite IH. by rewrite <- app_assoc.
Qed.

Lemma accepted_always {S : Type} (fn : S -> Index -> S * option error) st ixs :
  (forall st ix, snd (fn st ix) = None) -> accepted fn st ixs.
Proof. intros H. revert st. induction ixs; intros st; cbn; [done|]. by split. Qed.

Lemma accepted_Recovery_fn {S : Type} (fn : S -> Index -> S * option error)
    offset st ixs :
  accepted fn st ixs -> accepted (Recovery_fn fn) (offset, st) ixs.
Proof.
  revert offset st. induction ixs as [|ix ixs IH]; intros offset st; cbn; [done|].
  destruct (fn st ix) as [st1 e1]. cbn. intros [-> H]. split; [done|]. by apply IH.
Qed.

Lemma deliver_Recovery_fn {S : Type} (fn : S -> Index -> S * option error)
    offset st ixs :
  deliver (Recovery_fn fn) (offset, st) ixs =
  (offset + Z.of_nat (indexSize * length ixs), deliver fn st ixs).
Proof.
  unfold deliver. revert offset st.
  induction ixs as [|ix ixs IH]; intros offset st; cbn [fold_left length].
  - f_equal. lia.
  - cbn [Recovery_fn]. destruct (fn st ix) as [st1 e1]. cbn [fst].
    rewrite IH. f_equal. lia.
Qed.

(** What [Recovery] does with the outcome of its scan: nothing. *)
Lemma Recovery_after_Scan NeedleMaxSize {S : Type}
    (fn : S -> Index -> S * option error) w i st w1 ixs err fd h :
  Scan NeedleMaxSize (Recovery_fn fn) w i (f i) (0, st) =
    (w1, i, deliver (Recovery_fn fn) (0, st) ixs, err) ->
  f i = Some fd -> fds w1 !! fd = Some h -> h_closed h = false ->
  fail_seek (faults w1) = None ->
  exists w2,
    Recovery NeedleMaxSize fn w i st = (w2, i, deliver fn st ixs, None) /\
    position w2 (f i) = Some (indexSize * length ixs)%nat /\ disk w2 = disk w1.
Proof.
  intros HS Hf Hfd Hc Hfs. unfold Recovery. rewrite HS.
  rewrite deliver_Recovery_fn. rewrite Hf.
  rewrite (file_Seek_live w1 fd h) by (done || lia).
  eexists. split; [reflexivity|]. cbn.
  rewrite list_lookup_insert_eq by (by eapply lookup_lt_Some). cbn.
  split; [|done]. f_equal. lia.
Qed.

(** C3. Crash-tail tolerance: on a file of N complete valid records followed
    by fewer than 16 bytes, with a callback that never fails, [Scan] returns
    nil having delivered exactly the N records, in order, and [Recovery]
    returns nil with the file's offset at exactly 16 * N. *)
Theorem crash_tail_tolerance NeedleMaxSize {S : Type}
    (fn : S -> Index -> S * option error) w i fd h st chunks tail :
  f i = Some fd -> fds w !! fd = Some h -> h_closed h = false ->
  fail_seek (faults w) = None -> fail_read (faults w) = None ->
  disk w = concat chunks ++ tail ->
  Forall (valid_chunk NeedleMaxSize) chunks ->
  (length tail < 16)%nat ->
  (forall st ix, snd (fn st ix) = None) ->
  (exists w1,
      Scan NeedleMaxSize fn w i (f i) st =
        (w1, i, deliver fn st (map parse chunks), None)) /\
  (exists w1,
      Scan NeedleMaxSize collect w i (f i) [] = (w1, i, map parse chunks, None)) /\
  (exists w2,
      Recovery NeedleMaxSize fn w i st =
        (w2, i, deliver fn st (map parse chunks), None) /\
      position w2 (f i) = Some (16 * length chunks)%nat /\
      disk w2 = disk w).
Proof.
  intros Hf Hfd Hc Hfs Hfr Hdisk Hv Htail Hfn. rewrite Hf.
  split; [|split].
  - destruct (Scan_records NeedleMaxSize fn w i fd h st chunks tail) as (w1 & HS & _);
      try done; [by apply accepted_always|]. by exists w1.
  - destruct (Scan_records NeedleMaxSize collect w i fd h [] chunks tail)
      as (w1 & HS & _); try done; [by apply accepted_always|].
    rewrite deliver_collect in HS. by exists w1.
  - destruct (Scan_records NeedleMaxSize (Recovery_fn fn) w i fd h (0, st) chunks tail)
      as (w1 & HS & Hd & E); try done.
    { apply accepted_Recovery_fn. by apply accepted_always. }
    destruct (evolves_live _ w w1 fd h E Hfd Hc) as (h1 & Hfd1 & Hc1).
    rewrite <- Hf in HS.
    destruct (Recovery_after_Scan NeedleMaxSize fn w i st w1 (map parse chunks) None
                fd h1 HS Hf Hfd1 Hc1) as (w2 & HR & Hp & Hd2).
    { destruct E as (F & _). congruence. }
    exists w2. rewrite length_map in Hp. rewrite Hf in Hp.
    split; [done|]. split; [done|congruence].
Qed.

Lemma crash_tail_tolerance_witness :
  (exists w1,
      Scan MiB collect world_tail indexer0 (f indexer0) [] =
        (w1, indexer0, [mkIndex 1 0 100; mkIndex 2 128 200], None)) /\
  (exists w2,
      Recovery MiB collect world_tail indexer0 [] =
        (w2, indexer0, [mkIndex 1 0 100; mkIndex 2 128 200], None) /\
      position w2 (f indexer0) = Some 32%nat /\
      disk w2 = disk world_tail).
Proof.
  destruct (crash_tail_tolerance MiB collect world_tail indexer0 0%nat
              (mkHandle 0 false) []
              [index_bytes 1 0 100; index_bytes 2 128 200]
              [x00; x00; x00; x00; x03]) as (H1 & _ & H3).
  - reflexivity.
  - reflexivity.
  - reflexivity.
  - reflexivity.
  - reflexivity.
  - reflexivity.
  - repeat constructor; vm_compute; discriminate.
  - simpl. lia.
  - reflexivity.
  - split; [exact H1|exact H3].
Defined.

(** C4. Boundary rejection: when the scan reaches a record whose decoded
    size is below 1 (zero or negative) or above [NeedleMaxSize], it returns
    [ErrIndexSize]; the callback has been handed the records before it and
    nothing else; the instance, its [LastErr] included, is what it was, so a
    later [Add] does what it would have done, and the file and the fault plan
    a later scan depends on are untouched. *)
Theorem boundary_rejection NeedleMaxSize {S : Type}
    (fn : S -> Index -> S * option error) w i r h st chunks bad rest :
  fds w !! r = Some h -> h_closed h = false ->
  fail_seek (faults w) = None -> fail_read (faults w) = None ->
  disk w = concat chunks ++ bad ++ rest ->
  Forall (valid_chunk NeedleMaxSize) chunks ->
  length bad = 16%nat ->
  Size (parse bad) < 1 \/ Size (parse bad) > NeedleMaxSize ->
  accepted fn st (map parse chunks) ->
  exists w' i',
    Scan NeedleMaxSize fn w i (Some r) st =
      (w', i', deliver fn st (map parse chunks), Some ErrIndexSize) /\
    i' = i /\ LastErr i' = LastErr i /\
    (exists w'',
        Scan NeedleMaxSize collect w i (Some r) [] =
          (w'', i, map parse chunks, Some ErrIndexSize)) /\
    disk w' = disk w /\ faults w' = faults w /\ live w' (Some r) /\
    (forall key offset size, Add w' i' key offset size = Add w i key offset size).
Proof.
  intros Hfd Hc Hfs Hfr Hdisk Hv Hlen Hbad Hacc.
  destruct (Scan_rejects NeedleMaxSize fn w i r h st chunks bad rest)
    as (w' & HS & [Hd E] & _); try done.
  destruct (Scan_rejects NeedleMaxSize collect w i r h [] chunks bad rest)
    as (w'' & HS' & _); try done.
  { apply accepted_always. done. }
  rewrite deliver_collect in HS'.
  destruct (evolves_live _ w w' r h E Hfd Hc) as (h' & Hfd' & Hc').
  destruct E as (F & C & _).
  exists w', i. split_and!; try done.
  - by exists w''.
  - by exists r, h'.
  - intros key offset size. unfold Add. by rewrite C.
Qed.

Lemma boundary_rejection_witness :
  exists w',
    Scan MiB collect world_zero indexer0 (Some 0%nat) [] =
      (w', indexer0, [mkIndex 1 0 100], Some ErrIndexSize) /\
    LastErr indexer0 = None /\ disk w' = disk world_zero.
Proof.
  destruct (boundary_rejection MiB collect world_zero indexer0 0%nat
              (mkHandle 0 false) []
              [index_bytes 1 0 100] (index_bytes 2 128 0) (index_bytes 3 256 300))
    as (w' & i' & HS & -> & HL & _ & Hd & _).
  - reflexivity.
  - reflexivity.
  - reflexivity.
  - reflexivity.
  - reflexivity.
  - repeat constructor; vm_compute; discriminate.
  - reflexivity.
  - left. vm_compute. reflexivity.
  - simpl. auto.
  - exists w'. split; [exact HS|]. split; [reflexivity|exact Hd].
Defined.

(** * The dropped result of Scan in Recovery *)

(** Whatever the scan ran into, [Recovery] goes on to its seek and returns
    what the seek returns: on a file with a record out of bounds it reports
    success and leaves the offset behind the records that came before. *)
Lemma Recovery_drops_scan_error NeedleMaxSize {S : Type}
    (fn : S -> Index -> S * option error) w i fd h st chunks bad rest :
  f i = Some fd -> fds w !! fd = Some h -> h_closed h = false ->
  fail_seek (faults w) = None -> fail_read (faults w) = None ->
  disk w = concat chunks ++ bad ++ rest ->
  Forall (valid_chunk NeedleMaxSize) chunks ->
  length bad = 16%nat ->
  Size (parse bad) < 1 \/ Size (parse bad) > NeedleMaxSize ->
  accepted fn st (map parse chunks) ->
  (exists w1,
      Scan NeedleMaxSize fn w i (f i) st =
        (w1, i, deliver fn st (map parse chunks), Some ErrIndexSize)) /\
  (exists w2,
      Recovery NeedleMaxSize fn w i st =
        (w2, i, deliver fn st (map parse chunks), None) /\
      position w2 (f i) = Some (16 * length chunks)%nat).
Proof.
  intros Hf Hfd Hc Hfs Hfr Hdisk Hv Hlen Hbad Hacc. split.
  - destruct (Scan_rejects NeedleMaxSize fn w i fd h st chunks bad rest)
      as (w' & HS & _); try done. exists w'. by rewrite Hf.
  - destruct (Scan_rejects NeedleMaxSize (Recovery_fn fn) w i fd h (0, st)
                chunks bad rest) as (w1 & HS & [Hd E] & _); try done.
    { by apply accepted_Recovery_fn. }
    destruct (evolves_live _ w w1 fd h E Hfd Hc) as (h1 & Hfd1 & Hc1).
    rewrite <- Hf in HS.
    destruct (Recovery_after_Scan NeedleMaxSize fn w i st w1 (map parse chunks)
                (Some ErrIndexSize) fd h1 HS Hf Hfd1 Hc1) as (w2 & HR & Hp & _).
    { destruct E as (F & _). congruence. }
    exists w2. rewrite length_map in Hp. done.
Qed.

(** C1, on the code.  The index file holds a valid record, then a record of
    size 0, then a valid record.  [Scan] returns [ErrIndexSize]; [Recovery],
    run on the same file, returns nil, with the write offset after the first
    record. *)
Lemma Recovery_returns_nil_on_bad_size :
  (exists w1,
      Scan MiB collect world_zero indexer0 (f indexer0) [] =
        (w1, indexer0, [mkIndex 1 0 100], Some ErrIndexSize)) /\
  (exists w2,
      Recovery MiB collect world_zero indexer0 [] =
        (w2, indexer0, [mkIndex 1 0 100], None) /\
      position w2 (f indexer0) = Some 16%nat).
Proof.
  split.
  - eexists. vm_compute. reflexivity.
  - eexists. split; vm_compute; reflexivity.
Qed.

(** * Appending through the buffered writer *)

Lemma pwrite_end d p : pwrite d (length d) p = d ++ p.
Proof.
  unfold pwrite. rewrite firstn_all, Nat.sub_diag.
  rewrite drop_ge by lia. cbn. by rewrite app_nil_r.
Qed.

Lemma file_Write_append w fd h p :
  fds w !! fd = Some h -> h_closed h = false -> h_pos h = length (disk w) ->
  fail_write (faults w) = None ->
  file_Write w (Some fd) p =
  (set_fds (set_disk (emit w (SysWrite fd p)) (disk w ++ p))
     (<[fd := mkHandle (length (disk w) + length p) false]> (fds w)),
   length p, None).
Proof.
  intros Hfd Hc Hp Hfw. unfold file_Write, on_file. rewrite Hfd, Hc, Hfw.
  cbn [disk emit fds set_disk]. rewrite Hp, pwrite_end. done.
Qed.

Lemma Writer_Flush_ok w b fd out :
  buffering w b fd out ->
  exists w',
    Writer_Flush w b = (w', mkWriter (wr b) [] (wsize b) None, None) /\
    buffering w' (mkWriter (wr b) [] (wsize b) None) fd out /\
    disk w' = out.
Proof.
  intros (Hwr & He & Hsz & Hlen & Hfw & h & Hfd & Hc & Hp & Hout).
  unfold Writer_Flush. rewrite He.
  destruct (Nat.eqb_spec (length (wbuf b)) 0) as [H0|H0].
  - apply length_zero_iff_nil in H0. exists w.
    assert (Hd : disk w = out) by (by rewrite <- Hout, H0, app_nil_r).
    destruct b as [wr0 buf sz er]. cbn in *. subst. split; [done|].
    split; [|done]. split_and!; try done; try (cbn; lia).
    exists h. by split_and!.
  - rewrite Hwr, (file_Write_append w fd h) by done.
    rewrite Nat.ltb_irrefl. cbn [andb].
    eexists. split; [reflexivity|]. split; [|done].
    split_and!; try done; try (cbn; lia).
    eexists. cbn [fds set_fds disk set_disk emit].
    split; [apply list_lookup_insert_eq; by eapply lookup_lt_Some|].
    split; [done|]. split; [cbn; by rewrite length_app|].
    cbn. by rewrite app_nil_r.
Qed.

(** From an empty buffer the loop of [Write] is over after one round. *)
Lemma Write_loop_empty fuel w b fd out p :
  buffering w b fd out -> wbuf b = [] ->
  exists w' b' p',
    Writer_Write_loop (S (S fuel)) w b p = (w', b', p') /\
    buffering w' (mkWriter (wr b') (wbuf b' ++ p') (wsize b') None) fd (out ++ p) /\
    werr b' = None /\ wsize b' = wsize b /\ wr b' = wr b.
Proof.
  intros Hb Hnil.
  pose proof Hb as (Hwr & He & Hsz & Hlen & Hfw & h & Hfd & Hc & Hp & Hout).
  rewrite Write_loop_S. unfold Available. rewrite Hnil, He. cbn [length is_nil].
  rewrite andb_true_r.
  destruct (Z.ltb_spec (wsize b - Z.of_nat 0) (Z.of_nat (length p))) as [Hbig|Hfit].
  - cbn [Nat.eqb]. rewrite Hwr, (file_Write_append w fd h) by done.
    rewrite drop_all. rewrite Write_loop_S. unfold Available. cbn [wbuf wsize length].
    destruct (Z.ltb_spec (wsize b - Z.of_nat 0) (Z.of_nat 0)); [lia|]. cbn [andb].
    eexists _, _, _. split; [reflexivity|]. cbn [wr wbuf wsize werr].
    split; [|done].
    split_and!; try done; try (cbn; lia).
    eexists. cbn [fds set_fds disk set_disk emit].
    split; [apply list_lookup_insert_eq; by eapply lookup_lt_Some|].
    split; [done|]. split; [cbn; by rewrite length_app|].
    cbn. rewrite <- Hout, Hnil, !app_nil_r. done.
  - exists w, b, p. split; [done|]. split; [|done].
    rewrite Hnil. cbn [app].
    split_and!; try done; try (cbn; lia).
    exists h. split_and!; try done. cbn. rewrite <- Hout, Hnil, app_nil_r. done.
Qed.

Lemma Write_loop_any fuel w b fd out p :
  buffering w b fd out ->
  exists w' b' p',
    Writer_Write_loop (S (S (S fuel))) w b p = (w', b', p') /\
    buffering w' (mkWriter (wr b') (wbuf b' ++ p') (wsize b') None) fd (out ++ p) /\
    werr b' = None /\ wsize b' = wsize b /\ wr b' = wr b.
Proof.
  intros Hb.
  pose proof Hb as (Hwr & He & Hsz & Hlen & Hfw & h & Hfd & Hc & Hp & Hout).
  destruct (Nat.eqb_spec (length (wbuf b)) 0) as [H0|H0].
  { apply length_zero_iff_nil in H0. by apply Write_loop_empty. }
  rewrite Write_loop_S. unfold Available at 1. rewrite He. cbn [is_nil].
  rewrite andb_true_r.
  destruct (Z.ltb_spec (wsize b - Z.of_nat (length (wbuf b))) (Z.of_nat (length p)))
    as [Hbig|Hfit].
  - destruct (Nat.eqb_spec (length (wbuf b)) 0) as [?|_]; [done|].
    cbv zeta. unfold Available.
    set (m := Z.to_nat (Z.min (wsize b - Z.of_nat (length (wbuf b)))
                          (Z.of_nat (length p)))).
    assert (Hm : length (take m p) = m) by (rewrite length_take; lia).
    assert (Hb2 : buffering w (mkWriter (wr b) (wbuf b ++ take m p) (wsize b) None)
                    fd (out ++ take m p)).
    { split_and!; try done. { cbn. rewrite length_app, Hm. lia. }
      exists h. split_and!; try done. cbn. by rewrite <- Hout, <- app_assoc. }
    destruct (Writer_Flush_ok _ _ _ _ Hb2) as (w1 & HF & Hb3 & Hd).
    cbn [wr wsize] in HF, Hb3. rewrite HF.
    destruct (Write_loop_empty fuel w1 _ fd _ (drop m p) Hb3 eq_refl)
      as (w' & b' & p' & -> & Hb' & He' & Hsz' & Hwr').
    exists w', b', p'. split; [done|].
    rewrite <- app_assoc, take_drop in Hb'. done.
  - exists w, b, p. split; [done|]. split; [|done].
    split_and!; try done. { cbn. rewrite length_app. lia. }
    exists h. split_and!; try done. cbn. by rewrite <- Hout, <- app_assoc.
Qed.

Lemma Writer_Write_ok w b fd out p :
  buffering w b fd out ->
  exists w' b',
    Writer_Write w b p = (w', b', None) /\ buffering w' b' fd (out ++ p).
Proof.
  intros Hb. unfold Writer_Write.
  destruct (Write_loop_any 0 w b fd out p Hb) as (w' & b' & p' & -> & Hb' & He' & _).
  rewrite He'. by eexists _, _.
Qed.

Lemma Write_ok w i fd out key offset size :
  appending w i fd out ->
  exists w' b',
    Write w i key offset size = (w', set_bw i b', None) /\
    appending w' (set_bw i b') fd (out ++ index_bytes key offset size).
Proof.
  intros (Hf & HL & Hb). unfold Write. rewrite HL.
  unfold BigEndian_WriteInt64, BigEndian_WriteUint32, BigEndian_WriteInt32,
    BigEndian_Write.
  destruct (Writer_Write_ok w (bw i) fd out (BigEndian.bytes 8 key) Hb)
    as (w1 & b1 & -> & Hb1).
  cbn [set_bw bw].
  destruct (Writer_Write_ok w1 b1 fd _ (BigEndian.bytes 4 offset) Hb1)
    as (w2 & b2 & -> & Hb2).
  cbn [set_bw bw].
  destruct (Writer_Write_ok w2 b2 fd _ (BigEndian.bytes 4 size) Hb2)
    as (w3 & b3 & -> & Hb3).
  cbn [set_bw bw f sigNum signal ring File LastErr signalTime].
  exists w3, b3. split; [done|]. split; [done|]. split; [done|].
  unfold index_bytes. by rewrite !app_assoc in *.
Qed.

Lemma Flush_ok w i fd out :
  appending w i fd out ->
  exists w' b',
    Flush w i = (w', set_bw i b', None) /\
    appending w' (set_bw i b') fd out /\ disk w' = out /\ wbuf b' = [].
Proof.
  intros (Hf & HL & Hb). unfold Flush. rewrite HL.
  assert (Hb0 : buffering (emit w CallFlush) (bw i) fd out) by exact Hb.
  destruct (Writer_Flush_ok _ _ _ _ Hb0) as (w1 & -> & Hb1 & Hd).
  eexists _, _. split; [reflexivity|]. by split_and!.
Qed.

(** * The ring as a queue *)

Lemma ring_mod_distinct n a k z :
  (a <= k < z)%nat -> (z - a < n)%nat -> (k mod n <> z mod n)%nat.
Proof.
  intros Hk Hn Heq.
  pose proof (Nat.div_mod_eq k n) as E1. pose proof (Nat.div_mod_eq z n) as E2.
  rewrite Heq in E1.
  destruct (le_lt_dec (z / n) (k / n)) as [Hq|Hq]; nia.
Qed.

Lemma pending_Get r slot :
  ring_wf r -> Ring_Get r = inl slot ->
  pending r = slot_load r slot :: pending (Ring_GetAdv r) /\
  ring_wf (Ring_GetAdv r) /\
  (wn (Ring_GetAdv r) - rn (Ring_GetAdv r) < wn r - rn r)%nat.
Proof.
  intros (Hd & Hle & Hcap). unfold Ring_Get, Buffered.
  destruct (Z.eqb_spec (Z.of_nat (wn r) - Z.of_nat (rn r)) 0); [done|].
  intros [= <-]. unfold pending. cbn [Ring_GetAdv rn wn num data].
  replace (wn r - rn r)%nat with (S (wn r - S (rn r))) by lia.
  cbn [seq map]. split; [done|]. split; [|lia]. split_and!; cbn; lia.
Qed.

Lemma pending_Get_empty r e :
  ring_wf r -> Ring_Get r = inr e -> pending r = [].
Proof.
  intros (Hd & Hle & Hcap). unfold Ring_Get, Buffered.
  destruct (Z.eqb_spec (Z.of_nat (wn r) - Z.of_nat (rn r)) 0); [|done].
  intros _. unfold pending. by replace (wn r - rn r)%nat with 0%nat by lia.
Qed.

Lemma pending_Set r slot ix :
  ring_wf r -> Ring_Set r = inl slot ->
  pending (Ring_SetAdv (slot_store r slot ix)) = pending r ++ [ix] /\
  ring_wf (Ring_SetAdv (slot_store r slot ix)).
Proof.
  intros (Hd & Hle & Hcap). unfold Ring_Set, Buffered.
  destruct (Z.eqb_spec (Z.of_nat (wn r) - Z.of_nat (rn r)) (Z.of_nat (num r)));
    [done|].
  intros [= <-]. assert (Hlt : (wn r - rn r < num r)%nat) by lia.
  split.
  - unfold pending. cbn [Ring_SetAdv slot_store rn wn num data].
    replace (S (wn r) - rn r)%nat with (S (wn r - rn r)) by lia.
    rewrite seq_S, map_app. cbn [map].
    replace (rn r + (wn r - rn r))%nat with (wn r) by lia.
    f_equal.
    + apply map_ext_in. intros k Hk. apply in_seq in Hk.
      unfold slot_load. cbn [data Ring_SetAdv slot_store].
      rewrite list_lookup_insert_ne; [done|].
      apply not_eq_sym, (ring_mod_distinct _ (rn r)); lia.
    + unfold slot_load. cbn [data Ring_SetAdv slot_store].
      rewrite list_lookup_insert_eq; [done|].
      rewrite Hd. apply Nat.mod_upper_bound. lia.
  - split_and!; cbn; [by rewrite length_insert|lia|lia].
Qed.

Lemma NewRing_wf cap : ring_wf (NewRing cap) /\ pending (NewRing cap) = [].
Proof.
  split; [|done]. split_and!; cbn; [by rewrite length_replicate|lia|lia].
Qed.

(** * A full drain *)

Lemma merge_loop_ok fuel : forall w i fd out,
  appending w i fd out -> ring_wf (ring i) ->
  (wn (ring i) - rn (ring i) < fuel)%nat ->
  exists w' b' r',
    merge_loop fuel w i = (w', set_ring (set_bw i b') r', None) /\
    appending w' (set_ring (set_bw i b') r') fd
      (out ++ encode_all (pending (ring i))) /\
    ring_wf r' /\ pending r' = [].
Proof.
  induction fuel as [|fuel IH]; intros w i fd out Ha Hwf Hfuel; [lia|].
  cbn [merge_loop]. destruct (Ring_Get (ring i)) as [slot|e] eqn:HG.
  - destruct (pending_Get _ _ Hwf HG) as (Hp & Hwf' & Hless).
    destruct (Write_ok w i fd out (Key (slot_load (ring i) slot))
                (Offset (slot_load (ring i) slot)) (Size (slot_load (ring i) slot)) Ha)
      as (w1 & b1 & -> & Ha1).
    destruct (IH w1 (set_ring (set_bw i b1) (Ring_GetAdv (ring (set_bw i b1)))) fd
                (out ++ index_bytes (Key (slot_load (ring i) slot))
                          (Offset (slot_load (ring i) slot))
                          (Size (slot_load (ring i) slot))))
      as (w' & b' & r' & HM & Ha' & Hwf'' & Hp'').
    { exact Ha1. } { exact Hwf'. } { cbn [ring set_ring set_bw] in *. lia. }
    exists w', b', r'. split; [exact HM|]. split; [|done].
    cbn [ring set_ring set_bw] in Ha'. rewrite Hp. unfold encode_all in *.
    cbn [map concat]. rewrite app_assoc. exact Ha'.
  - rewrite (pending_Get_empty _ _ Hwf HG). unfold encode_all. cbn.
    rewrite app_nil_r. exists w, (bw i), (ring i).
    destruct i. cbn in *. split; [done|]. split; [done|]. split; [done|].
    by eapply pending_Get_empty.
Qed.

Lemma appending_emit w i fd out ev :
  appending w i fd out -> appending (emit w ev) i fd out.
Proof. done. Qed.

Lemma merge_ok w i fd out :
  appending w i fd out -> ring_wf (ring i) ->
  exists w' b' r',
    merge w i = (w', set_ring (set_bw i b') r', None) /\
    appending w' (set_ring (set_bw i b') r') fd
      (out ++ encode_all (pending (ring i))) /\
    ring_wf r' /\ pending r' = [].
Proof.
  intros Ha Hwf. unfold merge. apply merge_loop_ok; [done|done|lia].
Qed.

(** * Order preservation *)

Lemma encode_all_app l1 l2 : encode_all (l1 ++ l2) = encode_all l1 ++ encode_all l2.
Proof. unfold encode_all. by rewrite map_app, concat_app. Qed.

Lemma Add_in_flight w i fd sent key offset size i' :
  in_flight w i fd sent ->
  Add w i key offset size = Returns (i', None) ->
  in_flight w i' fd (sent ++ [mkIndex key offset size]).
Proof.
  intros (out & (Hf & HL & Hb) & Hwf & Hout & Hfs & Hfr). unfold Add. rewrite HL.
  match goal with
  | |- match ?x with Returns _ => _ | Panics => _ end = _ -> _ => set (woken := x)
  end.
  assert (Hw : woken = Panics \/
               exists i1, woken = Returns i1 /\ ring i1 = ring i /\ bw i1 = bw i /\
                          f i1 = f i /\ LastErr i1 = LastErr i).
  { unfold woken. destruct (_ || _); [|right; by exists i].
    destruct (chan_try_send _ _); [right|right|by left]; eexists; by split. }
  clearbody woken. destruct Hw as [->|(i1 & -> & Hr & Hbw & Hf1 & HL1)]; [done|].
  destruct (Ring_Set (ring i1)) as [slot|e] eqn:HS; [|done].
  intros [= <-]. rewrite Hr in HS.
  destruct (pending_Set (ring i) slot (mkIndex key offset size) Hwf HS) as (Hp & Hwf').
  exists out. cbn [ring set_ring]. rewrite Hr.
  split; [|split; [done|split; [|done]]].
  - split; [by cbn; congruence|]. split; [by cbn; congruence|]. cbn. by rewrite Hbw.
  - by rewrite Hp, !encode_all_app, app_assoc, Hout.
Qed.

Lemma write_turn_in_flight w i fd sent :
  in_flight w i fd sent ->
  match write_turn w i with
  | Sleeps => True
  | Again w' i' => in_flight w' i' fd sent
  | Leaves _ _ => True
  end.
Proof.
  intros (out & Ha & Hwf & Hout & Hfs & Hfr). unfold write_turn.
  destruct (chan_recv (signal i)) as [v c|]; [|done].
  destruct (negb _); [done|].
  assert (Ha0 : appending w (set_signal i c) fd out) by exact Ha.
  destruct (merge_ok w (set_signal i c) fd out Ha0 Hwf)
    as (w1 & b1 & r1 & HM & Ha1 & Hwf1 & Hp1).
  rewrite HM. apply merge_evolves in HM. destruct HM as ((F1 & _) & _).
  destruct (Flush_ok _ _ _ _ Ha1) as (w2 & b2 & HF & Ha2 & Hd2 & Hb2).
  rewrite HF. apply Flush_evolves in HF. destruct HF as ((F2 & _) & _).
  exists (out ++ encode_all (pending (ring i))).
  split; [exact Ha2|]. split; [exact Hwf1|].
  cbn [ring set_ring set_bw]. rewrite Hp1. unfold encode_all at 2. cbn.
  rewrite app_nil_r. cbn in F1, F2.
  split; [exact Hout|]. split; congruence.
Qed.

Lemma run_in_flight acts : forall w i fd sent w' i',
  in_flight w i fd sent ->
  run acts w i = Some (w', i') ->
  in_flight w' i' fd (sent ++ submitted acts).
Proof.
  induction acts as [|a acts IH]; intros w i fd sent w' i' Hin; cbn [run submitted].
  - intros [= <- <-]. by rewrite app_nil_r.
  - destruct a as [key offset size| |d].
    + destruct (Add w i key offset size) as [[i1 [e|]]|] eqn:HA; try done.
      intros HR. apply (Add_in_flight _ _ _ _ _ _ _ _ Hin) in HA.
      apply (IH _ _ _ _ _ _ HA) in HR. by rewrite <- app_assoc in HR.
    + pose proof (write_turn_in_flight w i fd sent Hin) as Ht.
      destruct (write_turn w i) as [|w1 i1|w1 i1]; [by apply IH|by apply IH|done].
    + apply IH. exact Hin.
Qed.

Lemma NewIndexer_in_flight NeedleMaxSize w file cap w' i :
  disk w = [] -> fail_write (faults w) = None ->
  fail_seek (faults w) = None -> fail_read (faults w) = None ->
  NewIndexer NeedleMaxSize w file cap = (w', inl i) ->
  in_flight w' i (length (fds w)) [].
Proof.
  intros Hd Hfw Hfs Hfr. unfold NewIndexer, os_OpenFile.
  destruct (fail_open (faults w)); [done|].
  destruct (file_Stat _ _) as [size [e|]]; [done|].
  destruct (if size =? 0 then _ else _); [done|].
  intros [= <- <-]. exists []. cbn.
  split; [|split; [apply NewRing_wf|done]].
  split; [done|]. split; [done|].
  split_and!; try done.
  - cbn. destruct (Z.leb_spec NeedleMaxSize 0); lia.
  - cbn. destruct (Z.leb_spec NeedleMaxSize 0); lia.
  - exists (mkHandle 0 false). cbn.
    rewrite lookup_app_r, Nat.sub_diag by done. rewrite Hd. done.
Qed.

Lemma valid_chunks_of NeedleMaxSize ixs :
  Forall typed ixs -> Forall (valid_size NeedleMaxSize) ixs ->
  Forall (valid_chunk NeedleMaxSize)
    (map (fun ix => index_bytes (Key ix) (Offset ix) (Size ix)) ixs) /\
  map parse (map (fun ix => index_bytes (Key ix) (Offset ix) (Size ix)) ixs) = ixs.
Proof.
  induction ixs as [|ix ixs IH]; intros Ht Hv; [done|].
  apply Forall_cons in Ht. destruct Ht as [(Hk & Ho & Hs) Ht].
  apply Forall_cons in Hv. destruct Hv as [Hv1 Hv].
  destruct (IH Ht Hv) as [IH1 IH2].
  assert (Hp : parse (index_bytes (Key ix) (Offset ix) (Size ix)) = ix).
  { rewrite <- (app_nil_r (index_bytes _ _ _)). rewrite parse_index_bytes by done.
    by destruct ix. }
  split.
  - cbn [map]. constructor; [|done]. split; [apply length_index_bytes|].
    by rewrite Hp.
  - cbn [map]. by rewrite Hp, IH2.
Qed.

(** C7. Order preservation: on a new index file and a device without faults,
    after any schedule of successful [Add]s (records of valid size),
    interleaved with turns of the loop and the passing of time, a full drain
    ([merge]) and a [Flush] leave in the file the submitted records, in
    submission order, and [Scan] hands exactly that sequence to its
    callback. *)
Theorem order_preservation NeedleMaxSize w0 file cap w1 i1 acts w2 i2 :
  disk w0 = [] -> fail_write (faults w0) = None ->
  fail_seek (faults w0) = None -> fail_read (faults w0) = None ->
  NewIndexer NeedleMaxSize w0 file cap = (w1, inl i1) ->
  run acts w1 i1 = Some (w2, i2) ->
  Forall typed (submitted acts) ->
  Forall (valid_size NeedleMaxSize) (submitted acts) ->
  exists w3 i3 w4 i4 w5,
    merge w2 i2 = (w3, i3, None) /\
    Flush w3 i3 = (w4, i4, None) /\
    disk w4 = encode_all (submitted acts) /\
    Scan NeedleMaxSize collect w4 i4 (f i4) [] = (w5, i4, submitted acts, None).
Proof.
  intros Hd Hfw Hfs Hfr HN HR Ht Hv.
  pose proof (NewIndexer_in_flight _ _ _ _ _ _ Hd Hfw Hfs Hfr HN) as H1.
  pose proof (run_in_flight _ _ _ _ _ _ _ H1 HR) as H2. cbn [app] in H2.
  destruct H2 as (out & Ha & Hwf & Hout & Hfs2 & Hfr2).
  destruct (merge_ok w2 i2 _ out Ha Hwf) as (w3 & b3 & r3 & HM & Ha3 & Hwf3 & Hp3).
  destruct (Flush_ok _ _ _ _ Ha3) as (w4 & b4 & HF & Ha4 & Hd4 & Hb4).
  eexists w3, _, w4, _. 
  pose proof (merge_evolves _ _ _ _ _ HM) as ((F3 & _) & _).
  pose proof (Flush_evolves _ _ _ _ _ HF) as ((F4 & _) & _).
  cbn in F3, F4.
  destruct Ha4 as (Hf4 & HL4 & (_ & _ & _ & _ & _ & h4 & Hfd4 & Hc4 & _)).
  destruct (valid_chunks_of NeedleMaxSize (submitted acts) Ht Hv) as [Hvc Hparse].
  destruct (Scan_records NeedleMaxSize collect w4
              (set_bw (set_ring (set_bw i2 b3) r3) b4)
              (length (fds w0)) h4 []
              (map (fun ix => index_bytes (Key ix) (Offset ix) (Size ix))
                 (submitted acts)) [])
    as (w5 & HS & _); try done.
  - congruence.
  - congruence.
  - rewrite Hd4, Hout, app_nil_r. done.
  - cbn. lia.
  - apply accepted_always. done.
  - exists w5. split; [exact HM|]. split; [exact HF|].
    split; [by rewrite Hd4, Hout|].
    rewrite Hf4. rewrite deliver_collect, Hparse in HS. exact HS.
Qed.

Lemma order_preservation_witness :
  exists w3 i3 w4 i4 w5,
    merge (fst (default (world1, indexer0) (run scenario world1 indexer0)))
          (snd (default (world1, indexer0) (run scenario world1 indexer0))) =
      (w3, i3, None) /\
    Flush w3 i3 = (w4, i4, None) /\
    disk w4 = encode_all [mkIndex 1 0 100; mkIndex 2 128 200] /\
    Scan MiB collect w4 i4 (f i4) [] =
      (w5, i4, [mkIndex 1 0 100; mkIndex 2 128 200], None).
Proof.
  destruct (run scenario world1 indexer0) as [[w2 i2]|] eqn:HR;
    [|vm_compute in HR; discriminate].
  apply (order_preservation MiB world0 "index" 4 world1 indexer0 scenario w2 i2).
  - reflexivity.
  - reflexivity.
  - reflexivity.
  - reflexivity.
  - reflexivity.
  - exact HR.
  - cbn [submitted scenario].
    repeat (constructor;
            [unfold typed, in_int64, in_uint32, in_int32; cbn; lia|]).
    constructor.
  - cbn [submitted scenario].
    repeat (constructor; [unfold valid_size, MiB; cbn; lia|]).
    constructor.
Defined.

(** * The loops always come to an end

    The fuel the definitions hand to their loops is never used up: more fuel
    gives the same result. *)

Lemma merge_loop_fuel fuel : forall fuel' w i,
  (rn (ring i) <= wn (ring i))%nat ->
  (wn (ring i) - rn (ring i) < fuel)%nat ->
  (wn (ring i) - rn (ring i) < fuel')%nat ->
  merge_loop fuel w i = merge_loop fuel' w i.
Proof.
  induction fuel as [|fuel IH]; intros fuel' w i Hle Hf Hf'; [lia|].
  destruct fuel' as [|fuel']; [lia|]. cbn [merge_loop].
  destruct (Ring_Get (ring i)) as [slot|e] eqn:HG; [|done].
  destruct (Write w i _ _ _) as [[w1 i1] [e1|]] eqn:HW; [done|].
  apply Write_evolves in HW. destruct HW as (_ & _ & _ & Hr).
  unfold Ring_Get, Buffered in HG.
  destruct (Z.eqb_spec (Z.of_nat (wn (ring i)) - Z.of_nat (rn (ring i))) 0); [done|].
  apply IH; cbn [ring set_ring Ring_GetAdv rn wn]; rewrite Hr; lia.
Qed.

Lemma write_loop_fuel fuel : forall fuel' w i,
  (length (cbuf (signal i)) < fuel)%nat ->
  (length (cbuf (signal i)) < fuel')%nat ->
  write_loop fuel w i = write_loop fuel' w i.
Proof.
  induction fuel as [|fuel IH]; intros fuel' w i Hf Hf'; [lia|].
  destruct fuel' as [|fuel']; [lia|]. cbn [write_loop].
  pose proof (write_turn_evolves w i) as Ht.
  destruct (write_turn w i) as [|w1 i1|w1 i1]; [done| |done].
  destruct Ht as (_ & _ & _ & v & Hb). rewrite Hb in Hf, Hf'. cbn in Hf, Hf'.
  apply IH; lia.
Qed.

(** A run of [write] that is reported asleep does sleep: the channel is
    empty and open. *)
Lemma write_asleep w i w' i' :
  write w i = Asleep w' i' ->
  cbuf (signal i') = [] /\ cclosed (signal i') = false.
Proof.
  unfold write.
  assert (H : forall fuel w i, (length (cbuf (signal i)) < fuel)%nat ->
            write_loop fuel w i = Asleep w' i' ->
            cbuf (signal i') = [] /\ cclosed (signal i') = false).
  { clear. induction fuel as [|fuel IH]; intros w i Hf; [lia|]. cbn [write_loop].
    pose proof (write_turn_evolves w i) as Ht.
    destruct (write_turn w i) as [|w1 i1|w1 i1].
    - by intros [= <- <-].
    - destruct Ht as (_ & _ & _ & v & Hb). rewrite Hb in Hf. cbn in Hf.
      apply IH. lia.
    - by destruct (write_exit w1 i1). }
  apply H. lia.
Qed.

Lemma Reader_fill_unread w b w' b' :
  Reader_fill w b = (w', b') ->
  unread w' b' = unread w b /\ rd b' = rd b /\ rsize b' = rsize b /\
  disk w' = disk w /\
  (0 < rsize b - Z.of_nat (length (rbuf b)) ->
   rerr b' <> None \/ (length (rbuf b) < length (rbuf b'))%nat).
Proof.
  unfold Reader_fill, file_Read, unread, on_file.
  destruct (rd b) as [fd|] eqn:Hrd.
  2:{ intros [= <- <-]. cbn. rewrite ?Hrd, ?app_nil_r. split_and!; try done. by left. }
  destruct (fds w !! fd) as [h|] eqn:Hfd.
  2:{ intros [= <- <-]. cbn. rewrite ?Hrd, ?Hfd, ?app_nil_r. split_and!; try done.
      by left. }
  destruct (h_closed h) eqn:Hc.
  { intros [= <- <-]. cbn. rewrite ?Hrd, ?Hfd, ?app_nil_r. split_and!; try done.
    by left. }
  cbn [faults emit disk fds].
  destruct (fail_read (faults w)).
  { intros [= <- <-]. cbn. rewrite ?Hrd, ?Hfd, ?app_nil_r. split_and!; try done.
    by left. }
  destruct (Z.leb_spec (rsize b - Z.of_nat (length (rbuf b))) 0).
  { intros [= <- <-]. cbn. rewrite ?Hrd, ?Hfd, ?app_nil_r. split_and!; try done. lia. }
  destruct (Z.leb_spec (Z.min (rsize b - Z.of_nat (length (rbuf b)))
                          (Z.of_nat (length (drop (h_pos h) (disk w))))) 0).
  { intros [= <- <-]. cbn. rewrite ?Hrd, ?Hfd, ?app_nil_r. split_and!; try done.
    by left. }
  intros [= <- <-]. cbn [rd rbuf rsize rerr fds set_fds emit disk].
  rewrite ?Hrd, list_lookup_insert_eq by (by eapply lookup_lt_Some).
  cbn [h_pos]. rewrite length_app, length_take, length_drop in *.
  split_and!; try done; [lia|]. intros _. right. lia.
Qed.

Lemma Peek_loop_unread fuel : forall w b n w' b',
  Reader_Peek_loop fuel w b n = (w', b') ->
  unread w' b' = unread w b /\ rd b' = rd b /\ rsize b' = rsize b /\
  disk w' = disk w.
Proof.
  induction fuel as [|fuel IH]; intros w b n w' b'; cbn [Reader_Peek_loop].
  { by intros [= <- <-]. }
  destruct (_ && _); [|by intros [= <- <-]].
  destruct (Reader_fill w b) as [w1 b1] eqn:HF.
  apply Reader_fill_unread in HF. destruct HF as (Hu & Hrd & Hsz & Hd & _).
  intros H. apply IH in H. destruct H as (Hu' & Hrd' & Hsz' & Hd').
  split_and!; congruence.
Qed.

(** Whatever the fuel beyond [n], the filling loop of [Peek] ends because
    its condition fails. *)
Lemma Peek_loop_fuel fuel : forall fuel' w b n,
  (n - length (rbuf b) < fuel)%nat -> (n - length (rbuf b) < fuel')%nat ->
  Reader_Peek_loop fuel w b n = Reader_Peek_loop fuel' w b n.
Proof.
  induction fuel as [|fuel IH]; intros fuel' w b n Hf Hf'; [lia|].
  destruct fuel' as [|fuel']; [lia|]. rewrite !Peek_loop_S.
  destruct (Nat.ltb_spec (length (rbuf b)) n) as [Hlt|]; [|done].
  destruct (Z.ltb_spec (Z.of_nat (length (rbuf b))) (rsize b)) as [Hroom|]; [|done].
  destruct (rerr b) eqn:He; [done|]. cbn [andb is_nil].
  destruct (Reader_fill w b) as [w1 b1] eqn:HF.
  apply Reader_fill_unread in HF. destruct HF as (_ & _ & _ & _ & Hprog).
  destruct Hprog as [Herr|Hmore]; [lia| |].
  - destruct (rerr b1) as [e|] eqn:He1; [|done].
    by rewrite !(Peek_loop_failed _ _ _ _ e).
  - apply IH; lia.
Qed.

Lemma Reader_Peek_unread w b n w' b' data :
  Reader_Peek w b n = (w', b', data, None) ->
  (n <= length (rbuf b'))%nat /\ unread w' b' = unread w b /\ disk w' = disk w.
Proof.
  unfold Reader_Peek.
  destruct (Reader_Peek_loop (S n) w b n) as [w1 b1] eqn:HL.
  apply Peek_loop_unread in HL. destruct HL as (Hu & _ & _ & Hd).
  destruct (rsize b1 <? Z.of_nat n); [done|].
  destruct (Nat.ltb_spec (length (rbuf b1)) n); [done|].
  by intros [= <- <- <-].
Qed.

Lemma Reader_Discard_enough w b :
  (indexSize <= length (rbuf b))%nat ->
  Reader_Discard w b indexSize =
  (w, mkReader (rd b) (drop indexSize (rbuf b)) (rsize b) (rerr b), None).
Proof.
  change indexSize with 16%nat. intros Hl.
  unfold Reader_Discard. cbn [Nat.eqb]. rewrite Discard_loop_S.
  destruct (Nat.eqb_spec (length (rbuf b)) 0); [lia|].
  cbv zeta. rewrite Nat.min_r by lia. rewrite Nat.sub_diag. done.
Qed.

(** The loop of [Scan] is left by a [break], with an error in hand: sixteen
    unread bytes go with every round. *)
Lemma Scan_loop_total NeedleMaxSize {S : Type}
    (fn : S -> Index -> S * option error) fuel : forall w b st,
  (unread w b < indexSize * fuel)%nat ->
  snd (Scan_loop NeedleMaxSize fn fuel w b st) <> None.
Proof.
  induction fuel as [|fuel IH]; intros w b st Hu; [lia|].
  rewrite Scan_loop_S.
  destruct (Reader_Peek w b indexSize) as [[[w1 b1] data] [e|]] eqn:HP; [done|].
  apply Reader_Peek_unread in HP. destruct HP as (Hl & Hu1 & Hd).
  cbv zeta. destruct (_ || _); [done|].
  rewrite Reader_Discard_enough by done.
  destruct (fn st (parse data)) as [st1 [e|]]; [done|].
  apply IH. unfold unread in *. cbn [rbuf rd]. rewrite length_drop. lia.
Qed.

(** In [Scan] the file's length in fuel is more than the loop can use. *)
Lemma Scan_fuel_suffices NeedleMaxSize {S : Type}
    (fn : S -> Index -> S * option error) w1 r st :
  snd (Scan_loop NeedleMaxSize fn (Datatypes.S (length (disk w1))) w1
         (NewReaderSize r NeedleMaxSize) st) <> None.
Proof.
  apply Scan_loop_total.
  unfold unread, NewReaderSize. cbn [rbuf rd length]. unfold indexSize. cbn.
  destruct r as [fd|]; [|lia]. destruct (fds w1 !! fd); lia.
Qed.

Lemma file_Write_full w fp p w' n :
  file_Write w fp p = (w', n, None) -> n = length p.
Proof.
  unfold file_Write. on_file_cases w fp; try done.
  destruct (fail_write (faults w)) as [[k e]|]; [done|]. by intros [= <- <-].
Qed.

Lemma Writer_Flush_shape w b w' b' err :
  Writer_Flush w b = (w', b', err) ->
  wsize b' = wsize b /\ (werr b' <> None \/ wbuf b' = []).
Proof.
  unfold Writer_Flush. destruct (werr b) eqn:He.
  { intros [= <- <- <-]. split; [done|]. left. congruence. }
  destruct (Nat.eqb_spec (length (wbuf b)) 0) as [H0|H0].
  { intros [= <- <- <-]. split; [done|]. right. by apply length_zero_iff_nil. }
  destruct (file_Write w (wr b) (wbuf b)) as [[w1 n1] e1].
  destruct (_ && _); [intros [= <- <- <-]; split; [done|by left]|].
  destruct e1; intros [= <- <- <-]; (split; [done|]); [by left|by right].
Qed.

Lemma Write_loop_stopped fuel w b p e :
  werr b = Some e -> Writer_Write_loop fuel w b p = (w, b, p).
Proof.
  intros He. destruct fuel; [done|]. rewrite Write_loop_S, He. cbn.
  by rewrite andb_false_r.
Qed.

Lemma Write_loop_fuel_empty k k' w b p :
  wbuf b = [] -> 0 <= wsize b ->
  Writer_Write_loop (S (S k)) w b p = Writer_Write_loop (S (S k')) w b p.
Proof.
  intros Hnil Hsz. rewrite !(Write_loop_S (S _)).
  destruct (_ && _); [|done]. rewrite Hnil. cbn [length Nat.eqb].
  destruct (file_Write w (wr b) p) as [[w1 n] [e|]] eqn:HW.
  - by rewrite !(Write_loop_stopped _ _ _ _ e).
  - apply file_Write_full in HW. subst n. rewrite drop_all, !Write_loop_S.
    unfold Available. cbn [wbuf wsize length].
    destruct (Z.ltb_spec (wsize b - Z.of_nat 0) (Z.of_nat 0)); [lia|done].
Qed.

(** Three rounds are all the loop of [bufio.Writer.Write] can take. *)
Lemma Write_loop_fuel k w b p :
  0 <= wsize b ->
  Writer_Write_loop (S (S (S k))) w b p = Writer_Write_loop 3 w b p.
Proof.
  intros Hsz. rewrite !(Write_loop_S (S (S _))).
  destruct (_ && _); [|done].
  destruct (Nat.eqb_spec (length (wbuf b)) 0) as [H0|H0].
  - destruct (file_Write w (wr b) p) as [[w1 n] e].
    apply Write_loop_fuel_empty; [|done]. cbn. by apply length_zero_iff_nil.
  - cbv zeta. destruct (Writer_Flush w _) as [[w1 b1] e1] eqn:HF.
    apply Writer_Flush_shape in HF. destruct HF as (Hsz1 & [He|Hnil]).
    + destruct (werr b1) as [e|] eqn:He1; [|done].
      by rewrite !(Write_loop_stopped _ _ _ _ e).
    + apply Write_loop_fuel_empty; [done|]. cbn in Hsz1. lia.
Qed.

(** And [Discard] needs no more rounds than bytes to skip. *)
Lemma Discard_loop_fuel fuel : forall fuel' w b remain,
  0 < rsize b -> (remain < fuel)%nat -> (remain < fuel')%nat ->
  Reader_Discard_loop fuel w b remain = Reader_Discard_loop fuel' w b remain.
Proof.
  induction fuel as [|fuel IH]; intros fuel' w b remain Hsz Hf Hf'; [lia|].
  destruct fuel' as [|fuel']; [lia|]. rewrite !Discard_loop_S.
  destruct (Nat.eqb_spec (length (rbuf b)) 0) as [H0|H0].
  - destruct (Reader_fill w b) as [w1 b1] eqn:HF.
    apply Reader_fill_unread in HF. destruct HF as (_ & _ & Hsz1 & _ & Hprog).
    cbv zeta. cbn [rd rbuf rsize rerr].
    destruct (Nat.eqb_spec (remain - Nat.min (length (rbuf b1)) remain) 0); [done|].
    destruct (rerr b1) eqn:He; [done|].
    destruct Hprog as [?|Hmore]; [lia|done|].
    apply IH; cbn; lia.
  - cbv zeta. cbn [rd rbuf rsize rerr].
    destruct (Nat.eqb_spec (remain - Nat.min (length (rbuf b)) remain) 0); [done|].
    destruct (rerr b) eqn:He; [done|].
    apply IH; cbn; lia.
Qed.

(** * The scenario of section 8, run *)

(** Thirty seconds to the nanosecond after creation nothing is sent yet; one
    nanosecond later the insert sends the token and notes the time. *)
Example wake_at_thirty_seconds :
  match Add (set_clock world1 30000000000) indexer2 3 256 300 with
  | Returns (i, None) => cbuf (signal i) = [] /\ signalTime i = 0
  | _ => False
  end /\
  match Add (set_clock world1 30000000001) indexer2 3 256 300 with
  | Returns (i, None) => cbuf (signal i) = [indexReady] /\ signalTime i = 30000000001
  | _ => False
  end.
Proof. split; vm_compute; split; reflexivity. Qed.

(** The third insert at occupancy 3 of 4 sends the token; the fifth finds the
    ring full. *)
Example wake_above_half :
  cbuf (signal indexer2) = [] /\ cbuf (signal indexer4) = [indexReady] /\
  Buffered (ring indexer4) = 4 /\ LastErr indexer_err = Some ErrRingFull.
Proof. vm_compute. repeat split; reflexivity. Qed.

(** Draining the two records of the scenario writes 32 bytes. *)
Example scenario_drained :
  match run scenario world1 indexer0 with
  | Some (w, i) =>
      length (disk w) = 32%nat /\
      disk w = index_bytes 1 0 100 ++ index_bytes 2 128 200 /\
      pending (ring i) = [] /\ wbuf (bw i) = []
  | None => False
  end.
Proof. vm_compute. repeat split; reflexivity. Qed.

(** * Further properties of index.go *)

(** ** Close, and Add on a closed instance *)

(** X1. [Close] closes the wake channel once: a second [Close] panics, and
    on the closed instance an [Add] panics exactly when it has no sticky
    fault to return and its wake condition holds (the send of the token is
    a send on a closed channel). *)
Theorem Add_after_Close i i1 :
  Close i = Returns i1 ->
  Close i1 = Panics /\
  forall w key offset size,
    Add w i1 key offset size = Panics <->
    LastErr i = None /\
    (Buffered (ring i) >? sigNum i)
    || (clock w - signalTime i >? indexSignalDuration) = true.
Proof.
  unfold Close, chan_close. destruct (cclosed (signal i)) eqn:Hc; [done|].
  intros [= <-]. split; [done|]. intros w key offset size.
  unfold Add. cbn [LastErr set_signal ring sigNum signalTime signal].
  destruct (LastErr i) as [e|]; [split; [done|by intros [? _]]|].
  destruct (_ || _).
  - unfold chan_try_send. cbn [cclosed]. done.
  - split; [|by intros [_ ?]]. by destruct (Ring_Set _).
Qed.

Lemma Add_after_Close_witness :
  Close indexer2_closed = Panics /\
  Add (set_clock world1 30000000001) indexer2_closed 3 256 300 = Panics /\
  Add world1 indexer2_closed 3 256 300 <> Panics.
Proof.
  destruct (Add_after_Close indexer2 indexer2_closed eq_refl) as [H1 H2].
  split; [exact H1|]. split.
  - apply H2. split; reflexivity.
  - intros H. apply H2 in H. destruct H as [_ H]. vm_compute in H. discriminate.
Defined.

(** ** What the front door never does *)

Lemma do_call_front_door w i c w' i' err :
  do_call w i c = Returns (w', i', err) ->
  evolves front_door_event w w' /\ f i' = f i.
Proof.
  destruct c as [key offset size|key offset size|]; cbn [do_call].
  - destruct (Add w i key offset size) as [[i1 e1]|] eqn:HA; [|done].
    intros [= <- <- <-]. split; [apply evolves_refl|].
    revert HA. unfold Add. destruct (LastErr i); [by intros [= <- <-]|].
    destruct (_ || _); [destruct (chan_try_send _ _)|];
      try done; destruct (Ring_Set _); by intros [= <- <-].
  - intros [= H]. apply Write_evolves in H. destruct H as (E & Hf & _).
    split; [|done]. eapply evolves_weaken; [|exact E]. by intros [].
  - intros [= H]. apply Flush_evolves in H. destruct H as (E & Hf & _).
    split; [|done]. apply (evolves_emit_then _ w CallFlush); [done|].
    eapply evolves_weaken; [|exact E]. by intros [].
Qed.

(** X2. Whatever [Add], [Write] and [Flush] are called with, in whatever
    order and whether they fail or not, they only ever write: the instance
    keeps its file, no descriptor is opened or closed, nothing is synced
    (the durable bytes stay what they were), and the trace grows by writes
    and entries into [Flush] alone - no seek, read, sync or close. *)
Theorem front_door_only_writes w i cs w' i' errs :
  do_calls w i cs = Returns (w', i', errs) ->
  f i' = f i /\ durable w' = durable w /\
  (forall fp, closed w' fp = closed w fp) /\
  length errs = length cs /\
  exists t, trace w' = trace w ++ t /\ Forall front_door_event t.
Proof.
  assert (H : do_calls w i cs = Returns (w', i', errs) ->
              evolves front_door_event w w' /\ f i' = f i /\
              length errs = length cs).
  { revert w i w' i' errs.
    induction cs as [|c cs IH]; intros w i w' i' errs; cbn [do_calls].
    { intros [= <- <- <-]. split; [apply evolves_refl|done]. }
    destruct (do_call w i c) as [[[w1 i1] e1]|] eqn:Hc; [|done].
    destruct (do_calls w1 i1 cs) as [[[w2 i2] es]|] eqn:Hcs; [|done].
    intros [= <- <- <-]. apply do_call_front_door in Hc. apply IH in Hcs.
    destruct Hc as [E1 Hf1], Hcs as (E2 & Hf2 & Hl).
    split; [by eapply evolves_trans|]. split; [congruence|]. cbn. by rewrite Hl. }
  intros Hd. destruct (H Hd) as ((_ & _ & _ & D & _ & Hcl & Ht) & Hf & Hl).
  split_and!; try done.
  intros [fd|]; [apply Hcl|done].
Qed.

Lemma front_door_only_writes_witness :
  exists w' i' errs,
    do_calls world1 indexer0 [CallAdd 1 0 100; CallWrite 2 128 200; CallFlushNow] =
      Returns (w', i', errs) /\
    f i' = Some 0%nat /\ durable w' = [] /\
    closed w' (Some 0%nat) = Some false /\
    disk w' = index_bytes 2 128 200.
Proof.
  eassert (Hd : do_calls world1 indexer0
                  [CallAdd 1 0 100; CallWrite 2 128 200; CallFlushNow] =
                Returns (_, _, _)) by (vm_compute; reflexivity).
  destruct (front_door_only_writes _ _ _ _ _ _ Hd) as (Hf & Hdu & Hcl & _).
  eexists _, _, _. split; [exact Hd|]. split; [exact Hf|]. split; [exact Hdu|].
  split; [exact (Hcl (Some 0%nat))|]. reflexivity.
Defined.

(** ** The loop when Flush fails *)

(** X3. When the [Flush] of a turn fails (after a [merge] that went well),
    [write] leaves its loop by the [break] behind [Flush] and runs its exit:
    the error is the instance's [LastErr], the second [merge] and [Flush]
    return it without touching the file, the file is synced and closed and
    the goroutine is gone. *)
Theorem flush_failure_exit w i fd h c w1 i1 w2 i2 e :
  f i = Some fd -> fds w !! fd = Some h -> h_closed h = false ->
  chan_recv (signal i) = Received indexReady c ->
  merge w (set_signal i c) = (w1, i1, None) ->
  Flush w1 i1 = (w2, i2, Some e) ->
  exists w',
    write w i = Returned w' i2 /\
    LastErr i2 = Some e /\
    trace w' = trace w2 ++ [CallMerge; CallFlush; SysSync fd; SysClose fd] /\
    closed w' (Some fd) = Some true /\
    disk w' = disk w2 /\ loops w' = pred (loops w) /\
    (LastErr i1 = None -> In (LogFlush e) (glog w')).
Proof.
  intros Hf Hfd Hc Hrecv Hm HF.
  pose proof (Flush_error_recorded _ _ _ _ _ HF) as HL.
  pose proof (merge_evolves _ _ _ _ _ Hm) as (E1 & Hf1 & _).
  pose proof (Flush_evolves _ _ _ _ _ HF) as (E2 & Hf2 & _).
  destruct (evolves_live _ (emit w CallMerge) w1 fd h E1 Hfd Hc) as (h1 & Hfd1 & Hc1).
  destruct (evolves_live _ (emit w1 CallFlush) w2 fd h1 E2 Hfd1 Hc1)
    as (h2 & Hfd2 & Hc2).
  cbn [f set_signal] in Hf1.
  destruct (write_exit_sticky_trace w2 i2 e fd h2 HL) as
    (w' & HX & HT & Hcl & Hd & Hl & [l G]); [congruence|done|done|].
  exists w'. unfold write. cbn [write_loop]. unfold write_turn.
  rewrite Hrecv. cbn [negb Z.eqb indexReady Pos.eqb]. rewrite Hm, HF, HX.
  split_and!; try done.
  - destruct E1 as (_ & _ & L1 & _), E2 as (_ & _ & L2 & _). cbn in L1, L2.
    congruence.
  - intros HL1. destruct (Flush_LastErr _ _ _ _ _ _ HF HL) as [?|Hin]; [congruence|].
    rewrite G. apply in_or_app. by left.
Qed.

Lemma flush_failure_exit_witness :
  exists w' i',
    write world1_refusing indexer2_token = Returned w' i' /\
    LastErr i' = Some (ErrIO 5) /\
    closed w' (Some 0%nat) = Some true /\
    loops w' = 0%nat /\ In (LogFlush (ErrIO 5)) (glog w').
Proof.
  eassert (Hm : merge world1_refusing (set_signal indexer2_token (mkChan [] 1 false)) =
                (_, _, None)) by (vm_compute; reflexivity).
  match type of Hm with
  | _ = (?w1, ?i1, _) =>
      eassert (HF : Flush w1 i1 = (_, _, Some (ErrIO 5))) by (vm_compute; reflexivity)
  end.
  destruct (flush_failure_exit world1_refusing indexer2_token 0%nat (mkHandle 0 false)
              (mkChan [] 1 false) _ _ _ _ (ErrIO 5)
              eq_refl eq_refl eq_refl eq_refl Hm HF)
    as (w' & HW & HL & _ & Hcl & _ & Hl & Hlog).
  eexists w', _. split; [exact HW|]. split; [exact HL|]. split; [exact Hcl|].
  split; [exact Hl|]. apply Hlog. reflexivity.
Defined.

(** ** What a turn of the loop and a shutdown leave in the file *)

Lemma write_turn_drains w i fd sent c :
  in_flight w i fd sent ->
  chan_recv (signal i) = Received indexReady c ->
  exists w' i',
    write_turn w i = Again w' i' /\ in_flight w' i' fd sent /\
    disk w' = encode_all sent /\ pending (ring i') = [] /\ wbuf (bw i') = [] /\
    signal i' = c /\ durable w' = durable w.
Proof.
  intros (out & Ha & Hwf & Hout & Hfs & Hfr) Hrecv. unfold write_turn.
  rewrite Hrecv. cbn [negb Z.eqb indexReady Pos.eqb].
  assert (Ha0 : appending w (set_signal i c) fd out) by exact Ha.
  destruct (merge_ok w (set_signal i c) fd out Ha0 Hwf)
    as (w1 & b1 & r1 & HM & Ha1 & Hwf1 & Hp1).
  rewrite HM. apply merge_evolves in HM. destruct HM as ((F1 & _ & _ & D1 & _) & _).
  destruct (Flush_ok _ _ _ _ Ha1) as (w2 & b2 & HF & Ha2 & Hd2 & Hb2).
  rewrite HF. apply Flush_evolves in HF. destruct HF as ((F2 & _ & _ & D2 & _) & _).
  cbn in F1, F2, D1, D2.
  eexists _, _. split; [reflexivity|].
  cbn [ring set_ring set_bw bw signal set_signal]. split_and!; try done.
  - exists (out ++ encode_all (pending (ring i))).
    split; [exact Ha2|]. split; [exact Hwf1|].
    cbn [ring set_ring set_bw]. rewrite Hp1. unfold encode_all at 2. cbn.
    rewrite app_nil_r. split; [exact Hout|]. split; congruence.
  - rewrite Hd2. exact Hout.
  - congruence.
Qed.

Lemma run_faults acts : forall w i w' i',
  run acts w i = Some (w', i') ->
  faults w' = faults w /\ durable w' = durable w /\ loops w' = loops w.
Proof.
  induction acts as [|a acts IH]; intros w i w' i'; cbn [run].
  { by intros [= <- <-]. }
  destruct a as [key offset size| |d].
  - destruct (Add w i key offset size) as [[i1 [e|]]|]; try done. apply IH.
  - pose proof (write_turn_evolves w i) as Ht.
    destruct (write_turn w i) as [|w1 i1|w1 i1]; [apply IH| |done].
    intros HR. apply IH in HR. destruct Ht as ((F & _ & L & D & _) & _).
    destruct HR as (? & ? & ?). split_and!; congruence.
  - intros HR. apply IH in HR. exact HR.
Qed.

Lemma NewIndexer_loops NeedleMaxSize w file cap w' i :
  NewIndexer NeedleMaxSize w file cap = (w', inl i) -> loops w' = S (loops w).
Proof.
  unfold NewIndexer, os_OpenFile.
  destruct (fail_open (faults w)); [done|].
  destruct (file_Stat _ _) as [size [e|]]; [done|].
  destruct (if size =? 0 then _ else _); [done|]. by intros [= <- <-].
Qed.

Lemma NewIndexer_faults NeedleMaxSize w file cap w' r :
  NewIndexer NeedleMaxSize w file cap = (w', r) ->
  faults w' = faults w /\ disk w' = disk w /\ durable w' = durable w.
Proof.
  unfold NewIndexer, os_OpenFile.
  destruct (fail_open (faults w)); [by intros [= <- <-]|].
  destruct (file_Stat _ _) as [size [e|]]; [by intros [= <- <-]|].
  destruct (if size =? 0 then _ else _); by intros [= <- <-].
Qed.

(** X4. On a new file and a device without faults, whenever the loop takes
    a token, its turn ends back at the channel with every record submitted
    so far in the file, in submission order, the ring and the writer's
    buffer empty; the turn syncs nothing. *)
Theorem turn_persists NeedleMaxSize w0 file cap w1 i1 acts w2 i2 c :
  disk w0 = [] -> fail_write (faults w0) = None ->
  fail_seek (faults w0) = None -> fail_read (faults w0) = None ->
  NewIndexer NeedleMaxSize w0 file cap = (w1, inl i1) ->
  run acts w1 i1 = Some (w2, i2) ->
  chan_recv (signal i2) = Received indexReady c ->
  exists w3 i3,
    write_turn w2 i2 = Again w3 i3 /\
    disk w3 = encode_all (submitted acts) /\
    pending (ring i3) = [] /\ wbuf (bw i3) = [] /\
    signal i3 = c /\ durable w3 = durable w0.
Proof.
  intros Hd Hfw Hfs Hfr HN HR Hrecv.
  pose proof (NewIndexer_in_flight _ _ _ _ _ _ Hd Hfw Hfs Hfr HN) as H1.
  pose proof (run_in_flight _ _ _ _ _ _ _ H1 HR) as H2. cbn [app] in H2.
  destruct (write_turn_drains _ _ _ _ _ H2 Hrecv)
    as (w3 & i3 & HT & _ & Hd3 & Hp & Hb & Hs & Hdu).
  exists w3, i3. split_and!; try done.
  apply NewIndexer_faults in HN. apply run_faults in HR.
  destruct HN as (_ & _ & ?), HR as (_ & ? & _). congruence.
Qed.

Lemma turn_persists_witness :
  exists w3 i3,
    write_turn (set_clock world1 31000000000) indexer2_token = Again w3 i3 /\
    disk w3 = encode_all [mkIndex 1 0 100; mkIndex 2 128 200] /\
    pending (ring i3) = [] /\ wbuf (bw i3) = [] /\
    signal i3 = mkChan [] 1 false /\ durable w3 = [].
Proof.
  apply (turn_persists MiB world0 "index" 4 world1 indexer0
           [DoAdd 1 0 100; DoTick 31000000000; DoAdd 2 128 200]).
  - reflexivity.
  - reflexivity.
  - reflexivity.
  - reflexivity.
  - reflexivity.
  - vm_compute. reflexivity.
  - reflexivity.
Defined.

Lemma write_turn_in_flight_all w i fd sent :
  in_flight w i fd sent ->
  match write_turn w i with
  | Sleeps => True
  | Again w' i' | Leaves w' i' => in_flight w' i' fd sent
  end.
Proof.
  intros Hin. pose proof (write_turn_in_flight w i fd sent Hin) as Ht.
  revert Ht. unfold write_turn.
  destruct (chan_recv (signal i)) as [v c|]; [|done].
  destruct (negb _); [intros _; exact Hin|].
  destruct Hin as (out & Ha & Hwf & Hout & Hfs & Hfr).
  assert (Ha0 : appending w (set_signal i c) fd out) by exact Ha.
  destruct (merge_ok w (set_signal i c) fd out Ha0 Hwf)
    as (w1 & b1 & r1 & -> & Ha1 & Hwf1 & Hp1).
  destruct (Flush_ok _ _ _ _ Ha1) as (w2 & b2 & -> & Ha2 & Hd2 & Hb2). done.
Qed.

Lemma write_loop_closed_in_flight fuel : forall w i fd sent,
  cclosed (signal i) = true -> in_flight w i fd sent ->
  (length (cbuf (signal i)) < fuel)%nat ->
  exists w0 i0 w' i',
    write_loop fuel w i = Returned w' i' /\
    in_flight w0 i0 fd sent /\ write_exit w0 i0 = (w', i') /\
    faults w0 = faults w /\ loops w0 = loops w.
Proof.
  induction fuel as [|fuel IH]; intros w i fd sent Hc Hin Hl; [lia|].
  cbn [write_loop]. pose proof (write_turn_evolves w i) as Ht.
  pose proof (write_turn_in_flight_all w i fd sent Hin) as Hin'.
  destruct (write_turn w i) as [|w1 i1|w1 i1].
  - destruct Ht. congruence.
  - destruct Ht as ((F & _ & L & _) & _ & Hcl & v & Hb).
    destruct (IH w1 i1 fd sent) as (w0 & i0 & w' & i' & HW & Hin0 & HX & F0 & L0);
      [congruence|done|rewrite Hb in Hl; cbn in Hl; lia|].
    exists w0, i0, w', i'. split_and!; try done; congruence.
  - destruct Ht as ((F & _ & L & _) & _).
    destruct (write_exit w1 i1) as [w' i'] eqn:HX. by exists w1, i1, w', i'.
Qed.

Lemma write_exit_in_flight w i fd sent :
  in_flight w i fd sent -> fail_sync (faults w) = None ->
  exists w' i',
    write_exit w i = (w', i') /\
    disk w' = encode_all sent /\ durable w' = encode_all sent /\
    closed w' (Some fd) = Some true /\
    LastErr i' = None /\ pending (ring i') = [] /\ wbuf (bw i') = [] /\
    f i' = Some fd /\ faults w' = faults w /\ loops w' = pred (loops w).
Proof.
  intros (out & Ha & Hwf & Hout & Hfs & Hfr) Hsync. unfold write_exit.
  destruct (merge_ok w i fd out Ha Hwf) as (w1 & b1 & r1 & HM & Ha1 & Hwf1 & Hp1).
  rewrite HM. apply merge_evolves in HM.
  destruct HM as ((F1 & _ & L1 & _) & _).
  destruct (Flush_ok _ _ _ _ Ha1) as (w2 & b2 & HF & Ha2 & Hd2 & Hb2).
  rewrite HF. apply Flush_evolves in HF.
  destruct HF as ((F2 & _ & L2 & _) & _).
  cbn in F1, F2, L1, L2.
  pose proof Ha2 as (Hf2 & HL2 & (_ & _ & _ & _ & _ & h2 & Hfd2 & Hc2 & _)).
  rewrite Hf2. rewrite (file_Sync_live w2 fd h2 Hfd2 Hc2).
  replace (fail_sync (faults w2)) with (@None error) by congruence.
  cbn [log_if]. rewrite (file_Close_live _ fd h2) by done.
  eexists _, _. split; [reflexivity|].
  cbn [disk durable set_durable emit set_fds retire set_loops log_if faults loops fds].
  split_and!; try done.
  - destruct (fail_close _); cbn; by rewrite Hd2, Hout.
  - destruct (fail_close _); cbn; by rewrite Hd2, Hout.
  - destruct (fail_close _); cbn;
      by rewrite list_lookup_insert_eq by (by eapply lookup_lt_Some).
  - destruct (fail_close _); cbn; congruence.
  - destruct (fail_close _); cbn; congruence.
Qed.

Lemma shutdown_state NeedleMaxSize w0 file cap w1 i1 acts w2 i2 i3 :
  disk w0 = [] -> fail_write (faults w0) = None ->
  fail_seek (faults w0) = None -> fail_read (faults w0) = None ->
  fail_sync (faults w0) = None ->
  NewIndexer NeedleMaxSize w0 file cap = (w1, inl i1) ->
  run acts w1 i1 = Some (w2, i2) ->
  Close i2 = Returns i3 ->
  exists w4 i4,
    write w2 i3 = Returned w4 i4 /\
    disk w4 = encode_all (submitted acts) /\
    durable w4 = encode_all (submitted acts) /\
    closed w4 (Some (length (fds w0))) = Some true /\
    LastErr i4 = None /\ pending (ring i4) = [] /\ wbuf (bw i4) = [] /\
    f i4 = Some (length (fds w0)) /\ faults w4 = faults w0 /\
    loops w4 = loops w0.
Proof.
  intros Hd Hfw Hfs Hfr Hsy HN HR HC.
  pose proof (NewIndexer_in_flight _ _ _ _ _ _ Hd Hfw Hfs Hfr HN) as H1.
  pose proof (run_in_flight _ _ _ _ _ _ _ H1 HR) as H2. cbn [app] in H2.
  pose proof (NewIndexer_faults _ _ _ _ _ _ HN) as (F1 & _).
  pose proof (NewIndexer_loops _ _ _ _ _ _ HN) as L1.
  pose proof (run_faults _ _ _ _ _ HR) as (F2 & _ & L2).
  revert HC. unfold Close, chan_close.
  destruct (cclosed (signal i2)); [done|]. intros [= <-].
  set (i3 := set_signal i2 _).
  assert (H3 : in_flight w2 i3 (length (fds w0)) (submitted acts)) by exact H2.
  destruct (write_loop_closed_in_flight (S (S (length (cbuf (signal i3))))) w2 i3 _ _
              eq_refl H3) as (wa & ia & w4 & i4 & HW & Hin & HX & Fa & La); [lia|].
  destruct (write_exit_in_flight wa ia _ _ Hin) as
    (w4' & i4' & HX' & Hd4 & Hdu4 & Hc4 & HL4 & Hp4 & Hb4 & Hf4 & F4 & L4);
    [congruence|].
  rewrite HX in HX'. injection HX' as <- <-.
  exists w4, i4. split; [exact HW|]. split_and!; try done.
  - congruence.
  - rewrite L4, La, L2, L1. done.
Qed.

(** X5. Shutdown loses nothing: on a new file and a device without faults,
    whatever was submitted before [Close], with whatever turns of the loop in
    between, the loop returns with every submitted record in the file, in
    submission order, the whole file synced, the descriptor closed, the ring
    and the writer's buffer empty and no fault on the instance. *)
Theorem shutdown_persists NeedleMaxSize w0 file cap w1 i1 acts w2 i2 i3 :
  disk w0 = [] -> fail_write (faults w0) = None ->
  fail_seek (faults w0) = None -> fail_read (faults w0) = None ->
  fail_sync (faults w0) = None ->
  NewIndexer NeedleMaxSize w0 file cap = (w1, inl i1) ->
  run acts w1 i1 = Some (w2, i2) ->
  Close i2 = Returns i3 ->
  exists w4 i4,
    write w2 i3 = Returned w4 i4 /\
    disk w4 = encode_all (submitted acts) /\
    durable w4 = encode_all (submitted acts) /\
    closed w4 (f i4) = Some true /\
    LastErr i4 = None /\ pending (ring i4) = [] /\ wbuf (bw i4) = [] /\
    loops w4 = loops w0.
Proof.
  intros Hd Hfw Hfs Hfr Hsy HN HR HC.
  destruct (shutdown_state _ _ _ _ _ _ _ _ _ _ Hd Hfw Hfs Hfr Hsy HN HR HC)
    as (w4 & i4 & HW & Hd4 & Hdu & Hc & HL & Hp & Hb & Hf & _ & Hl).
  exists w4, i4. rewrite Hf. by split_and!.
Qed.

Lemma shutdown_persists_witness :
  exists w4 i4,
    write (set_clock world1 31000000000)
          (set_signal indexer2_token (mkChan [indexReady] 1 true)) =
      Returned w4 i4 /\
    disk w4 = encode_all [mkIndex 1 0 100; mkIndex 2 128 200] /\
    durable w4 = encode_all [mkIndex 1 0 100; mkIndex 2 128 200] /\
    closed w4 (f i4) = Some true /\
    LastErr i4 = None /\ pending (ring i4) = [] /\ wbuf (bw i4) = [] /\
    loops w4 = 0%nat.
Proof.
  apply (shutdown_persists MiB world0 "index" 4 world1 indexer0
           [DoAdd 1 0 100; DoTick 31000000000; DoAdd 2 128 200]
           (set_clock world1 31000000000) indexer2_token).
  - reflexivity.
  - reflexivity.
  - reflexivity.
  - reflexivity.
  - reflexivity.
  - reflexivity.
  - vm_compute. reflexivity.
  - reflexivity.
Defined.

(** X6. Reopening keeps what was written: after a shutdown on a new file and
    a device without faults, a successful [Open] gives the instance a new descriptor on the same bytes,
    at offset 0, with the writer reset onto it, a fresh open channel and a
    new loop; nothing of the file is truncated, and a [Scan] through the new
    descriptor delivers every record submitted before the [Close], in
    order. *)
Theorem reopen_keeps_records NeedleMaxSize w0 file cap w1 i1 acts w2 i2 i3
    w4 i4 w5 i5 :
  disk w0 = [] -> fail_write (faults w0) = None ->
  fail_seek (faults w0) = None -> fail_read (faults w0) = None ->
  fail_sync (faults w0) = None ->
  NewIndexer NeedleMaxSize w0 file cap = (w1, inl i1) ->
  run acts w1 i1 = Some (w2, i2) ->
  Close i2 = Returns i3 ->
  write w2 i3 = Returned w4 i4 ->
  Open w4 i4 = (w5, i5, None) ->
  Forall typed (submitted acts) ->
  Forall (valid_size NeedleMaxSize) (submitted acts) ->
  disk w5 = encode_all (submitted acts) /\
  f i5 <> f i4 /\ position w5 (f i5) = Some 0%nat /\
  closed w5 (f i5) = Some false /\ closed w5 (f i4) = Some true /\
  wr (bw i5) = f i5 /\ wbuf (bw i5) = [] /\ LastErr i5 = None /\
  signal i5 = make_chan signalNum /\ loops w5 = S (loops w0) /\
  exists w6,
    Scan NeedleMaxSize collect w5 i5 (f i5) [] = (w6, i5, submitted acts, None).
Proof.
  intros Hd Hfw Hfs Hfr Hsy HN HR HC HW HO Ht Hv.
  destruct (shutdown_state _ _ _ _ _ _ _ _ _ _ Hd Hfw Hfs Hfr Hsy HN HR HC)
    as (w4' & i4' & HW' & Hd4 & Hdu & Hc & HL & Hp & Hb & Hf & F4 & Hl).
  rewrite HW in HW'. injection HW' as <- <-.
  assert (Hlt : (length (fds w0) < length (fds w4))%nat).
  { cbn in Hc. destruct (fds w4 !! length (fds w0)) eqn:E; [|done].
    by eapply lookup_lt_Some. }
  revert HO. unfold Open, os_OpenFile.
  destruct (fail_open (faults w4)); [done|]. intros [= <- <-].
  cbn [f set_f set_bw set_signal bw wr wbuf Writer_Reset LastErr signal
       disk fds loops spawn emit set_fds set_loops position closed].
  rewrite lookup_app_r, Nat.sub_diag by done.
  cbn [lookup list_lookup fmap option_fmap option_map h_pos h_closed].
  rewrite Hf. cbn [closed] in Hc.
  split_and!; try done.
  - intros [= E]. lia.
  - cbn [closed fds spawn emit set_fds set_loops]. by rewrite lookup_app_l.
  - congruence.
  - destruct (valid_chunks_of NeedleMaxSize (submitted acts) Ht Hv) as [Hvc Hparse].
    edestruct (Scan_records NeedleMaxSize collect
                 (spawn (emit (set_fds w4 (fds w4 ++ [mkHandle 0 false]))
                           (SysOpen (length (fds w4)))))
                 (set_bw (set_f (set_signal i4 (make_chan signalNum))
                            (Some (length (fds w4))))
                    (Writer_Reset (bw i4) (Some (length (fds w4)))))
                 (length (fds w4)) (mkHandle 0 false) []
                 (map (fun ix => index_bytes (Key ix) (Offset ix) (Size ix))
                    (submitted acts)) []) as (w6 & HS & _).
    + cbn. by rewrite lookup_app_r, Nat.sub_diag.
    + done.
    + cbn. congruence.
    + cbn. congruence.
    + cbn. rewrite Hd4, app_nil_r. done.
    + done.
    + cbn. lia.
    + apply accepted_always. done.
    + exists w6. rewrite deliver_collect, Hparse in HS. exact HS.
Qed.

Lemma reopen_keeps_records_witness :
  exists w5 i5 w6,
    disk w5 = encode_all [mkIndex 1 0 100; mkIndex 2 128 200] /\
    f i5 = Some 1%nat /\ position w5 (f i5) = Some 0%nat /\
    Scan MiB collect w5 i5 (f i5) [] =
      (w6, i5, [mkIndex 1 0 100; mkIndex 2 128 200], None).
Proof.
  eassert (HW : write (set_clock world1 31000000000)
                  (set_signal indexer2_token (mkChan [indexReady] 1 true)) =
                Returned _ _) by (vm_compute; reflexivity).
  match type of HW with
  | _ = Returned ?w4 ?i4 =>
      eassert (HO : Open w4 i4 = (_, _, None)) by (vm_compute; reflexivity)
  end.
  destruct (reopen_keeps_records MiB world0 "index" 4 world1 indexer0
              [DoAdd 1 0 100; DoTick 31000000000; DoAdd 2 128 200]
              (set_clock world1 31000000000) indexer2_token _ _ _ _ _
              eq_refl eq_refl eq_refl eq_refl eq_refl eq_refl eq_refl eq_refl HW HO)
    as (Hd & _ & Hp & _ & _ & _ & _ & _ & _ & _ & w6 & HS).
  - cbn [submitted].
    repeat (constructor;
            [unfold typed, in_int64, in_uint32, in_int32; cbn; lia|]).
    constructor.
  - cbn [submitted].
    repeat (constructor; [unfold valid_size, MiB; cbn; lia|]).
    constructor.
  - match type of HO with
    | _ = (?w5, ?i5, _) => exists w5, i5, w6
    end.
    split; [exact Hd|]. split; [reflexivity|]. split; [exact Hp|exact HS].
Defined.

(** ** NewIndexer *)

(** X7. [NewIndexer] fails exactly when [OpenFile] fails, when [Stat] fails,
    or - for a file of length 0 only - when [Fallocate] fails.  A failure is
    logged and starts no loop; after a failure of [Stat] or [Fallocate] the
    descriptor just opened is still open.  A success starts one loop on a
    new descriptor at offset 0.  The bytes of the file are never touched. *)
Theorem NewIndexer_outcomes NeedleMaxSize w file cap w' r :
  NewIndexer NeedleMaxSize w file cap = (w', r) ->
  disk w' = disk w /\
  match r with
  | inl i =>
      fail_open (faults w) = None /\ fail_stat (faults w) = None /\
      (disk w = [] -> fail_falloc (faults w) = None) /\
      loops w' = S (loops w) /\ glog w' = glog w /\
      f i = Some (length (fds w)) /\
      position w' (f i) = Some 0%nat /\ closed w' (f i) = Some false
  | inr e =>
      loops w' = loops w /\
      ((fail_open (faults w) = Some e /\ fds w' = fds w /\
        glog w' = glog w ++ [LogOpenFile e]) \/
       (fail_open (faults w) = None /\ fail_stat (faults w) = Some e /\
        closed w' (Some (length (fds w))) = Some false /\
        glog w' = glog w ++ [LogStat e]) \/
       (fail_open (faults w) = None /\ fail_stat (faults w) = None /\
        disk w = [] /\ fail_falloc (faults w) = Some e /\
        closed w' (Some (length (fds w))) = Some false /\
        glog w' = glog w ++ [LogFallocate e]))
  end.
Proof.
  unfold NewIndexer, os_OpenFile.
  destruct (fail_open (faults w)) as [e0|] eqn:Hfo.
  { intros [= <- <-]. split; [done|]. split; [done|]. left. done. }
  assert (Hlook : (fds w ++ [mkHandle 0 false]) !! length (fds w) =
                  Some (mkHandle 0 false)).
  { by rewrite lookup_app_r, Nat.sub_diag. }
  unfold file_Stat, Fallocate, on_file.
  cbn [f set_f fds emit set_fds faults disk]. rewrite Hlook. cbn [h_closed].
  destruct (fail_stat (faults w)) as [e1|] eqn:Hfs.
  { intros [= <- <-]. split; [done|]. split; [done|]. right. left.
    cbn. rewrite Hlook. done. }
  destruct (Z.eqb_spec (Z.of_nat (length (disk w))) 0) as [H0|H0].
  - assert (Hnil : disk w = []) by (apply length_zero_iff_nil; lia).
    destruct (fail_falloc (faults w)) as [e2|] eqn:Hff.
    + intros [= <- <-]. split; [done|]. split; [done|]. right. right.
      cbn. rewrite Hlook. done.
    + intros [= <- <-]. split; [done|]. cbn. rewrite Hlook. done.
  - intros [= <- <-]. split; [done|]. cbn. rewrite Hlook.
    split_and!; try done. intros Hnil. rewrite Hnil in H0. done.
Qed.

Lemma NewIndexer_outcomes_witness :
  (exists w', NewIndexer MiB world0_no_falloc "index" 4 = (w', inr (ErrIO 28)) /\
              loops w' = 0%nat /\ closed w' (Some 0%nat) = Some false) /\
  (exists w' i,
      NewIndexer MiB (set_disk world0_no_falloc (index_bytes 1 0 100)) "index" 4 =
        (w', inl i) /\
      loops w' = 1%nat /\ disk w' = index_bytes 1 0 100).
Proof.
  split.
  - eassert (HN : NewIndexer MiB world0_no_falloc "index" 4 = (_, inr (ErrIO 28)))
      by (vm_compute; reflexivity).
    destruct (NewIndexer_outcomes _ _ _ _ _ _ HN) as (_ & Hl & [H|[H|H]]).
    + destruct H as (H & _). vm_compute in H. discriminate.
    + destruct H as (_ & H & _). vm_compute in H. discriminate.
    + destruct H as (_ & _ & _ & _ & Hc & _). eexists. split; [exact HN|].
      split; [exact Hl|exact Hc].
  - eassert (HN : NewIndexer MiB (set_disk world0_no_falloc (index_bytes 1 0 100))
                    "index" 4 = (_, inl _)) by (vm_compute; reflexivity).
    destruct (NewIndexer_outcomes _ _ _ _ _ _ HN) as (Hd & _ & _ & _ & Hl & _).
    eexists _, _. split; [exact HN|]. split; [exact Hl|exact Hd].
Defined.

(** ** Scan and Recovery with a callback that fails *)

(** The scan of a valid record the callback answers with an error: the
    record is consumed, the callback has run, and the loop is left with the
    callback's error. *)
Lemma Scan_loop_refused NeedleMaxSize {S : Type}
    (fn : S -> Index -> S * option error) fuel w b st fd c rest st' e :
  reading w b fd (c ++ rest) -> valid_chunk NeedleMaxSize c ->
  fn st (parse c) = (st', Some e) ->
  exists w' b',
    Scan_loop NeedleMaxSize fn (Datatypes.S fuel) w b st = (w', b', st', Some e) /\
    reading w' b' fd rest /\ scan_frame w w'.
Proof.
  intros Hr [Hlen Hsize] Hfn. rewrite Scan_loop_S.
  destruct (Reader_Peek_ok w b fd _ Hr) as (w1 & b1 & -> & Hr1 & Hl1 & Hsz1 & Hf1).
  { rewrite length_app. lia. }
  rewrite take_app_length' by done. cbv beta iota zeta.
  rewrite valid_size_check by done.
  destruct (Reader_Discard_ok w1 b1 fd _ Hr1 Hl1) as (b2 & -> & Hr2 & Hsz2).
  rewrite drop_app_length' in Hr2 by done.
  cbv beta iota zeta. rewrite Hfn. by exists w1, b2.
Qed.

Lemma Scan_refused NeedleMaxSize {S : Type}
    (fn : S -> Index -> S * option error) w i r h st chunks c rest st' e :
  fds w !! r = Some h -> h_closed h = false ->
  fail_seek (faults w) = None -> fail_read (faults w) = None ->
  disk w = concat chunks ++ c ++ rest ->
  Forall (valid_chunk NeedleMaxSize) chunks ->
  valid_chunk NeedleMaxSize c ->
  accepted fn st (map parse chunks) ->
  fn (deliver fn st (map parse chunks)) (parse c) = (st', Some e) ->
  exists w1,
    Scan NeedleMaxSize fn w i (Some r) st =
      (log w1 (match e with EOF => LogScanOk | _ => LogScanFailed e end), i, st',
       match e with EOF => None | _ => Some e end) /\
    scan_frame w w1.
Proof.
  intros Hfd Hc Hfs Hfr Hdisk Hv Hvc Hacc Hfn. unfold Scan.
  destruct (Scan_start NeedleMaxSize w r h Hfd Hc Hfs Hfr) as (w1 & -> & Hr & Hf1).
  assert (Hd1 : disk w1 = disk w) by apply Hf1.
  assert (Hn : (length chunks <= length (disk w1))%nat).
  { rewrite Hd1, Hdisk, length_app, (length_concat_chunks NeedleMaxSize) by done.
    unfold indexSize. cbn. lia. }
  replace (Datatypes.S (length (disk w1))) with
    (length chunks + Datatypes.S (length (disk w1) - length chunks))%nat by lia.
  rewrite Hdisk in Hr.
  destruct (Scan_loop_chunks NeedleMaxSize fn chunks
              (Datatypes.S (length (disk w1) - length chunks)) w1 _ st r (c ++ rest)
              Hr Hv Hacc) as (w2 & b2 & -> & Hr2 & Hf2).
  destruct (Scan_loop_refused NeedleMaxSize fn (length (disk w1) - length chunks)
              w2 b2 _ r c rest st' e Hr2 Hvc Hfn) as (w3 & b3 & -> & _ & Hf3).
  exists w3. split; [by destruct e|].
  eapply scan_frame_trans; [exact Hf1|]. eapply scan_frame_trans; [exact Hf2|].
  exact Hf3.
Qed.

(** X8. When the callback answers a record with an error, [Scan] stops
    there: the records before it were delivered, the callback ran on the
    refused record and on none after it, and [Scan] returns the callback's
    error - unless that error is [io.EOF], which [Scan] takes for the end of
    the file: it then logs success and returns nil.  The file and the
    indexer are as before. *)
Theorem Scan_callback_error NeedleMaxSize {S : Type}
    (fn : S -> Index -> S * option error) w i r h st chunks c rest st' e :
  fds w !! r = Some h -> h_closed h = false ->
  fail_seek (faults w) = None -> fail_read (faults w) = None ->
  disk w = concat chunks ++ c ++ rest ->
  Forall (valid_chunk NeedleMaxSize) chunks ->
  valid_chunk NeedleMaxSize c ->
  accepted fn st (map parse chunks) ->
  fn (deliver fn st (map parse chunks)) (parse c) = (st', Some e) ->
  exists w',
    Scan NeedleMaxSize fn w i (Some r) st =
      (w', i, st', match e with EOF => None | _ => Some e end) /\
    disk w' = disk w /\ closed w' (Some r) = Some false /\
    In (match e with EOF => LogScanOk | _ => LogScanFailed e end) (glog w').
Proof.
  intros Hfd Hc Hfs Hfr Hdisk Hv Hvc Hacc Hfn.
  destruct (Scan_refused NeedleMaxSize fn w i r h st chunks c rest st' e)
    as (w1 & HS & Hd & E); try done.
  destruct (evolves_live _ w w1 r h E Hfd Hc) as (h1 & Hfd1 & Hc1).
  eexists. split; [|split; [|split]].
  - exact HS.
  - exact Hd.
  - cbn. rewrite Hfd1. cbn. by rewrite Hc1.
  - cbn [glog log]. apply in_or_app. right. by left.
Qed.

Lemma Scan_callback_error_witness :
  (exists w',
     Scan MiB (reject_key 2 (ErrIO 7)) world_three indexer0 (Some 0%nat) [] =
       (w', indexer0, [mkIndex 1 0 100], Some (ErrIO 7))) /\
  (exists w',
     Scan MiB (reject_key 2 EOF) world_three indexer0 (Some 0%nat) [] =
       (w', indexer0, [mkIndex 1 0 100], None) /\ In LogScanOk (glog w')).
Proof.
  split.
  - destruct (Scan_callback_error MiB (reject_key 2 (ErrIO 7)) world_three indexer0
                0%nat (mkHandle 0 false) [] [index_bytes 1 0 100]
                (index_bytes 2 128 200) (index_bytes 3 384 300)
                [mkIndex 1 0 100] (ErrIO 7))
      as (w' & HS & _); try reflexivity.
    + constructor; [|constructor]. split; [reflexivity|]. vm_compute. split; discriminate.
    + split; [reflexivity|]. vm_compute. split; discriminate.
    + vm_compute. done.
    + exists w'. exact HS.
  - destruct (Scan_callback_error MiB (reject_key 2 EOF) world_three indexer0
                0%nat (mkHandle 0 false) [] [index_bytes 1 0 100]
                (index_bytes 2 128 200) (index_bytes 3 384 300)
                [mkIndex 1 0 100] EOF)
      as (w' & HS & _ & _ & Hl); try reflexivity.
    + constructor; [|constructor]. split; [reflexivity|]. vm_compute. split; discriminate.
    + split; [reflexivity|]. vm_compute. split; discriminate.
    + vm_compute. done.
    + exists w'. split; [exact HS|exact Hl].
Defined.

(** X9. When the callback answers a record with an error, [Recovery] still
    returns nil: the result of its scan is dropped.  Its closure has counted
    the refused record before calling the callback, so the file's offset is
    left after the refused record, at 16 * (N + 1) for N records accepted
    before it. *)
Theorem Recovery_callback_error NeedleMaxSize {S : Type}
    (fn : S -> Index -> S * option error) w i fd h st chunks c rest st' e :
  f i = Some fd -> fds w !! fd = Some h -> h_closed h = false ->
  fail_seek (faults w) = None -> fail_read (faults w) = None ->
  disk w = concat chunks ++ c ++ rest ->
  Forall (valid_chunk NeedleMaxSize) chunks ->
  valid_chunk NeedleMaxSize c ->
  accepted fn st (map parse chunks) ->
  fn (deliver fn st (map parse chunks)) (parse c) = (st', Some e) ->
  exists w',
    Recovery NeedleMaxSize fn w i st = (w', i, st', None) /\
    position w' (f i) = Some (16 * (length chunks + 1))%nat /\
    disk w' = disk w.
Proof.
  intros Hf Hfd Hc Hfs Hfr Hdisk Hv Hvc Hacc Hfn.
  destruct (Scan_refused NeedleMaxSize (Recovery_fn fn) w i fd h (0, st) chunks c rest
              (0 + Z.of_nat (indexSize * length (map parse chunks)) + Z.of_nat indexSize,
               st') e)
    as (w1 & HS & Hd & E); try done.
  { by apply accepted_Recovery_fn. }
  { rewrite deliver_Recovery_fn. cbn [Recovery_fn]. by rewrite Hfn. }
  destruct (evolves_live _ w w1 fd h E Hfd Hc) as (h1 & Hfd1 & Hc1).
  assert (Hfs1 : fail_seek (faults w1) = None).
  { destruct E as (F & _). congruence. }
  unfold Recovery. rewrite Hf, HS. cbv beta iota zeta. rewrite Hf.
  erewrite (file_Seek_live _ fd h1); [| exact Hfd1 | exact Hc1 | exact Hfs1 | lia].
  eexists. split; [reflexivity|].
  cbn [position fds log_if log set_fds emit disk].
  rewrite list_lookup_insert_eq by (by eapply lookup_lt_Some).
  split; [|done]. cbn [fmap option_fmap option_map h_pos]. f_equal.
  rewrite length_map. change indexSize with 16%nat. lia.
Qed.

Lemma Recovery_callback_error_witness :
  exists w',
    Recovery MiB (reject_key 2 (ErrIO 7)) world_three indexer0 [] =
      (w', indexer0, [mkIndex 1 0 100], None) /\
    position w' (f indexer0) = Some 32%nat.
Proof.
  destruct (Recovery_callback_error MiB (reject_key 2 (ErrIO 7)) world_three indexer0
              0%nat (mkHandle 0 false) [] [index_bytes 1 0 100]
              (index_bytes 2 128 200) (index_bytes 3 384 300)
              [mkIndex 1 0 100] (ErrIO 7))
    as (w' & HR & Hp & _); try reflexivity.
  - constructor; [|constructor]. split; [reflexivity|]. vm_compute. split; discriminate.
  - split; [reflexivity|]. vm_compute. split; discriminate.
  - vm_compute. done.
  - exists w'. split; [exact HR|exact Hp].
Defined.

(** X10. On an indexer whose file is closed - as it is once the loop has
    returned - [Scan] and [Recovery] fail with the error of their [Seek],
    [os.ErrClosed], and log it; the callback is not called, nothing is read
    and the file is as it was. *)
Theorem Recovery_on_closed_file NeedleMaxSize {S : Type}
    (fn : S -> Index -> S * option error) w i st :
  closed w (f i) = Some true ->
  exists w1 w2,
    Scan NeedleMaxSize fn w i (f i) st = (w1, i, st, Some ErrClosed) /\
    Recovery NeedleMaxSize fn w i st = (w2, i, st, Some ErrClosed) /\
    trace w1 = trace w /\ trace w2 = trace w /\
    disk w2 = disk w /\ fds w2 = fds w /\
    In (LogSeek ErrClosed) (glog w1) /\ In (LogSeek ErrClosed) (glog w2).
Proof.
  unfold closed. destruct (f i) as [fd|] eqn:Hf; [|done].
  destruct (fds w !! fd) as [h|] eqn:Hfd; [|done]. cbn. intros [= Hc].
  assert (HS : forall (T : Type) (g : T -> Index -> T * option error) (t : T),
    Scan NeedleMaxSize g w i (Some fd) t =
    (log (log w LogScan) (LogSeek ErrClosed), i, t, Some ErrClosed)).
  { intros T g t. unfold Scan, file_Seek, on_file. cbn [fds log]. by rewrite Hfd, Hc. }
  eexists _, _. split; [apply HS|]. split.
  { unfold Recovery. rewrite Hf, HS. cbv beta iota zeta. rewrite Hf.
    unfold file_Seek, on_file. cbn [fds log]. rewrite Hfd, Hc. reflexivity. }
  cbn [trace disk fds glog log log_if].
  split_and!; try done.
  - apply in_or_app. right. by left.
  - apply in_or_app. right. by left.
Qed.

Lemma Recovery_on_closed_file_witness :
  exists w2,
    Recovery MiB collect world_shut indexer_shut [] =
      (w2, indexer_shut, [], Some ErrClosed) /\
    disk w2 = index_bytes 1 0 100 ++ index_bytes 2 128 200.
Proof.
  destruct (Recovery_on_closed_file MiB collect world_shut indexer_shut [])
    as (w1 & w2 & _ & HR & _ & _ & Hd & _).
  - vm_compute. reflexivity.
  - exists w2. split; [exact HR|]. rewrite Hd. vm_compute. reflexivity.
Defined.

(** ** What a scan never does *)

Lemma file_Seek_disk w fp off : disk (fst (file_Seek w fp off)) = disk w.
Proof.
  unfold file_Seek. on_file_cases w fp; try done.
  cbn [emit faults]. destruct (fail_seek (faults w)); [done|].
  by destruct (off <? 0).
Qed.

Lemma Reader_Peek_disk w b n w' b' data err :
  Reader_Peek w b n = (w', b', data, err) -> disk w' = disk w.
Proof.
  unfold Reader_Peek.
  destruct (Reader_Peek_loop (S n) w b n) as [w1 b1] eqn:HL.
  apply Peek_loop_unread in HL. destruct HL as (_ & _ & _ & Hd).
  destruct (rsize b1 <? Z.of_nat n); [by intros [= <- _ _ _]|].
  destruct (length (rbuf b1) <? n)%nat; by intros [= <- _ _ _].
Qed.

Lemma Scan_loop_invariant NeedleMaxSize {S : Type}
    (fn : S -> Index -> S * option error) (P : S -> Prop) :
  (forall st ix, P st -> valid_size NeedleMaxSize ix -> P (fst (fn st ix))) ->
  forall fuel w b st w' b' st' err,
  P st ->
  Scan_loop NeedleMaxSize fn fuel w b st = (w', b', st', err) ->
  P st' /\ disk w' = disk w.
Proof.
  intros Hfn. induction fuel as [|fuel IH]; intros w b st w' b' st' err HP.
  { by intros [= <- _ <- _]. }
  rewrite Scan_loop_S.
  destruct (Reader_Peek w b indexSize) as [[[w1 b1] data] [e|]] eqn:HPk.
  { apply Reader_Peek_disk in HPk. by intros [= <- _ <- _]. }
  pose proof (Reader_Peek_disk _ _ _ _ _ _ _ HPk) as Hd1.
  apply Reader_Peek_unread in HPk. destruct HPk as (Hl & _ & _).
  cbv zeta.
  destruct ((Size (parse data) >? NeedleMaxSize) || (Size (parse data) <? 1)) eqn:Hsz.
  { by intros [= <- _ <- _]. }
  rewrite Reader_Discard_enough by done.
  assert (Hv : valid_size NeedleMaxSize (parse data)).
  { apply orb_false_iff in Hsz. destruct Hsz as [H1 H2].
    rewrite Z.gtb_ltb in H1. apply Z.ltb_ge in H1, H2. unfold valid_size. lia. }
  specialize (Hfn st (parse data) HP Hv).
  destruct (fn st (parse data)) as [st1 [e|]]; cbn [fst] in Hfn.
  { by intros [= <- _ <- _]. }
  intros HL. apply IH in HL; [|done]. destruct HL as [HP' Hd']. split; [done|].
  congruence.
Qed.

(** X11. Whatever the file holds, whatever the device does and whatever
    descriptor it is given, [Scan] calls its callback on records of a valid
    size only (1 <= size <= NeedleMaxSize): every property of the callback's
    state that such calls keep still holds when [Scan] returns.  [Scan]
    leaves the indexer and the bytes of the file as they were. *)
Theorem Scan_callback_invariant NeedleMaxSize {S : Type}
    (fn : S -> Index -> S * option error) (P : S -> Prop) w i r st w' i' st' err :
  (forall st ix, P st -> valid_size NeedleMaxSize ix -> P (fst (fn st ix))) ->
  P st ->
  Scan NeedleMaxSize fn w i r st = (w', i', st', err) ->
  P st' /\ i' = i /\ disk w' = disk w.
Proof.
  intros Hfn HP. unfold Scan.
  pose proof (file_Seek_disk (log w LogScan) r 0) as Hd0.
  destruct (file_Seek (log w LogScan) r 0) as [w1 [e|]] eqn:HSk; cbn [fst] in Hd0.
  { by intros [= <- <- <- _]. }
  destruct (Scan_loop NeedleMaxSize fn (Datatypes.S (length (disk w1))) w1
              (NewReaderSize r NeedleMaxSize) st) as [[[w2 b2] st2] err2] eqn:HL.
  apply (Scan_loop_invariant NeedleMaxSize fn P Hfn) in HL; [|done].
  destruct HL as [HP2 Hd2].
  assert (Hd : disk w2 = disk w) by (rewrite Hd2, Hd0; done).
  destruct err2 as [[]|]; by intros [= <- <- <- _].
Qed.

Lemma Scan_callback_invariant_witness :
  exists w' ixs err,
    Scan MiB collect world_zero indexer0 (Some 0%nat) [] = (w', indexer0, ixs, err) /\
    Forall (valid_size MiB) ixs /\ disk w' = disk world_zero.
Proof.
  eassert (HS : Scan MiB collect world_zero indexer0 (Some 0%nat) [] = (_, _, _, _))
    by (vm_compute; reflexivity).
  destruct (Scan_callback_invariant MiB collect (Forall (valid_size MiB)) _ _ _ _ _ _ _ _
              (fun st ix Hst Hix => proj2 (Forall_app _ st [ix])
                 (conj Hst (Forall_cons_2 _ _ _ Hix (Forall_nil_2 _)))) (Forall_nil_2 _) HS)
    as (HP & Hi & Hd).
  eexists _, _, _. split; [rewrite <- Hi at 2; exact HS|]. split; [exact HP|exact Hd].
Defined.

(** ** The outcome of a scan, for every file *)

(** Every file is a run of complete valid records followed by a rest that
    is either shorter than a record or starts with a record whose size is
    out of bounds. *)
Lemma split_records NeedleMaxSize : forall n (d : list byte),
  (length d <= n)%nat ->
  exists chunks rest,
    d = concat chunks ++ rest /\
    Forall (valid_chunk NeedleMaxSize) chunks /\
    ((length rest < 16)%nat \/
     ((16 <= length rest)%nat /\
      (Size (parse (take 16 rest)) < 1 \/
       Size (parse (take 16 rest)) > NeedleMaxSize))).
Proof.
  induction n as [|n IH]; intros d Hn.
  { exists [], d. split; [done|]. split; [constructor|]. left. lia. }
  destruct (Nat.lt_ge_cases (length d) 16) as [Hs|Hs].
  { exists [], d. split; [done|]. split; [constructor|]. by left. }
  destruct (Z_lt_dec (Size (parse (take 16 d))) 1) as [Hlo|Hlo].
  { exists [], d. split; [done|]. split; [constructor|]. right. split; [done|]. by left. }
  destruct (Z_gt_dec (Size (parse (take 16 d))) NeedleMaxSize) as [Hhi|Hhi].
  { exists [], d. split; [done|]. split; [constructor|]. right. split; [done|]. by right. }
  destruct (IH (drop 16 d)) as (chunks & rest & Hd & Hv & Hrest).
  { rewrite length_drop. lia. }
  exists (take 16 d :: chunks), rest. split.
  { cbn [concat]. rewrite <- app_assoc, <- Hd. by rewrite take_drop. }
  split; [|done]. constructor; [|done]. split.
  - rewrite length_take. change indexSize with 16%nat. lia.
  - unfold valid_size. lia.
Qed.

(** X12. On a live descriptor of a readable file, with a callback that
    never fails, [Scan] has two outcomes only, and the bytes of the file
    decide which.  The file is a run of complete valid records followed by
    a rest; [Scan] delivers exactly that run, in order, and returns nil when
    the rest is shorter than sixteen bytes, [ErrIndexSize] when the rest
    starts with a sixteen-byte record whose size is out of bounds. *)
Theorem Scan_every_file NeedleMaxSize {S : Type}
    (fn : S -> Index -> S * option error) w i r h st :
  fds w !! r = Some h -> h_closed h = false ->
  fail_seek (faults w) = None -> fail_read (faults w) = None ->
  (forall st ix, snd (fn st ix) = None) ->
  exists chunks rest w',
    disk w = concat chunks ++ rest /\
    Forall (valid_chunk NeedleMaxSize) chunks /\
    disk w' = disk w /\
    (((length rest < 16)%nat /\
      Scan NeedleMaxSize fn w i (Some r) st =
        (w', i, deliver fn st (map parse chunks), None)) \/
     ((16 <= length rest)%nat /\
      ~ valid_size NeedleMaxSize (parse (take 16 rest)) /\
      Scan NeedleMaxSize fn w i (Some r) st =
        (w', i, deliver fn st (map parse chunks), Some ErrIndexSize))).
Proof.
  intros Hfd Hc Hfs Hfr Hfn.
  destruct (split_records NeedleMaxSize (length (disk w)) (disk w) (le_n _))
    as (chunks & rest & Hd & Hv & [Hshort|[Hlong Hbad]]).
  - destruct (Scan_records NeedleMaxSize fn w i r h st chunks rest)
      as (w' & HS & Hdw & _); try done; [by apply accepted_always|].
    exists chunks, rest, w'. split_and!; try done. by left.
  - destruct (Scan_rejects NeedleMaxSize fn w i r h st chunks (take 16 rest)
                (drop 16 rest)) as (w' & HS & [Hdw _] & _); try done.
    + by rewrite take_drop.
    + rewrite length_take. change indexSize with 16%nat. lia.
    + by apply accepted_always.
    + exists chunks, rest, w'. split_and!; try done. right.
      split; [done|]. split; [|done]. unfold valid_size. lia.
Qed.

Lemma Scan_every_file_witness :
  exists chunks rest w',
    disk world_zero = concat chunks ++ rest /\
    Forall (valid_chunk MiB) chunks /\
    disk w' = disk world_zero /\
    (((length rest < 16)%nat /\
      Scan MiB collect world_zero indexer0 (Some 0%nat) [] =
        (w', indexer0, deliver collect [] (map parse chunks), None)) \/
     ((16 <= length rest)%nat /\
      ~ valid_size MiB (parse (take 16 rest)) /\
      Scan MiB collect world_zero indexer0 (Some 0%nat) [] =
        (w', indexer0, deliver collect [] (map parse chunks), Some ErrIndexSize))).
Proof.
  apply (Scan_every_file MiB collect world_zero indexer0 0%nat (mkHandle 0 false)).
  - reflexivity.
  - reflexivity.
  - reflexivity.
  - reflexivity.
  - intros st ix. reflexivity.
Defined.

(** ** The ring between Add and merge *)

Lemma length_pending r : length (pending r) = (wn r - rn r)%nat.
Proof. unfold pending. by rewrite length_map, length_seq. Qed.

(** X13. [Add] on an instance without a fault, whose channel is open, never
    panics.  While the ring holds fewer records than its
    capacity, [Add] returns nil and the record is the newest of the ring;
    when the ring is full, [Add] returns the ring's Full error, the record
    is dropped, the ring is as it was and the error is the instance's
    [LastErr]. *)
Theorem Add_queue w i key offset size :
  LastErr i = None -> cclosed (signal i) = false -> ring_wf (ring i) ->
  exists i',
    bw i' = bw i /\ f i' = f i /\ ring_wf (ring i') /\
    (((length (pending (ring i)) < num (ring i))%nat /\
      Add w i key offset size = Returns (i', None) /\
      pending (ring i') = pending (ring i) ++ [mkIndex key offset size] /\
      LastErr i' = None) \/
     (length (pending (ring i)) = num (ring i) /\
      Add w i key offset size = Returns (i', Some ErrRingFull) /\
      pending (ring i') = pending (ring i) /\
      LastErr i' = Some ErrRingFull)).
Proof.
  intros HL Hc Hwf. unfold Add. rewrite HL.
  match goal with
  | |- context [match ?x with Returns _ => _ | Panics => _ end] => set (woken := x)
  end.
  assert (Hw : exists i1, woken = Returns i1 /\ ring i1 = ring i /\ bw i1 = bw i /\
                          f i1 = f i /\ LastErr i1 = LastErr i).
  { unfold woken. destruct (_ || _); [|by exists i].
    unfold chan_try_send. rewrite Hc.
    destruct (_ <? _)%nat; eexists; by split. }
  clearbody woken. destruct Hw as (i1 & -> & Hr & Hbw & Hf1 & HL1).
  rewrite length_pending.
  destruct (Ring_Set (ring i1)) as [slot|e] eqn:HS; rewrite Hr in HS.
  - destruct (pending_Set (ring i) slot (mkIndex key offset size) Hwf HS) as (Hp & Hwf').
    eexists. split; [|split; [|split]]; [| |
      |left; split; [|split; [reflexivity|split]]].
    + by cbn.
    + by cbn.
    + cbn [ring set_ring]. by rewrite Hr.
    + unfold Ring_Set, Buffered in HS. destruct Hwf as (_ & ? & ?).
      destruct (Z.eqb_spec (Z.of_nat (wn (ring i)) - Z.of_nat (rn (ring i)))
                  (Z.of_nat (num (ring i)))); [done|lia].
    + cbn [ring set_ring]. by rewrite Hr.
    + cbn. congruence.
  - assert (He : e = ErrRingFull /\ (wn (ring i) - rn (ring i))%nat = num (ring i)).
    { unfold Ring_Set, Buffered in HS. destruct Hwf as (_ & ? & ?).
      destruct (Z.eqb_spec (Z.of_nat (wn (ring i)) - Z.of_nat (rn (ring i)))
                  (Z.of_nat (num (ring i)))); [|done].
      split; [congruence|lia]. }
    destruct He as [-> Hfull].
    eexists. split; [|split; [|split]]; [| |
      |right; split; [done|split; [reflexivity|split]]].
    + by cbn.
    + by cbn.
    + cbn. by rewrite Hr.
    + cbn. by rewrite Hr.
    + done.
Qed.

Lemma Add_queue_witness :
  (exists i', Add world1 indexer2 3 384 300 = Returns (i', None) /\
              pending (ring i') = pending (ring indexer2) ++ [mkIndex 3 384 300]) /\
  (exists i', Add world1 indexer4 5 512 500 = Returns (i', Some ErrRingFull) /\
              pending (ring i') = pending (ring indexer4)).
Proof.
  split.
  - destruct (Add_queue world1 indexer2 3 384 300) as (i' & _ & _ & _ & [H|H]);
      try reflexivity.
    + vm_compute. split; [reflexivity|]. split; lia.
    + destruct H as (_ & HA & Hp & _). exists i'. split; [exact HA|exact Hp].
    + destruct H as (Hn & _). vm_compute in Hn. discriminate.
  - destruct (Add_queue world1 indexer4 5 512 500) as (i' & _ & _ & _ & [H|H]);
      try reflexivity.
    + vm_compute. split; [reflexivity|]. split; lia.
    + destruct H as (Hn & _). vm_compute in Hn. lia.
    + destruct H as (_ & HA & Hp & _). exists i'. split; [exact HA|exact Hp].
Defined.

Lemma Write_set_ring w i r key offset size :
  Write w (set_ring i r) key offset size =
  let '(w', i', err) := Write w i key offset size in (w', set_ring i' r, err).
Proof.
  unfold Write. cbn [LastErr bw set_ring]. destruct (LastErr i); [done|].
  destruct (BigEndian_WriteInt64 w (bw i) key) as [[w1 b1] [e1|]]; [done|].
  cbn [bw set_bw].
  destruct (BigEndian_WriteUint32 w1 b1 offset) as [[w2 b2] [e2|]]; [done|].
  cbn [bw set_bw].
  by destruct (BigEndian_WriteInt32 w2 b2 size) as [[w3 b3] [e3|]].
Qed.

Lemma write_each_set_ring ixs : forall w i r,
  write_each w (set_ring i r) ixs =
  let '(w', i', kept, err) := write_each w i ixs in (w', set_ring i' r, kept, err).
Proof.
  induction ixs as [|ix ixs IH]; intros w i r; cbn [write_each]; [done|].
  rewrite Write_set_ring.
  destruct (Write w i (Key ix) (Offset ix) (Size ix)) as [[w1 i1] [e|]]; [done|].
  apply IH.
Qed.

(** [merge] is the [Write]s of the ring's records, oldest first, up to the
    first failure; the ring keeps what was not written. *)
Lemma merge_loop_write_each fuel : forall w i w' iw kept err,
  ring_wf (ring i) -> (wn (ring i) - rn (ring i) < fuel)%nat ->
  write_each w i (pending (ring i)) = (w', iw, kept, err) ->
  exists r',
    merge_loop fuel w i = (w', set_ring iw r', err) /\
    pending r' = kept /\ ring_wf r'.
Proof.
  induction fuel as [|fuel IH]; intros w i w' iw kept err Hwf Hfuel; [lia|].
  cbn [merge_loop]. destruct (Ring_Get (ring i)) as [slot|e0] eqn:HG.
  - destruct (pending_Get _ _ Hwf HG) as (Hp & Hwf' & Hless).
    rewrite Hp. cbn [write_each].
    destruct (Write w i _ _ _) as [[w1 i1] [e1|]] eqn:HW;
      pose proof (Write_evolves _ _ _ _ _ _ _ _ HW) as (_ & _ & _ & Hr).
    + intros [= <- <- <- <-]. exists (ring i). split; [|by rewrite Hp].
      f_equal. f_equal. rewrite <- Hr. by destruct i1.
    + intros HE. rewrite Hr.
      destruct (IH w1 (set_ring i1 (Ring_GetAdv (ring i))) w'
                  (set_ring iw (Ring_GetAdv (ring i))) kept err)
        as (r' & HM & Hp' & Hwf''); cbn [ring set_ring]; [done|lia| |].
      * by rewrite write_each_set_ring, HE.
      * exists r'. by rewrite HM.
  - rewrite (pending_Get_empty _ _ Hwf HG). cbn [write_each].
    intros [= <- <- <- <-]. exists (ring i). split; [by destruct i|].
    split; [by eapply pending_Get_empty|done].
Qed.

Lemma write_each_stops ixs : forall w i w' i' kept err,
  write_each w i ixs = (w', i', kept, err) ->
  match err with
  | None => kept = []
  | Some e =>
      exists taken ix rest wk ik wk',
        ixs = taken ++ ix :: rest /\ kept = ix :: rest /\
        write_each w i taken = (wk, ik, [], None) /\
        Write wk ik (Key ix) (Offset ix) (Size ix) = (wk', i', Some e) /\
        w' = log wk' (LogWrite e)
  end.
Proof.
  induction ixs as [|ix ixs IH]; intros w i w' i' kept err; cbn [write_each].
  { by intros [= <- <- <- <-]. }
  destruct (Write w i (Key ix) (Offset ix) (Size ix)) as [[w1 i1] [e|]] eqn:HW.
  - intros [= <- <- <- <-]. by exists [], ix, ixs, w, i, w1.
  - intros HE. apply IH in HE. destruct err as [e|]; [|done].
    destruct HE as (taken & ix' & rest & wk & ik & wk' & -> & -> & Ht & HWk & ->).
    exists (ix :: taken), ix', rest, wk, ik, wk'. split_and!; try done.
    cbn [write_each]. by rewrite HW.
Qed.

(** X14. [merge] issues the [Write]s of the ring's records, oldest first,
    and takes a record off the ring for each [Write] that returns nil.  It
    returns nil only when every [Write] did, with the ring empty.  The first
    [Write] that fails ends it: [merge] returns that [Write]'s error, logs
    it, the error is in [LastErr], the records before it are off the ring,
    and the record whose [Write] failed is still the oldest of the ring,
    with every later record behind it in order. *)
Theorem merge_keeps_unwritten w i w' i' err :
  ring_wf (ring i) ->
  merge w i = (w', i', err) ->
  ring_wf (ring i') /\ f i' = f i /\
  (exists iw,
     write_each (emit w CallMerge) i (pending (ring i)) =
       (w', iw, pending (ring i'), err) /\
     i' = set_ring iw (ring i')) /\
  match err with
  | None => pending (ring i') = []
  | Some e =>
      exists taken ix rest wk ik wk' ik',
        pending (ring i) = taken ++ ix :: rest /\
        pending (ring i') = ix :: rest /\
        write_each (emit w CallMerge) i taken = (wk, ik, [], None) /\
        Write wk ik (Key ix) (Offset ix) (Size ix) = (wk', ik', Some e) /\
        w' = log wk' (LogWrite e) /\
        LastErr i' = Some e /\ In (LogWrite e) (glog w')
  end.
Proof.
  intros Hwf HM. unfold merge in HM.
  destruct (write_each (emit w CallMerge) i (pending (ring i)))
    as [[[w2 iw] kept] err2] eqn:HE.
  destruct (merge_loop_write_each _ _ _ _ _ _ _ Hwf (Nat.lt_succ_diag_r _) HE)
    as (r' & HM' & Hp & Hwf').
  rewrite HM in HM'. injection HM' as -> -> ->.
  pose proof (merge_loop_evolves _ _ _ _ _ _ HM) as (_ & Hf & _).
  cbn [ring set_ring] in *. rewrite Hp.
  split; [done|]. split; [done|]. split; [by exists iw|].
  pose proof (write_each_stops _ _ _ _ _ _ _ HE) as Hstop.
  destruct err2 as [e|]; [|done].
  destruct Hstop as (taken & ix & rest & wk & ik & wk' & Hpend & -> & Ht & HW & ->).
  exists taken, ix, rest, wk, ik, wk', iw. split_and!; try done.
  - by eapply merge_loop_error_recorded.
  - by eapply merge_loop_error_recorded.
Qed.

Lemma merge_keeps_unwritten_witness :
  exists w' i' wk ik wk' ik',
    merge small_world small_indexer = (w', i', Some (ErrIO 5)) /\
    pending (ring small_indexer) = [mkIndex 1 0 100; mkIndex 2 128 200] /\
    pending (ring i') = [mkIndex 2 128 200] /\
    write_each (emit small_world CallMerge) small_indexer [mkIndex 1 0 100] =
      (wk, ik, [], None) /\
    Write wk ik 2 128 200 = (wk', ik', Some (ErrIO 5)) /\
    LastErr i' = Some (ErrIO 5).
Proof.
  eassert (HM : merge small_world small_indexer = (_, _, Some (ErrIO 5)))
    by (vm_compute; reflexivity).
  assert (Hwf : ring_wf (ring small_indexer)).
  { vm_compute. split; [reflexivity|]. split; lia. }
  destruct (merge_keeps_unwritten _ _ _ _ _ Hwf HM)
    as (_ & _ & _ & taken & ix & rest & wk & ik & wk' & ik' & Hp & Hp' & Ht & HW & _
        & HL & _).
  assert (Hp2 : pending (ring small_indexer) = [mkIndex 1 0 100; mkIndex 2 128 200])
    by (vm_compute; reflexivity).
  match type of HM with
  | _ = (_, ?i1, _) =>
      assert (Hp3 : pending (ring i1) = [mkIndex 2 128 200])
        by (vm_compute; reflexivity)
  end.
  rewrite Hp3 in Hp'. injection Hp' as <- <-.
  rewrite Hp2 in Hp.
  apply (app_inj_tail [mkIndex 1 0 100] taken) in Hp. destruct Hp as [<- _].
  eexists _, _, wk, ik, wk', ik'.
  split; [exact HM|]. split; [exact Hp2|]. split; [exact Hp3|].
  split; [exact Ht|]. split; [exact HW|exact HL].
Defined.

(** ** Writing in the middle of the file

    The file is opened without [O_APPEND]: what the writer flushes goes to
    the descriptor's offset, over what the file has there. *)

Lemma pwrite_nil d p0 : (p0 <= length d)%nat -> pwrite d p0 [] = d.
Proof.
  intros H. unfold pwrite. replace (p0 - length d)%nat with 0%nat by lia.
  cbn [replicate length app]. by rewrite Nat.add_0_r, take_drop.
Qed.

Lemma pwrite_inside d p0 p :
  (p0 <= length d)%nat -> pwrite d p0 p = take p0 d ++ p ++ drop (p0 + length p) d.
Proof.
  intros H. unfold pwrite. by replace (p0 - length d)%nat with 0%nat by lia.
Qed.

Lemma pwrite_pwrite d p0 a b :
  (p0 <= length d)%nat ->
  pwrite (pwrite d p0 a) (p0 + length a) b = pwrite d p0 (a ++ b).
Proof.
  intros H. rewrite (pwrite_inside d p0 a), (pwrite_inside d p0 (a ++ b)) by done.
  assert (Ht : length (take p0 d) = p0) by (rewrite length_take; lia).
  rewrite pwrite_inside by (rewrite !length_app, Ht; lia).
  rewrite (app_assoc (take p0 d) a).
  assert (Hl : length (take p0 d ++ a) = (p0 + length a)%nat)
    by (by rewrite length_app, Ht).
  rewrite take_app_length' by done.
  replace (p0 + length a + length b)%nat
    with (length (take p0 d ++ a) + length b)%nat by lia.
  rewrite drop_app_add', drop_drop by done.
  rewrite length_app, <- !app_assoc. do 3 f_equal. f_equal. lia.
Qed.

Lemma file_Write_at w fd h p :
  fds w !! fd = Some h -> h_closed h = false ->
  fail_write (faults w) = None ->
  file_Write w (Some fd) p =
  (set_fds (set_disk (emit w (SysWrite fd p)) (pwrite (disk w) (h_pos h) p))
     (<[fd := mkHandle (h_pos h + length p) false]> (fds w)),
   length p, None).
Proof.
  intros Hfd Hc Hfw. unfold file_Write, on_file. rewrite Hfd, Hc, Hfw. done.
Qed.

Lemma patching_step w b fd d0 p0 out h written p b' :
  patching w b fd d0 p0 out ->
  fds w !! fd = Some h -> h_pos h = (p0 + length written)%nat ->
  disk w = pwrite d0 p0 written ->
  wr b' = Some fd -> werr b' = None -> wsize b' = wsize b -> wbuf b' = [] ->
  patching
    (set_fds (set_disk (emit w (SysWrite fd p)) (pwrite (disk w) (h_pos h) p))
       (<[fd := mkHandle (h_pos h + length p) false]> (fds w)))
    b' fd d0 p0 (written ++ p).
Proof.
  intros (Hwr & He & Hsz & Hlen & Hfw & Hp0 & _) Hfd Hp Hd Hwr' He' Hsz' Hb'.
  split_and!; try done; try (rewrite ?Hsz', ?Hb'; cbn; lia).
  eexists _, (written ++ p). cbn [fds set_fds disk set_disk emit].
  split; [apply list_lookup_insert_eq; by eapply lookup_lt_Some|].
  split; [done|]. split; [cbn; rewrite length_app; lia|].
  split; [by rewrite Hd, Hp, pwrite_pwrite|]. by rewrite Hb', app_nil_r.
Qed.

Lemma Writer_Flush_patch w b fd d0 p0 out :
  patching w b fd d0 p0 out ->
  exists w',
    Writer_Flush w b = (w', mkWriter (wr b) [] (wsize b) None, None) /\
    patching w' (mkWriter (wr b) [] (wsize b) None) fd d0 p0 out /\
    disk w' = pwrite d0 p0 out.
Proof.
  intros Hb.
  pose proof Hb as (Hwr & He & Hsz & Hlen & Hfw & Hp0 & h & written & Hfd & Hc & Hp
                    & Hd & Hout).
  unfold Writer_Flush. rewrite He.
  destruct (Nat.eqb_spec (length (wbuf b)) 0) as [H0|H0].
  - apply length_zero_iff_nil in H0. exists w.
    assert (Hw : written = out) by (by rewrite <- Hout, H0, app_nil_r).
    destruct b as [wr0 buf sz er]. cbn in *. subst. split; [done|].
    split; [exact Hb|]. by rewrite app_nil_r.
  - rewrite Hwr, (file_Write_at w fd h) by done.
    rewrite Nat.ltb_irrefl. cbn [andb].
    eexists. split; [reflexivity|].
    pose proof (patching_step w b fd d0 p0 out h written (wbuf b)
                  (mkWriter (Some fd) [] (wsize b) None) Hb Hfd Hp Hd eq_refl eq_refl
                  eq_refl eq_refl) as Hb'.
    rewrite Hout in Hb'. split; [exact Hb'|].
    cbn [disk set_fds set_disk]. by rewrite Hd, Hp, pwrite_pwrite, Hout.
Qed.

Lemma Write_loop_empty_patch fuel w b fd d0 p0 out p :
  patching w b fd d0 p0 out -> wbuf b = [] ->
  exists w' b' p',
    Writer_Write_loop (S (S fuel)) w b p = (w', b', p') /\
    patching w' (mkWriter (wr b') (wbuf b' ++ p') (wsize b') None) fd d0 p0 (out ++ p) /\
    werr b' = None /\ wsize b' = wsize b /\ wr b' = wr b.
Proof.
  intros Hb Hnil.
  pose proof Hb as (Hwr & He & Hsz & Hlen & Hfw & Hp0 & h & written & Hfd & Hc & Hp
                    & Hd & Hout).
  assert (Hw : written = out) by (by rewrite <- Hout, Hnil, app_nil_r).
  rewrite Write_loop_S. unfold Available. rewrite Hnil, He. cbn [length is_nil].
  rewrite andb_true_r.
  destruct (Z.ltb_spec (wsize b - Z.of_nat 0) (Z.of_nat (length p))) as [Hbig|Hfit].
  - cbn [Nat.eqb]. rewrite Hwr, (file_Write_at w fd h) by done.
    rewrite drop_all. rewrite Write_loop_S. unfold Available. cbn [wbuf wsize length].
    destruct (Z.ltb_spec (wsize b - Z.of_nat 0) (Z.of_nat 0)); [lia|]. cbn [andb].
    eexists _, _, _. split; [reflexivity|]. cbn [wr wbuf wsize werr app].
    split; [|done]. rewrite <- Hw.
    by apply (patching_step w b fd d0 p0 out h written p).
  - exists w, b, p. split; [done|]. split; [|done].
    rewrite Hnil. cbn [app].
    split_and!; try done; try (cbn; lia).
    exists h, written. split_and!; try done. cbn. by rewrite Hw.
Qed.

Lemma Write_loop_any_patch fuel w b fd d0 p0 out p :
  patching w b fd d0 p0 out ->
  exists w' b' p',
    Writer_Write_loop (S (S (S fuel))) w b p = (w', b', p') /\
    patching w' (mkWriter (wr b') (wbuf b' ++ p') (wsize b') None) fd d0 p0 (out ++ p) /\
    werr b' = None /\ wsize b' = wsize b /\ wr b' = wr b.
Proof.
  intros Hb.
  pose proof Hb as (Hwr & He & Hsz & Hlen & Hfw & Hp0 & h & written & Hfd & Hc & Hp
                    & Hd & Hout).
  destruct (Nat.eqb_spec (length (wbuf b)) 0) as [H0|H0].
  { apply length_zero_iff_nil in H0. by apply Write_loop_empty_patch. }
  rewrite Write_loop_S. unfold Available at 1. rewrite He. cbn [is_nil].
  rewrite andb_true_r.
  destruct (Z.ltb_spec (wsize b - Z.of_nat (length (wbuf b))) (Z.of_nat (length p)))
    as [Hbig|Hfit].
  - destruct (Nat.eqb_spec (length (wbuf b)) 0) as [?|_]; [done|].
    cbv zeta. unfold Available.
    set (m := Z.to_nat (Z.min (wsize b - Z.of_nat (length (wbuf b)))
                          (Z.of_nat (length p)))).
    assert (Hm : length (take m p) = m) by (rewrite length_take; lia).
    assert (Hb2 : patching w (mkWriter (wr b) (wbuf b ++ take m p) (wsize b) None)
                    fd d0 p0 (out ++ take m p)).
    { split_and!; try done. { cbn. rewrite length_app, Hm. lia. }
      exists h, written. split_and!; try done. cbn. by rewrite <- Hout, <- app_assoc. }
    destruct (Writer_Flush_patch _ _ _ _ _ _ Hb2) as (w1 & HF & Hb3 & Hd1).
    cbn [wr wsize] in HF, Hb3. rewrite HF.
    destruct (Write_loop_empty_patch fuel w1 _ fd _ _ _ (drop m p) Hb3 eq_refl)
      as (w' & b' & p' & -> & Hb' & He' & Hsz' & Hwr').
    exists w', b', p'. split; [done|].
    rewrite <- app_assoc, take_drop in Hb'. done.
  - exists w, b, p. split; [done|]. split; [|done].
    split_and!; try done. { cbn. rewrite length_app. lia. }
    exists h, written. split_and!; try done. cbn. by rewrite <- Hout, <- app_assoc.
Qed.

Lemma Writer_Write_patch w b fd d0 p0 out p :
  patching w b fd d0 p0 out ->
  exists w' b',
    Writer_Write w b p = (w', b', None) /\ patching w' b' fd d0 p0 (out ++ p).
Proof.
  intros Hb. unfold Writer_Write.
  destruct (Write_loop_any_patch 0 w b fd d0 p0 out p Hb)
    as (w' & b' & p' & -> & Hb' & He' & _).
  rewrite He'. by eexists _, _.
Qed.

Lemma Write_patch w i fd d0 p0 out key offset size :
  LastErr i = None -> patching w (bw i) fd d0 p0 out ->
  exists w' b',
    Write w i key offset size = (w', set_bw i b', None) /\
    patching w' b' fd d0 p0 (out ++ index_bytes key offset size).
Proof.
  intros HL Hb. unfold Write. rewrite HL.
  unfold BigEndian_WriteInt64, BigEndian_WriteUint32, BigEndian_WriteInt32,
    BigEndian_Write.
  destruct (Writer_Write_patch w (bw i) fd d0 p0 out (BigEndian.bytes 8 key) Hb)
    as (w1 & b1 & -> & Hb1).
  cbn [set_bw bw].
  destruct (Writer_Write_patch w1 b1 fd d0 p0 _ (BigEndian.bytes 4 offset) Hb1)
    as (w2 & b2 & -> & Hb2).
  cbn [set_bw bw].
  destruct (Writer_Write_patch w2 b2 fd d0 p0 _ (BigEndian.bytes 4 size) Hb2)
    as (w3 & b3 & -> & Hb3).
  cbn [set_bw bw f sigNum signal ring File LastErr signalTime].
  exists w3, b3. split; [done|].
  unfold index_bytes. by rewrite !app_assoc in *.
Qed.

Lemma merge_loop_patch fuel : forall w i fd d0 p0 out,
  LastErr i = None -> patching w (bw i) fd d0 p0 out -> ring_wf (ring i) ->
  (wn (ring i) - rn (ring i) < fuel)%nat ->
  exists w' b' r',
    merge_loop fuel w i = (w', set_ring (set_bw i b') r', None) /\
    patching w' b' fd d0 p0 (out ++ encode_all (pending (ring i))) /\
    ring_wf r' /\ pending r' = [].
Proof.
  induction fuel as [|fuel IH]; intros w i fd d0 p0 out HL Hb Hwf Hfuel; [lia|].
  cbn [merge_loop]. destruct (Ring_Get (ring i)) as [slot|e] eqn:HG.
  - destruct (pending_Get _ _ Hwf HG) as (Hp & Hwf' & Hless).
    destruct (Write_patch w i fd d0 p0 out (Key (slot_load (ring i) slot))
                (Offset (slot_load (ring i) slot)) (Size (slot_load (ring i) slot))
                HL Hb) as (w1 & b1 & -> & Hb1).
    destruct (IH w1 (set_ring (set_bw i b1) (Ring_GetAdv (ring (set_bw i b1)))) fd
                d0 p0
                (out ++ index_bytes (Key (slot_load (ring i) slot))
                          (Offset (slot_load (ring i) slot))
                          (Size (slot_load (ring i) slot))))
      as (w' & b' & r' & HM & Hb' & Hwf'' & Hp'').
    { exact HL. } { exact Hb1. } { exact Hwf'. }
    { cbn [ring set_ring set_bw] in *. lia. }
    exists w', b', r'. split; [exact HM|]. split; [|done].
    cbn [ring set_ring set_bw] in Hb'. rewrite Hp. unfold encode_all in *.
    cbn [map concat]. rewrite app_assoc. exact Hb'.
  - rewrite (pending_Get_empty _ _ Hwf HG). unfold encode_all. cbn.
    rewrite app_nil_r. exists w, (bw i), (ring i).
    destruct i. cbn in *. split; [done|]. split; [done|]. split; [done|].
    by eapply pending_Get_empty.
Qed.

(** A drain from a descriptor that stands inside the file: [merge] and
    [Flush] put the records of the ring at the descriptor's offset. *)
Lemma drain_at_offset w i fd h :
  f i = Some fd -> fds w !! fd = Some h -> h_closed h = false ->
  (h_pos h <= length (disk w))%nat ->
  LastErr i = None -> wr (bw i) = Some fd -> werr (bw i) = None ->
  wbuf (bw i) = [] -> 0 < wsize (bw i) ->
  fail_write (faults w) = None -> ring_wf (ring i) ->
  exists w1 i1 w2 i2,
    merge w i = (w1, i1, None) /\ Flush w1 i1 = (w2, i2, None) /\
    disk w2 = pwrite (disk w) (h_pos h) (encode_all (pending (ring i))) /\
    position w2 (f i2) =
      Some (h_pos h + length (encode_all (pending (ring i))))%nat /\
    pending (ring i2) = [] /\ wbuf (bw i2) = [] /\ LastErr i2 = None /\
    f i2 = f i.
Proof.
  intros Hf Hfd Hc Hpos HL Hwr He Hbuf Hsz Hfw Hwf.
  assert (Hb : patching (emit w CallMerge) (bw i) fd (disk w) (h_pos h) []).
  { split_and!; try done. { rewrite Hbuf. cbn. lia. }
    exists h, [].
    split_and!;
      first [done | cbn; lia | cbn [disk emit]; by rewrite pwrite_nil | by rewrite Hbuf]. }
  unfold merge.
  destruct (merge_loop_patch _ _ i fd _ _ _ HL Hb Hwf (Nat.lt_succ_diag_r _))
    as (w1 & b1 & r1 & HM & Hb1 & Hwf1 & Hp1).
  cbn [app] in Hb1. rewrite HM.
  assert (Hb1' : patching (emit w1 CallFlush) b1 fd (disk w) (h_pos h)
                   (encode_all (pending (ring i)))) by exact Hb1.
  destruct (Writer_Flush_patch _ _ _ _ _ _ Hb1') as (w2 & HF & Hb2 & Hd2).
  eexists _, _, _, _. split; [reflexivity|]. split.
  { unfold Flush. cbn [LastErr set_ring set_bw bw]. rewrite HL, HF. reflexivity. }
  cbn [f bw ring LastErr set_bw set_ring wbuf position].
  destruct Hb2 as (_ & _ & _ & _ & _ & _ & h2 & written & Hfd2 & _ & Hp2 & _ & Hw2).
  cbn [wbuf] in Hw2. rewrite app_nil_r in Hw2. subst written.
  rewrite Hf. cbn [position]. rewrite Hfd2. cbn. rewrite Hp2.
  by split_and!.
Qed.

(** [Recovery] on a file of complete valid records and a short tail, with
    the world it leaves. *)
Lemma Recovery_records NeedleMaxSize {S : Type}
    (fn : S -> Index -> S * option error) w i fd h st chunks tail :
  f i = Some fd -> fds w !! fd = Some h -> h_closed h = false ->
  fail_seek (faults w) = None -> fail_read (faults w) = None ->
  disk w = concat chunks ++ tail ->
  Forall (valid_chunk NeedleMaxSize) chunks ->
  (length tail < 16)%nat ->
  (forall st ix, snd (fn st ix) = None) ->
  exists w',
    Recovery NeedleMaxSize fn w i st =
      (w', i, deliver fn st (map parse chunks), None) /\
    fds w' !! fd = Some (mkHandle (length (concat chunks)) false) /\
    disk w' = disk w /\ faults w' = faults w.
Proof.
  intros Hf Hfd Hc Hfs Hfr Hdisk Hv Htail Hfn.
  destruct (Scan_records NeedleMaxSize (Recovery_fn fn) w i fd h (0, st) chunks tail)
    as (w1 & HS & Hd & E); try done.
  { apply accepted_Recovery_fn. by apply accepted_always. }
  destruct (evolves_live _ w w1 fd h E Hfd Hc) as (h1 & Hfd1 & Hc1).
  assert (HF : faults w1 = faults w) by apply E.
  unfold Recovery. rewrite Hf, HS. rewrite deliver_Recovery_fn.
  cbv beta iota zeta. rewrite Hf.
  rewrite (file_Seek_live w1 fd h1) by (done || congruence || lia).
  eexists. split; [reflexivity|].
  cbn [fds disk faults log_if set_fds emit].
  rewrite list_lookup_insert_eq by (by eapply lookup_lt_Some).
  split; [|done]. rewrite Hc1. do 2 f_equal.
  rewrite length_map, (length_concat_chunks NeedleMaxSize) by done. lia.
Qed.

(** X15. Recovery makes room for what comes next.  On a file of N complete
    valid records followed by a torn tail of fewer than sixteen bytes,
    after [Recovery] a drain of the ring ([merge], then [Flush]) writes the
    pending records right behind the N records, over the tail: with at
    least one pending record the file is then the N records followed by the
    pending ones, and nothing else. *)
Theorem recovery_then_append NeedleMaxSize {S : Type}
    (fn : S -> Index -> S * option error) w i fd h st chunks tail :
  f i = Some fd -> fds w !! fd = Some h -> h_closed h = false ->
  fail_seek (faults w) = None -> fail_read (faults w) = None ->
  fail_write (faults w) = None ->
  disk w = concat chunks ++ tail ->
  Forall (valid_chunk NeedleMaxSize) chunks ->
  (length tail < 16)%nat ->
  (forall st ix, snd (fn st ix) = None) ->
  LastErr i = None -> wr (bw i) = Some fd -> werr (bw i) = None ->
  wbuf (bw i) = [] -> 0 < wsize (bw i) -> ring_wf (ring i) ->
  exists w1 w2 i2 w3 i3,
    Recovery NeedleMaxSize fn w i st =
      (w1, i, deliver fn st (map parse chunks), None) /\
    merge w1 i = (w2, i2, None) /\ Flush w2 i2 = (w3, i3, None) /\
    disk w3 =
      concat chunks ++ encode_all (pending (ring i)) ++
      drop (16 * length (pending (ring i))) tail /\
    (pending (ring i) <> [] ->
     disk w3 = concat chunks ++ encode_all (pending (ring i))).
Proof.
  intros Hf Hfd Hc Hfs Hfr Hfw Hdisk Hv Htail Hfn HL Hwr He Hbuf Hsz Hwf.
  destruct (Recovery_records NeedleMaxSize fn w i fd h st chunks tail)
    as (w1 & HR & Hfd1 & Hd1 & HF1); try done.
  destruct (drain_at_offset w1 i fd _ Hf Hfd1 eq_refl) as
    (w2 & i2 & w3 & i3 & HM & HFl & Hd3 & _); try done.
  { cbn [h_pos]. rewrite Hd1, Hdisk, length_app. lia. }
  { congruence. }
  assert (Hlen : length (encode_all (pending (ring i))) =
                 (16 * length (pending (ring i)))%nat).
  { unfold encode_all. generalize (pending (ring i)). intros l.
    induction l as [|ix l IH]; [done|].
    cbn [map concat length]. rewrite length_app, length_index_bytes, IH.
    change indexSize with 16%nat. lia. }
  assert (Hd : disk w3 =
    concat chunks ++ encode_all (pending (ring i)) ++
    drop (16 * length (pending (ring i))) tail).
  { rewrite Hd3. cbn [h_pos]. rewrite pwrite_inside
      by (rewrite Hd1, Hdisk, length_app; lia).
    rewrite Hd1, Hdisk, take_app_length, Hlen.
    by rewrite drop_app_add'. }
  exists w1, w2, i2, w3, i3. split_and!; try done.
  intros Hne. rewrite Hd. rewrite drop_ge, app_nil_r; [done|].
  destruct (pending (ring i)); [done|]. cbn [length]. lia.
Qed.

Lemma recovery_then_append_witness :
  exists w1 w2 i2 w3 i3,
    Recovery MiB collect world_tail indexer2 [] =
      (w1, indexer2, [mkIndex 1 0 100; mkIndex 2 128 200], None) /\
    merge w1 indexer2 = (w2, i2, None) /\ Flush w2 i2 = (w3, i3, None) /\
    disk w3 = index_bytes 1 0 100 ++ index_bytes 2 128 200 ++
              index_bytes 1 0 100 ++ index_bytes 2 128 200.
Proof.
  destruct (recovery_then_append MiB collect world_tail indexer2 0%nat
              (mkHandle 0 false) []
              [index_bytes 1 0 100; index_bytes 2 128 200]
              [x00; x00; x00; x00; x03])
    as (w1 & w2 & i2 & w3 & i3 & HR & HM & HF & _ & Hd); try reflexivity.
  - constructor; [|constructor; [|constructor]];
      (split; [reflexivity|vm_compute; split; discriminate]).
  - cbn. lia.
  - vm_compute. split; [reflexivity|]. split; lia.
  - exists w1, w2, i2, w3, i3. split; [exact HR|]. split; [exact HM|].
    split; [exact HF|]. rewrite Hd; [reflexivity|]. vm_compute. discriminate.
Defined.

(** ** Writing without Recovery *)

Lemma Add_returns_nil w i key offset size i' :
  Add w i key offset size = Returns (i', None) -> ring_wf (ring i) ->
  f i' = f i /\ bw i' = bw i /\ LastErr i' = None /\ ring_wf (ring i') /\
  pending (ring i') = pending (ring i) ++ [mkIndex key offset size].
Proof.
  intros HA Hwf. unfold Add in HA. destruct (LastErr i) eqn:HL; [done|].
  match type of HA with
  | match ?x with Returns _ => _ | Panics => _ end = _ => set (woken := x) in HA
  end.
  assert (Hw : woken = Panics \/
               exists i1, woken = Returns i1 /\ ring i1 = ring i /\ bw i1 = bw i /\
                          f i1 = f i /\ LastErr i1 = LastErr i).
  { unfold woken. destruct (_ || _); [|right; by exists i].
    destruct (chan_try_send _ _); [right|right|by left]; eexists; by split. }
  clearbody woken. destruct Hw as [->|(i1 & -> & Hr & Hbw & Hf1 & HL1)]; [done|].
  destruct (Ring_Set (ring i1)) as [slot|e] eqn:HS; [|done].
  injection HA as <-. rewrite Hr in HS.
  destruct (pending_Set (ring i) slot (mkIndex key offset size) Hwf HS) as (Hp & Hwf').
  cbn [f bw LastErr ring set_ring]. rewrite Hr. split_and!; try done. congruence.
Qed.

Lemma run_adds acts : forall w i w' i',
  Forall no_turn acts -> run acts w i = Some (w', i') ->
  LastErr i = None -> ring_wf (ring i) ->
  f i' = f i /\ bw i' = bw i /\ LastErr i' = None /\ ring_wf (ring i') /\
  pending (ring i') = pending (ring i) ++ submitted acts /\
  fds w' = fds w /\ disk w' = disk w /\ faults w' = faults w.
Proof.
  induction acts as [|a acts IH]; intros w i w' i' Hno; cbn [run submitted].
  { intros [= <- <-] HL Hwf. by rewrite app_nil_r. }
  apply Forall_cons in Hno. destruct Hno as [Ha Hno].
  destruct a as [key offset size| |d]; [| done |].
  - destruct (Add w i key offset size) as [[i1 [e|]]|] eqn:HA; try done.
    intros HR HL Hwf.
    destruct (Add_returns_nil _ _ _ _ _ _ HA Hwf) as (Hf1 & Hb1 & HL1 & Hwf1 & Hp1).
    destruct (IH _ _ _ _ Hno HR HL1 Hwf1) as (? & ? & ? & ? & Hp & ? & ? & ?).
    split_and!; try congruence. rewrite Hp, Hp1, <- app_assoc. done.
  - intros HR HL Hwf. by destruct (IH _ _ _ _ Hno HR HL Hwf) as (? & ? & ? & ? & ? & ? & ? & ?).
Qed.

Lemma NewIndexer_opened NeedleMaxSize w file cap w' i :
  NewIndexer NeedleMaxSize w file cap = (w', inl i) ->
  f i = Some (length (fds w)) /\ fds w' = fds w ++ [mkHandle 0 false].
Proof.
  unfold NewIndexer, os_OpenFile.
  destruct (fail_open (faults w)); [done|].
  destruct (file_Stat _ _) as [size [e|]]; [done|].
  destruct (if size =? 0 then _ else _); [done|]. by intros [= <- <-].
Qed.

Lemma length_encode_all ixs : length (encode_all ixs) = (16 * length ixs)%nat.
Proof.
  unfold encode_all. induction ixs as [|ix l IH]; [done|].
  cbn [map concat length]. rewrite length_app, length_index_bytes, IH.
  change indexSize with 16%nat. lia.
Qed.

(** X16. [NewIndexer] opens the file without [O_APPEND] and does not seek:
    on a file that already holds bytes, the records added before the first
    turn of the loop are written from offset 0 by the first drain ([merge],
    then [Flush]), over what the file had there - unless [Recovery] has
    moved the offset first. *)
Theorem new_indexer_writes_from_start NeedleMaxSize w0 file cap w1 i1 acts w2 i2 :
  fail_write (faults w0) = None ->
  NewIndexer NeedleMaxSize w0 file cap = (w1, inl i1) ->
  Forall no_turn acts ->
  run acts w1 i1 = Some (w2, i2) ->
  exists w3 i3 w4 i4,
    merge w2 i2 = (w3, i3, None) /\ Flush w3 i3 = (w4, i4, None) /\
    disk w4 =
      encode_all (submitted acts) ++
      drop (16 * length (submitted acts)) (disk w0) /\
    position w4 (f i4) = Some (16 * length (submitted acts))%nat.
Proof.
  intros Hfw HN Hno HR.
  destruct (NewIndexer_established _ _ _ _ _ _ HN)
    as (_ & Hring & _ & HL & _ & Hwr & Hbuf & He & Hsz).
  destruct (NewIndexer_opened _ _ _ _ _ _ HN) as (Hf & Hfds).
  destruct (NewIndexer_faults _ _ _ _ _ _ HN) as (HF & Hd & _).
  destruct (NewRing_wf cap) as [Hwf Hpe]. rewrite <- Hring in Hwf, Hpe.
  destruct (run_adds _ _ _ _ _ Hno HR HL Hwf)
    as (Hf2 & Hb2 & HL2 & Hwf2 & Hp2 & Hfds2 & Hd2 & HF2).
  rewrite Hpe in Hp2. cbn [app] in Hp2.
  destruct (drain_at_offset w2 i2 (length (fds w0)) (mkHandle 0 false))
    as (w3 & i3 & w4 & i4 & HM & HFl & Hd4 & Hp4 & _); try done;
    try congruence.
  - rewrite Hfds2, Hfds. by rewrite lookup_app_r, Nat.sub_diag.
  - cbn. lia.
  - rewrite Hb2, Hsz. destruct (NeedleMaxSize <=? 0) eqn:E; [done|].
    apply Z.leb_gt in E. lia.
  - exists w3, i3, w4, i4. split; [done|]. split; [done|].
    rewrite Hp2 in Hd4, Hp4. rewrite length_encode_all in Hp4. cbn [h_pos] in *.
    split; [|done].
    rewrite Hd4, pwrite_inside by lia. cbn [take app Nat.add].
    by rewrite length_encode_all, Hd2, Hd.
Qed.

Lemma new_indexer_writes_from_start_witness :
  exists w1 i1 w2 i2 w3 i3 w4 i4,
    NewIndexer MiB world_old "index" 4 = (w1, inl i1) /\
    run [DoAdd 7 512 700] w1 i1 = Some (w2, i2) /\
    merge w2 i2 = (w3, i3, None) /\ Flush w3 i3 = (w4, i4, None) /\
    disk w4 = index_bytes 7 512 700 ++ index_bytes 2 128 200 ++ index_bytes 3 384 300.
Proof.
  eassert (HN : NewIndexer MiB world_old "index" 4 = (_, inl _))
    by (vm_compute; reflexivity).
  match type of HN with
  | _ = (?w1, inl ?i1) =>
      eassert (HR : run [DoAdd 7 512 700] w1 i1 = Some (_, _))
        by (vm_compute; reflexivity)
  end.
  destruct (new_indexer_writes_from_start MiB world_old "index" 4 _ _
              [DoAdd 7 512 700] _ _ eq_refl HN
              (Forall_cons_2 no_turn (DoAdd 7 512 700) [] I (Forall_nil_2 _)) HR)
    as (w3 & i3 & w4 & i4 & HM & HF & Hd & _).
  eexists _, _, _, _, w3, i3, w4, i4.
  split; [exact HN|]. split; [exact HR|]. split; [exact HM|]. split; [exact HF|].
  rewrite Hd. vm_compute. reflexivity.
Defined.

(** ** From bytes to a record and back *)

Lemma fold_be_range (l : list byte) : forall a k,
  0 <= k -> 0 <= a < 256 ^ k ->
  0 <= fold_left (fun acc b => acc * 256 + Z_of_byte b) l a
    < 256 ^ (k + Z.of_nat (length l)).
Proof.
  induction l as [|b l IH]; intros a k Hk Ha.
  { cbn [fold_left length]. by rewrite Z.add_0_r. }
  cbn [fold_left length].
  replace (k + Z.of_nat (S (length l))) with (Z.succ k + Z.of_nat (length l)) by lia.
  apply IH; [lia|]. rewrite Z.pow_succ_r by lia.
  pose proof (Z_of_byte_range b). lia.
Qed.

Lemma Uint_range n buf : 0 <= BigEndian.Uint n buf < 256 ^ Z.of_nat n.
Proof.
  unfold BigEndian.Uint.
  pose proof (fold_be_range (take n buf) 0 0 (Z.le_refl 0)) as H.
  specialize (H ltac:(cbn; lia)). rewrite Z.add_0_l in H.
  assert (Hl : (length (take n buf) <= n)%nat) by (rewrite length_take; lia).
  assert (256 ^ Z.of_nat (length (take n buf)) <= 256 ^ Z.of_nat n)
    by (apply Z.pow_le_mono_r; lia).
  lia.
Qed.

Lemma byte_of_Z_mod z : byte_of_Z (z mod 256) = byte_of_Z z.
Proof. unfold byte_of_Z. by rewrite Z.mod_mod by lia. Qed.

Lemma byte_of_Z_of_byte b : byte_of_Z (Z_of_byte b) = b.
Proof.
  unfold byte_of_Z. rewrite Z.mod_small by apply Z_of_byte_range.
  unfold Z_of_byte. rewrite N2Z.id. by rewrite Byte.of_to_N.
Qed.

Lemma bytes_fold_be (l : list byte) :
  BigEndian.bytes (length l)
    (fold_left (fun acc b => acc * 256 + Z_of_byte b) l 0) = l.
Proof.
  induction l as [|b l IH] using rev_ind; [done|].
  rewrite length_app, Nat.add_1_r. cbn [length BigEndian.bytes].
  rewrite fold_left_app. cbn [fold_left].
  pose proof (Z_of_byte_range b) as Hb.
  set (u := fold_left _ l 0) in *.
  replace ((u * 256 + Z_of_byte b) / 256) with u
    by (rewrite Z.div_add_l, (Z.div_small (Z_of_byte b)) by lia; lia).
  rewrite IH. f_equal. f_equal.
  rewrite <- byte_of_Z_mod.
  replace ((u * 256 + Z_of_byte b) mod 256) with (Z_of_byte b)
    by (rewrite Z.add_comm, Z.mod_add, Z.mod_small by lia; done).
  apply byte_of_Z_of_byte.
Qed.

Lemma bytes_Uint n buf :
  (n <= length buf)%nat -> BigEndian.bytes n (BigEndian.Uint n buf) = take n buf.
Proof.
  intros H. unfold BigEndian.Uint.
  assert (Hl : length (take n buf) = n) by (rewrite length_take; lia).
  rewrite <- Hl at 1. apply bytes_fold_be.
Qed.

Lemma bytes_sub n v :
  BigEndian.bytes n (v - 256 ^ Z.of_nat n) = BigEndian.bytes n v.
Proof.
  revert v. induction n as [|n IH]; intros v; [done|].
  cbn [BigEndian.bytes]. rewrite Nat2Z.inj_succ, Z.pow_succ_r by lia.
  replace ((v - 256 * 256 ^ Z.of_nat n) / 256) with (v / 256 - 256 ^ Z.of_nat n).
  2:{ replace (v - 256 * 256 ^ Z.of_nat n) with (v + (- 256 ^ Z.of_nat n) * 256) by lia.
      rewrite Z.div_add by lia. lia. }
  rewrite IH. f_equal. f_equal.
  rewrite <- byte_of_Z_mod, <- (byte_of_Z_mod v). f_equal.
  replace (v - 256 * 256 ^ Z.of_nat n) with (v + (- 256 ^ Z.of_nat n) * 256) by lia.
  by rewrite Z.mod_add by lia.
Qed.

Lemma to_signed_range w u :
  0 < w -> 0 <= u < 2 ^ w -> - 2 ^ (w - 1) <= to_signed w u < 2 ^ (w - 1).
Proof.
  intros Hw Hu. unfold to_signed.
  assert (E : 2 ^ w = 2 * 2 ^ (w - 1)).
  { replace w with (Z.succ (w - 1)) at 1 by lia. rewrite Z.pow_succ_r; lia. }
  destruct (Z.ltb_spec u (2 ^ (w - 1))); lia.
Qed.

(** X17. Every sixteen bytes are a record: [parse] of a sixteen-byte buffer
    gives fields within their Go types, and the sixteen bytes that [Write]
    produces for these fields are the buffer again: on sixteen-byte buffers
    [parse] is one-to-one, and a scan followed by a rewrite of what it
    delivered reproduces the scanned bytes. *)
Theorem parse_then_encode c :
  length c = indexSize ->
  typed (parse c) /\
  index_bytes (Key (parse c)) (Offset (parse c)) (Size (parse c)) = c.
Proof.
  change indexSize with 16%nat. intros Hc. split.
  - unfold typed, parse, in_int64, in_uint32, in_int32. cbn [Key Offset Size].
    unfold BigEndian.Int64, BigEndian.Uint32, BigEndian.Int32. split; [|split].
    + change (2 ^ 63) with (2 ^ (64 - 1)). apply to_signed_range; [lia|].
      change (2 ^ 64) with (256 ^ Z.of_nat 8). apply Uint_range.
    + change (2 ^ 32) with (256 ^ Z.of_nat 4). apply Uint_range.
    + change (2 ^ 31) with (2 ^ (32 - 1)). apply to_signed_range; [lia|].
      change (2 ^ 32) with (256 ^ Z.of_nat 4). apply Uint_range.
  - unfold index_bytes, parse. cbn [Key Offset Size].
    unfold BigEndian.Int64, BigEndian.Uint32, BigEndian.Int32, to_signed.
    change indexOffsetOffset with 8%nat. change indexSizeOffset with 12%nat.
    change (2 ^ 64) with (256 ^ Z.of_nat 8). change (2 ^ 32) with (256 ^ Z.of_nat 4).
    assert (E8 : BigEndian.bytes 8
                   (if BigEndian.Uint 8 c <? 2 ^ (64 - 1) then BigEndian.Uint 8 c
                    else BigEndian.Uint 8 c - 256 ^ Z.of_nat 8) = take 8 c).
    { destruct (_ <? _); rewrite ?bytes_sub; apply bytes_Uint; lia. }
    assert (E4 : BigEndian.bytes 4 (BigEndian.Uint 4 (drop 8 c)) = take 4 (drop 8 c)).
    { apply bytes_Uint. rewrite length_drop. lia. }
    assert (E4' : BigEndian.bytes 4
                    (if BigEndian.Uint 4 (drop 12 c) <? 2 ^ (32 - 1)
                     then BigEndian.Uint 4 (drop 12 c)
                     else BigEndian.Uint 4 (drop 12 c) - 256 ^ Z.of_nat 4) =
                  take 4 (drop 12 c)).
    { destruct (BigEndian.Uint 4 (drop 12 c) <? _); rewrite ?bytes_sub;
        apply bytes_Uint; rewrite length_drop; lia. }
    rewrite E8, E4, E4'.
    rewrite (take_ge (drop 12 c)) by (rewrite length_drop; lia).
    replace (drop 12 c) with (drop 4 (drop 8 c)) by (by rewrite drop_drop).
    by rewrite !take_drop.
Qed.

Lemma parse_then_encode_witness :
  typed (parse (index_bytes (-1) 4294967295 (-2147483648))) /\
  index_bytes (Key (parse (index_bytes (-1) 4294967295 (-2147483648))))
    (Offset (parse (index_bytes (-1) 4294967295 (-2147483648))))
    (Size (parse (index_bytes (-1) 4294967295 (-2147483648)))) =
  index_bytes (-1) 4294967295 (-2147483648).
Proof.
  apply (parse_then_encode (index_bytes (-1) 4294967295 (-2147483648))).
  reflexivity.
Defined.

(** ** What a failing device can cost

    On whatever device, the bytes in the file are a prefix of the bytes the
    instance was given to write: a failed write stops the stream where it
    fails, and nothing is written behind a failure. *)

Lemma prefix_of_app_take {A : Type} (l m : list A) k : l ++ take k m `prefix_of` l ++ m.
Proof. exists (drop k m). by rewrite <- app_assoc, take_drop. Qed.

Lemma file_Write_end w fd h p w' n err :
  fds w !! fd = Some h -> h_closed h = false -> h_pos h = length (disk w) ->
  file_Write w (Some fd) p = (w', n, err) ->
  disk w' = disk w ++ take n p /\ (err = None -> n = length p) /\
  fds w' !! fd = Some (mkHandle (length (disk w')) false) /\
  faults w' = faults w.
Proof.
  intros Hfd Hc Hp. unfold file_Write, on_file. rewrite Hfd, Hc, Hp.
  cbn [disk emit fds set_disk]. rewrite pwrite_end.
  intros [= <- <- <-]. cbn [disk fds faults set_fds set_disk emit].
  rewrite list_lookup_insert_eq by (by eapply lookup_lt_Some).
  rewrite length_app.
  destruct (fail_write (faults w)) as [[k e]|].
  - split_and!; try done. f_equal. rewrite length_take.
    destruct (Nat.le_ge_cases k (length p)) as [Hk|Hk].
    + by rewrite Nat.min_l.
    + by rewrite Nat.min_r, !take_ge by lia.
  - rewrite firstn_all. by split_and!.
Qed.

Lemma Writer_Flush_hold w b fd w' b' err :
  at_end w b fd -> werr b = None ->
  Writer_Flush w b = (w', b', err) ->
  at_end w' b' fd /\ faults w' = faults w /\
  match err with
  | None => werr b' = None /\ wbuf b' = [] /\ disk w' = disk w ++ wbuf b
  | Some e => werr b' = Some e /\ exists k, disk w' = disk w ++ take k (wbuf b)
  end.
Proof.
  intros [Hwr (h & Hfd & Hc & Hp)] He. unfold Writer_Flush. rewrite He.
  destruct (Nat.eqb_spec (length (wbuf b)) 0) as [H0|H0].
  { intros [= <- <- <-]. apply length_zero_iff_nil in H0.
    split; [split; [done|by exists h]|]. split; [done|].
    by rewrite H0, app_nil_r. }
  rewrite Hwr.
  destruct (file_Write w (Some fd) (wbuf b)) as [[w1 n] err1] eqn:HW.
  destruct (file_Write_end _ _ _ _ _ _ _ Hfd Hc Hp HW) as (Hd & Hn & Hfd1 & HF).
  assert (Hat : forall b1, wr b1 = Some fd -> at_end w1 b1 fd).
  { intros b1 H1. split; [done|]. eexists. by split_and!. }
  destruct err1 as [e1|]; cbn [is_nil andb].
  - rewrite andb_false_r. intros [= <- <- <-].
    split; [by apply Hat|]. split; [done|]. split; [done|]. by exists n.
  - specialize (Hn eq_refl). subst n. rewrite Nat.ltb_irrefl. cbn [andb].
    intros [= <- <- <-]. split; [by apply Hat|]. split; [done|].
    split; [done|]. split; [done|]. by rewrite Hd, firstn_all.
Qed.

Lemma Write_loop_hold fd R T fuel : forall w b p w' b' p',
  at_end w b fd -> disk w `prefix_of` T ->
  (werr b = None -> disk w ++ wbuf b ++ p ++ R = T) ->
  Writer_Write_loop fuel w b p = (w', b', p') ->
  at_end w' b' fd /\ faults w' = faults w /\
  disk w `prefix_of` disk w' /\ disk w' `prefix_of` T /\
  (werr b' = None -> disk w' ++ wbuf b' ++ p' ++ R = T).
Proof.
  induction fuel as [|fuel IH]; intros w b p w' b' p' Hat Hpre Heq.
  { intros [= <- <- <-]. by split_and!. }
  rewrite Write_loop_S.
  destruct ((Available b <? Z.of_nat (length p)) && is_nil (werr b)) eqn:Hcond.
  2:{ intros [= <- <- <-]. by split_and!. }
  apply andb_true_iff in Hcond. destruct Hcond as [_ He].
  assert (He' : werr b = None) by (by destruct (werr b)).
  specialize (Heq He').
  pose proof Hat as [Hwr (h & Hfd & Hc & Hp)].
  destruct (Nat.eqb_spec (length (wbuf b)) 0) as [H0|H0].
  - apply length_zero_iff_nil in H0. rewrite H0 in Heq. cbn [app] in Heq.
    rewrite Hwr.
    destruct (file_Write w (Some fd) p) as [[w1 n] err1] eqn:HW.
    destruct (file_Write_end _ _ _ _ _ _ _ Hfd Hc Hp HW) as (Hd & Hn & Hfd1 & HF).
    intros HL. apply IH in HL.
    + destruct HL as (Hat' & HF' & Hp1 & Hp2 & Heq').
      split; [done|]. split; [congruence|]. split; [|done].
      etrans; [|exact Hp1]. rewrite Hd. by apply prefix_app_r.
    + split; [done|]. eexists. by split_and!.
    + rewrite Hd, <- Heq. rewrite <- (take_drop n p) at 2.
      rewrite <- !app_assoc. apply prefix_app, prefix_app_r. done.
    + cbn [werr wbuf]. intros ->. specialize (Hn eq_refl). subst n.
      rewrite Hd, H0, firstn_all, drop_all. cbn [app].
      by rewrite <- Heq, <- app_assoc.
  - cbv zeta.
    set (m := Z.to_nat (Z.min (Available b) (Z.of_nat (length p)))).
    assert (Heq2 : disk w ++ wbuf b ++ take m p ++ drop m p ++ R = T)
      by (by rewrite (app_assoc (take m p)), take_drop).
    destruct (Writer_Flush w (mkWriter (wr b) (wbuf b ++ take m p) (wsize b) (werr b)))
      as [[w1 b1] err1] eqn:HFl.
    apply Writer_Flush_hold with (fd := fd) in HFl; [|by split; [|exists h]|done].
    destruct HFl as (Hat1 & HF & Herr). cbn [wbuf] in Herr.
    intros HL. apply IH in HL.
    + destruct HL as (Hat' & HF' & Hp1 & Hp2 & Heq').
      split; [done|]. split; [congruence|]. split; [|done].
      etrans; [|exact Hp1].
      destruct err1 as [e|]; [destruct Herr as (_ & k & ->)|destruct Herr as (_ & _ & ->)];
        by apply prefix_app_r.
    + done.
    + rewrite <- Heq2.
      destruct err1 as [e|]; [destruct Herr as (_ & k & ->)|destruct Herr as (_ & _ & ->)].
      * apply prefix_app. rewrite !app_assoc. do 2 apply prefix_app_r.
        exists (drop k (wbuf b ++ take m p)). by rewrite take_drop.
      * do 2 apply prefix_app. by apply prefix_app_r.
    + intros He1. destruct err1 as [e|]; [destruct Herr as [? _]; congruence|].
      destruct Herr as (_ & -> & ->). cbn [app].
      by rewrite <- Heq2, <- !app_assoc.
Qed.

Lemma Writer_Write_hold fd R T w b p w' b' err :
  at_end w b fd -> disk w `prefix_of` T ->
  (werr b = None -> disk w ++ wbuf b ++ p ++ R = T) ->
  Writer_Write w b p = (w', b', err) ->
  at_end w' b' fd /\ faults w' = faults w /\
  disk w `prefix_of` disk w' /\ disk w' `prefix_of` T /\
  (err = None -> werr b' = None /\ disk w' ++ wbuf b' ++ R = T).
Proof.
  intros Hat Hpre Heq. unfold Writer_Write.
  destruct (Writer_Write_loop 3 w b p) as [[w1 b1] p1] eqn:HL.
  apply (Write_loop_hold fd R T) in HL; try done.
  destruct HL as (Hat1 & HF & Hp1 & Hp2 & Heq1).
  destruct (werr b1) as [e|] eqn:He1.
  - intros [= <- <- <-]. by split_and!.
  - intros [= <- <- <-]. split.
    { destruct Hat1 as [? ?]. by split. }
    split; [done|]. split; [done|]. split; [done|].
    intros _. split; [done|]. cbn [wbuf]. rewrite <- app_assoc. by apply Heq1.
Qed.

Lemma Write_hold fd R T w i key offset size w' i' err :
  at_end w (bw i) fd -> disk w `prefix_of` T ->
  (LastErr i = None ->
   werr (bw i) = None /\
   disk w ++ wbuf (bw i) ++ index_bytes key offset size ++ R = T) ->
  Write w i key offset size = (w', i', err) ->
  at_end w' (bw i') fd /\ faults w' = faults w /\
  disk w `prefix_of` disk w' /\ disk w' `prefix_of` T /\
  match err with
  | None => LastErr i' = None /\ werr (bw i') = None /\
            disk w' ++ wbuf (bw i') ++ R = T
  | Some e => LastErr i' = Some e
  end.
Proof.
  intros Hat Hpre Heq. unfold Write.
  destruct (LastErr i) as [e0|] eqn:HL.
  { intros [= <- <- <-]. by split_and!. }
  destruct (Heq eq_refl) as [He HT]. clear Heq.
  unfold BigEndian_WriteInt64, BigEndian_WriteUint32, BigEndian_WriteInt32,
    BigEndian_Write, index_bytes in *.
  rewrite <- !app_assoc in HT.
  destruct (Writer_Write w (bw i) (BigEndian.bytes 8 key)) as [[w1 b1] e1] eqn:H1.
  apply (Writer_Write_hold fd
           (BigEndian.bytes 4 offset ++ BigEndian.bytes 4 size ++ R) T) in H1;
    try done.
  destruct H1 as (Hat1 & HF1 & Hp1 & Hq1 & Hk1).
  destruct e1 as [e1|].
  { intros [= <- <- <-]. cbn [bw set_bw set_LastErr LastErr]. by split_and!. }
  destruct (Hk1 eq_refl) as [He1 HT1].
  cbn [bw set_bw].
  destruct (Writer_Write w1 b1 (BigEndian.bytes 4 offset)) as [[w2 b2] e2] eqn:H2.
  apply (Writer_Write_hold fd (BigEndian.bytes 4 size ++ R) T) in H2; try done.
  destruct H2 as (Hat2 & HF2 & Hp2 & Hq2 & Hk2).
  destruct e2 as [e2|].
  { intros [= <- <- <-]. cbn [bw set_bw set_LastErr LastErr].
    split_and!; try done; [congruence|by etrans]. }
  destruct (Hk2 eq_refl) as [He2 HT2].
  cbn [bw set_bw].
  destruct (Writer_Write w2 b2 (BigEndian.bytes 4 size)) as [[w3 b3] e3] eqn:H3.
  apply (Writer_Write_hold fd R T) in H3; try done.
  destruct H3 as (Hat3 & HF3 & Hp3 & Hq3 & Hk3).
  destruct e3 as [e3|].
  { intros [= <- <- <-]. cbn [bw set_bw set_LastErr LastErr].
    split_and!; try done; [congruence|by do 2 (etrans; [eassumption|])]. }
  destruct (Hk3 eq_refl) as [He3 HT3].
  intros [= <- <- <-]. cbn [bw set_bw set_LastErr LastErr].
  split_and!; try done; [congruence|by do 2 (etrans; [eassumption|])].
Qed.

Lemma merge_loop_hold fd T fuel : forall w i w' i' err,
  holding w i fd T -> merge_loop fuel w i = (w', i', err) ->
  holding w' i' fd T /\ faults w' = faults w /\ disk w `prefix_of` disk w'.
Proof.
  induction fuel as [|fuel IH]; intros w i w' i' err Hh; cbn [merge_loop].
  { by intros [= <- <- <-]. }
  destruct (Ring_Get (ring i)) as [slot|e0] eqn:HG; [|by intros [= <- <- <-]].
  destruct Hh as (Hf & Hat & Hwf & Hpre & Heq).
  destruct (pending_Get _ _ Hwf HG) as (Hp & Hwf' & _).
  set (ix := slot_load (ring i) slot) in *.
  destruct (Write w i (Key ix) (Offset ix) (Size ix)) as [[w1 i1] e1] eqn:HW.
  pose proof (Write_evolves _ _ _ _ _ _ _ _ HW) as (_ & Hf1 & _ & Hr1).
  apply (Write_hold fd (encode_all (pending (Ring_GetAdv (ring i)))) T) in HW;
    try done.
  2:{ intros HL. destruct (Heq HL) as [He HT]. split; [done|].
      rewrite Hp in HT. exact HT. }
  destruct HW as (Hat1 & HF1 & Hp1 & Hq1 & Hk1).
  destruct e1 as [e1|].
  - intros [= <- <- <-]. split; [|by split].
    split; [congruence|]. split; [done|]. split; [congruence|]. split; [done|].
    intros HL. congruence.
  - destruct Hk1 as (HL1 & He1 & HT1). intros HM. apply IH in HM.
    + destruct HM as (Hh' & HF' & Hp'). split; [done|]. split; [congruence|].
      by etrans.
    + split; [by cbn; congruence|]. split; [done|]. cbn [ring set_ring bw].
      rewrite Hr1. split; [done|]. split; [done|]. done.
Qed.

Lemma merge_hold fd T w i w' i' err :
  holding w i fd T -> merge w i = (w', i', err) ->
  holding w' i' fd T /\ faults w' = faults w /\ disk w `prefix_of` disk w'.
Proof.
  intros Hh. unfold merge.
  assert (Hh' : holding (emit w CallMerge) i fd T) by exact Hh.
  intros HM. by apply (merge_loop_hold fd T) in HM.
Qed.

Lemma Flush_hold fd T w i w' i' err :
  holding w i fd T -> Flush w i = (w', i', err) ->
  holding w' i' fd T /\ faults w' = faults w /\ disk w `prefix_of` disk w'.
Proof.
  intros (Hf & Hat & Hwf & Hpre & Heq). unfold Flush.
  destruct (LastErr i) as [e0|] eqn:HL.
  { intros [= <- <- <-]. split; [|by split]. split_and!; try done.
    intros ?. congruence. }
  destruct (Heq eq_refl) as [He HT].
  destruct (Writer_Flush (emit w CallFlush) (bw i)) as [[w1 b1] e1] eqn:HF.
  apply Writer_Flush_hold with (fd := fd) in HF; [|exact Hat|done].
  destruct HF as (Hat1 & HF1 & Herr). cbn [disk emit] in Herr.
  destruct e1 as [e1|].
  - destruct Herr as (He1 & k & Hd). intros [= <- <- <-].
    split; [|split; [done|cbn [disk log]; rewrite Hd; by apply prefix_app_r]].
    split; [done|]. split; [exact Hat1|]. split; [done|]. split.
    + cbn [disk log]. rewrite Hd, <- HT, app_assoc. apply prefix_app_r.
      apply prefix_of_app_take.
    + cbn. done.
  - destruct Herr as (He1 & Hb1 & Hd). intros [= <- <- <-].
    split; [|split; [done|rewrite Hd; by apply prefix_app_r]].
    split; [done|]. split; [exact Hat1|]. split; [done|]. split.
    + rewrite Hd, <- HT, app_assoc. by apply prefix_app_r.
    + intros _. cbn [bw set_bw ring]. rewrite Hb1, Hd. cbn [app].
      split; [done|]. by rewrite <- HT, <- app_assoc.
Qed.

Lemma holding_signal w i fd T c :
  holding w i fd T -> holding w (set_signal i c) fd T.
Proof. done. Qed.

Lemma write_turn_hold fd T w i :
  holding w i fd T ->
  match write_turn w i with
  | Sleeps => True
  | Again w' i' | Leaves w' i' =>
      holding w' i' fd T /\ faults w' = faults w /\ disk w `prefix_of` disk w'
  end.
Proof.
  intros Hh. unfold write_turn.
  destruct (chan_recv (signal i)) as [v c|]; [|done].
  apply (holding_signal _ _ _ _ c) in Hh.
  destruct (negb _); [done|].
  destruct (merge w (set_signal i c)) as [[w1 i1] e1] eqn:HM.
  apply (merge_hold fd T) in HM; [|done]. destruct HM as (Hh1 & HF1 & Hp1).
  destruct e1; [done|].
  destruct (Flush w1 i1) as [[w2 i2] e2] eqn:HFl.
  apply (Flush_hold fd T) in HFl; [|done]. destruct HFl as (Hh2 & HF2 & Hp2).
  destruct e2; (split; [done|split; [congruence|by etrans]]).
Qed.

Lemma write_exit_hold fd T w i w' i' :
  holding w i fd T -> write_exit w i = (w', i') ->
  disk w' `prefix_of` T /\ disk w `prefix_of` disk w' /\
  faults w' = faults w /\ f i' = Some fd /\ closed w' (Some fd) = Some true.
Proof.
  intros Hh. unfold write_exit.
  destruct (merge w i) as [[w1 i1] e1] eqn:HM.
  apply (merge_hold fd T) in HM; [|done]. destruct HM as (Hh1 & HF1 & Hp1).
  destruct (Flush w1 i1) as [[w2 i2] e2] eqn:HFl.
  apply (Flush_hold fd T) in HFl; [|done]. destruct HFl as (Hh2 & HF2 & Hp2).
  destruct Hh2 as (Hf2 & (_ & h & Hfd & Hc & _) & _ & Hpre2 & _).
  rewrite Hf2, (file_Sync_live w2 fd h) by done.
  assert (Hlt : (fd < length (fds w2))%nat) by (by eapply lookup_lt_Some).
  destruct (fail_sync (faults w2)) as [es|]; cbn [log_if];
    (erewrite (file_Close_live _ fd h) by (cbn; done));
    intros [= <- <-];
    cbn [faults fds disk log set_fds emit set_durable];
    (destruct (fail_close (faults w2)); cbn;
     rewrite list_lookup_insert_eq by done; cbn;
     (split; [done|]); (split; [by etrans|]); (split; [congruence|]); by split).
Qed.

Lemma write_loop_hold fd T fuel : forall w i w' i',
  holding w i fd T -> write_loop fuel w i = Returned w' i' ->
  disk w' `prefix_of` T /\ disk w `prefix_of` disk w' /\
  faults w' = faults w /\ f i' = Some fd /\ closed w' (Some fd) = Some true.
Proof.
  induction fuel as [|fuel IH]; intros w i w' i' Hh; cbn [write_loop]; [done|].
  pose proof (write_turn_hold fd T w i Hh) as Ht.
  destruct (write_turn w i) as [|w1 i1|w1 i1]; [done| |].
  - destruct Ht as (Hh1 & HF1 & Hp1). intros HL. apply IH in HL; [|done].
    destruct HL as (? & ? & ? & ? & ?). split_and!; try done; [by etrans|congruence].
  - destruct Ht as (Hh1 & HF1 & Hp1).
    destruct (write_exit w1 i1) as [w2 i2] eqn:HE. intros [= <- <-].
    apply (write_exit_hold fd T) in HE; [|done].
    destruct HE as (? & ? & ? & ? & ?). split_and!; try done; [by etrans|congruence].
Qed.

Lemma in_flight_holding w i fd sent fl :
  in_flight w i fd sent -> holding (set_faults w fl) i fd (encode_all sent).
Proof.
  intros (out & (Hf & HL & Hb) & Hwf & Hout & _).
  destruct Hb as (Hwr & He & _ & _ & _ & h & Hfd & Hc & Hp & Hd).
  split; [done|]. split; [split; [done|by exists h]|]. split; [done|].
  cbn [disk set_faults]. split.
  - rewrite <- Hout, <- Hd, <- app_assoc. by apply prefix_app_r.
  - intros _. split; [done|]. by rewrite app_assoc, Hd.
Qed.

(** A prefix of the encoding of a list of records is the encoding of some
    of its first records, followed by fewer than sixteen bytes. *)
Lemma prefix_encode_all ixs : forall d,
  d `prefix_of` encode_all ixs ->
  exists m tail,
    d = encode_all (take m ixs) ++ tail /\ (length tail < 16)%nat.
Proof.
  induction ixs as [|ix ixs IH]; intros d [k Hk].
  { exists 0%nat, []. symmetry in Hk. apply app_eq_nil in Hk.
    destruct Hk as [-> _]. split; [done|cbn; lia]. }
  destruct (Nat.lt_ge_cases (length d) 16) as [Hs|Hs].
  { exists 0%nat, d. by split. }
  change (encode_all (ix :: ixs)) with
    (index_bytes (Key ix) (Offset ix) (Size ix) ++ encode_all ixs) in Hk.
  assert (Hl : length (index_bytes (Key ix) (Offset ix) (Size ix)) = 16%nat)
    by apply length_index_bytes.
  assert (H1 : take 16 d = index_bytes (Key ix) (Offset ix) (Size ix)).
  { apply (f_equal (take 16)) in Hk.
    rewrite take_app_length' in Hk by done.
    rewrite take_app_le in Hk by done. done. }
  assert (H2 : drop 16 d `prefix_of` encode_all ixs).
  { exists k. apply (f_equal (drop 16)) in Hk.
    rewrite drop_app_length' in Hk by done.
    rewrite drop_app_le in Hk by done. done. }
  destruct (IH _ H2) as (m & tail & Hd & Ht).
  exists (S m), tail. split; [|done].
  rewrite <- (take_drop 16 d), H1, Hd. cbn [take].
  change (encode_all (ix :: take m ixs)) with
    (index_bytes (Key ix) (Offset ix) (Size ix) ++ encode_all (take m ixs)).
  by rewrite <- app_assoc.
Qed.

(** X18. A failing device costs a tail only.  After a run on a new file
    and a healthy device, let writes, syncs and closes fail in any way from
    now on, and shut the instance down.  [write] still returns, and the
    file it leaves is the file as it was, extended by bytes of the
    submitted records in submission order: it holds the first m submitted
    records complete, then fewer than sixteen bytes.  Reopened, [Scan]
    returns nil and delivers exactly these m records: what is lost is the
    newest records, never one in the middle. *)
Theorem write_failure_loses_a_tail NeedleMaxSize w0 file cap w1 i1 acts w2 i2 i3
    fw fs fc :
  disk w0 = [] -> fail_write (faults w0) = None ->
  fail_seek (faults w0) = None -> fail_read (faults w0) = None ->
  NewIndexer NeedleMaxSize w0 file cap = (w1, inl i1) ->
  run acts w1 i1 = Some (w2, i2) ->
  Close i2 = Returns i3 ->
  Forall typed (submitted acts) ->
  Forall (valid_size NeedleMaxSize) (submitted acts) ->
  exists w4 i4 m tail,
    write (set_faults w2 (failing_device fw fs fc)) i3 = Returned w4 i4 /\
    disk w2 `prefix_of` disk w4 /\
    disk w4 = encode_all (take m (submitted acts)) ++ tail /\
    (length tail < 16)%nat /\
    closed w4 (f i4) = Some true /\
    exists w5 i5 w6,
      Open w4 i4 = (w5, i5, None) /\
      Scan NeedleMaxSize collect w5 i5 (f i5) [] =
        (w6, i5, take m (submitted acts), None).
Proof.
  intros Hd Hfw Hfs Hfr HN HR HC Ht Hv.
  pose proof (NewIndexer_in_flight _ _ _ _ _ _ Hd Hfw Hfs Hfr HN) as H1.
  pose proof (run_in_flight _ _ _ _ _ _ _ H1 HR) as H2. cbn [app] in H2.
  set (fl := failing_device fw fs fc).
  pose proof (in_flight_holding _ _ _ _ fl H2) as Hh.
  unfold Close in HC. destruct (chan_close (signal i2)) as [c|] eqn:Hcc; [|done].
  injection HC as <-.
  assert (Hcl : cclosed c = true).
  { unfold chan_close in Hcc. destruct (cclosed (signal i2)); [done|].
    by injection Hcc as <-. }
  apply (holding_signal _ _ _ _ c) in Hh.
  destruct (write_loop_closed (S (S (length (cbuf c)))) (set_faults w2 fl)
              (set_signal i2 c)) as (wa & ia & w4 & i4 & HW & _); [done|cbn; lia|].
  pose proof (write_loop_hold _ _ _ _ _ _ _ Hh HW) as (Hp4 & Hp2 & HF4 & Hf4 & Hc4).
  destruct (prefix_encode_all _ _ Hp4) as (m & tail & Hd4 & Htail).
  exists w4, i4, m, tail. split; [exact HW|]. split; [exact Hp2|].
  split; [exact Hd4|]. split; [exact Htail|]. split; [by rewrite Hf4|].
  unfold Open, os_OpenFile. rewrite HF4. cbn [faults set_faults fl failing_device fail_open].
  eexists _, _. cbn [f set_f set_bw].
  assert (Ht' : Forall typed (take m (submitted acts))) by (by apply Forall_take).
  assert (Hv' : Forall (valid_size NeedleMaxSize) (take m (submitted acts)))
    by (by apply Forall_take).
  destruct (valid_chunks_of NeedleMaxSize _ Ht' Hv') as [Hvc Hparse].
  edestruct (Scan_records NeedleMaxSize collect
               (spawn (emit (set_fds w4 (fds w4 ++ [mkHandle 0 false]))
                         (SysOpen (length (fds w4)))))
               (set_bw (set_f (set_signal i4 (make_chan signalNum))
                          (Some (length (fds w4))))
                  (Writer_Reset (bw i4) (Some (length (fds w4)))))
               (length (fds w4)) (mkHandle 0 false) []
               (map (fun ix => index_bytes (Key ix) (Offset ix) (Size ix))
                  (take m (submitted acts))) tail) as (w6 & HS & _).
  - cbn. by rewrite lookup_app_r, Nat.sub_diag.
  - done.
  - cbn. by rewrite HF4.
  - cbn. by rewrite HF4.
  - cbn. exact Hd4.
  - done.
  - done.
  - apply accepted_always. done.
  - exists w6. split; [reflexivity|].
    rewrite deliver_collect, Hparse in HS. exact HS.
Qed.

Lemma write_failure_loses_a_tail_witness :
  exists w4 i4 m tail,
    write (set_faults (set_clock world1 31000000000)
             (failing_device (Some (20%nat, ErrIO 5)) None None))
      (set_signal indexer2_token (mkChan [indexReady] 1 true)) = Returned w4 i4 /\
    disk (set_clock world1 31000000000) `prefix_of` disk w4 /\
    disk w4 =
      encode_all (take m (submitted [DoAdd 1 0 100; DoTick 31000000000;
                                     DoAdd 2 128 200])) ++ tail /\
    (length tail < 16)%nat /\
    closed w4 (f i4) = Some true /\
    exists w5 i5 w6,
      Open w4 i4 = (w5, i5, None) /\
      Scan MiB collect w5 i5 (f i5) [] =
        (w6, i5, take m (submitted [DoAdd 1 0 100; DoTick 31000000000;
                                    DoAdd 2 128 200]), None).
Proof.
  apply (write_failure_loses_a_tail MiB world0 "index" 4 world1 indexer0
           [DoAdd 1 0 100; DoTick 31000000000; DoAdd 2 128 200]
           (set_clock world1 31000000000) indexer2_token
           (set_signal indexer2_token (mkChan [indexReady] 1 true))
           (Some (20%nat, ErrIO 5)) None None);
    try reflexivity.
  - cbn [submitted].
    repeat (constructor;
            [unfold typed, in_int64, in_uint32, in_int32; cbn; lia|]).
    constructor.
  - cbn [submitted].
    repeat (constructor; [unfold valid_size, MiB; cbn; lia|]).
    constructor.
Defined.

Example write_failure_after_twenty_bytes :
  match write (set_faults (set_clock world1 31000000000)
                 (failing_device (Some (20%nat, ErrIO 5)) None None))
          (set_signal indexer2_token (mkChan [indexReady] 1 true)) with
  | Returned w4 i4 =>
      disk w4 = index_bytes 1 0 100 ++ [x00; x00; x00; x00] /\
      LastErr i4 = Some (ErrIO 5)
  | Asleep _ _ => False
  end.
Proof. vm_compute. done. Qed.
